(** * Natural-to-JSON compiler: the IR optimizer, the emitter and the
      semantic analysis pass, embedded from [src/optimizer.py],
      [src/codegen.py] and [src/analyzer_core.py]. *)

From Stdlib Require Import ZArith String Ascii DecimalString.
From stdpp Require Import base option gmap strings countable pretty.
From stdpp Require Import list.

(** ** IR data model *)

(** Python values that occur in the [args] of an IR instruction: entity
    names and property keys ([str]), type tags ([str]) and native values
    ([str], [int], [float], [bool], [None]).  A float is kept as the decimal
    text it was read from ([float(text)] is not evaluated).  Dictionary keys
    are compared structurally, which is Python's [==] on the strings the IR
    uses for names and keys. *)
Inductive value :=
  | VNone
  | VBool (b : bool)
  | VInt (z : Z)
  | VFloat (text : string)
  | VStr (s : string).

#[global] Instance value_eq_dec : EqDecision value.
Proof. solve_decision. Defined.

Definition value_to_sum (v : value) : unit + bool + Z + string + string :=
  match v with
  | VNone => inl (inl (inl (inl tt)))
  | VBool b => inl (inl (inl (inr b)))
  | VInt z => inl (inl (inr z))
  | VFloat t => inl (inr t)
  | VStr s => inr s
  end.

Definition value_of_sum (s : unit + bool + Z + string + string) : value :=
  match s with
  | inl (inl (inl (inl _))) => VNone
  | inl (inl (inl (inr b))) => VBool b
  | inl (inl (inr z)) => VInt z
  | inl (inr t) => VFloat t
  | inr s => VStr s
  end.

#[global] Instance value_countable : Countable value.
Proof.
  apply (inj_countable' value_to_sum value_of_sum).
  intros []; reflexivity.
Defined.

(** An instruction is the dict [{"opcode": ..., "args": [...]}]. *)
Record instr := Instr { opcode : string; args : list value }.

#[global] Instance instr_eq_dec : EqDecision instr.
Proof. solve_decision. Defined.

Definition IR_CREATE_OBJECT : string := "IR_CREATE_OBJECT".
Definition IR_SET_PROPERTY : string := "IR_SET_PROPERTY".
Definition IR_CREATE_LIST : string := "IR_CREATE_LIST".
Definition IR_APPEND_LIST : string := "IR_APPEND_LIST".

(** ** optimizer.py *)

Module Optimizer.

(** [_remove_redundant_sets], first loop: [last_writes[(obj_name, key)] = i].
    [None] is the [IndexError] of [instr["args"][0]] or [instr["args"][1]]. *)
Fixpoint scan_last_writes (i : nat) (instructions : list instr)
    (last_writes : gmap (value * value) nat) : option (gmap (value * value) nat) :=
  match instructions with
  | [] => Some last_writes
  | instr :: rest =>
      if decide (opcode instr = IR_SET_PROPERTY) then
        obj_name ← args instr !! 0%nat;
        key ← args instr !! 1%nat;
        scan_last_writes (S i) rest (<[(obj_name, key) := i]> last_writes)
      else scan_last_writes (S i) rest last_writes
  end.

(** [_remove_redundant_sets], second loop: rebuild [new_instructions]. *)
Fixpoint rebuild_last_writes (last_writes : gmap (value * value) nat) (i : nat)
    (instructions new_instructions : list instr) : option (list instr) :=
  match instructions with
  | [] => Some new_instructions
  | instr :: rest =>
      if decide (opcode instr = IR_SET_PROPERTY) then
        obj_name ← args instr !! 0%nat;
        key ← args instr !! 1%nat;
        if decide (last_writes !! (obj_name, key) = Some i)
        then rebuild_last_writes last_writes (S i) rest (new_instructions ++ [instr])
        else rebuild_last_writes last_writes (S i) rest new_instructions
      else rebuild_last_writes last_writes (S i) rest (new_instructions ++ [instr])
  end.

Definition _remove_redundant_sets (instructions : list instr) : option (list instr) :=
  last_writes ← scan_last_writes 0 instructions ∅;
  rebuild_last_writes last_writes 0 instructions [].

(** [_group_instructions], first loop: split into creations, operations and
    instructions of any other opcode. *)
Fixpoint split_instructions (instructions creations operations others : list instr)
    : list instr * list instr * list instr :=
  match instructions with
  | [] => (creations, operations, others)
  | instr :: rest =>
      if decide (opcode instr = IR_CREATE_OBJECT ∨ opcode instr = IR_CREATE_LIST) then
        split_instructions rest (creations ++ [instr]) operations others
      else if decide (opcode instr = IR_SET_PROPERTY ∨ opcode instr = IR_APPEND_LIST) then
        split_instructions rest creations (operations ++ [instr]) others
      else split_instructions rest creations operations (others ++ [instr])
  end.

(** Second loop: [ops_by_entity[entity_name].append(op)]. *)
Fixpoint bucket_operations (operations : list instr)
    (ops_by_entity : gmap value (list instr)) : option (gmap value (list instr)) :=
  match operations with
  | [] => Some ops_by_entity
  | op :: rest =>
      entity_name ← args op !! 0%nat;
      let ops_by_entity :=
        match ops_by_entity !! entity_name with
        | None => <[entity_name := []]> ops_by_entity
        | Some _ => ops_by_entity
        end in
      bucket_operations rest
        (<[entity_name := default [] (ops_by_entity !! entity_name) ++ [op]]> ops_by_entity)
  end.

(** Third loop: every creation followed by its bucket. *)
Fixpoint emit_creations (ops_by_entity : gmap value (list instr)) (creations : list instr)
    (grouped_instructions : list instr) (processed_entities : gset value)
    : option (list instr * gset value) :=
  match creations with
  | [] => Some (grouped_instructions, processed_entities)
  | create_instr :: rest =>
      entity_name ← args create_instr !! 0%nat;
      let grouped_instructions := grouped_instructions ++ [create_instr] in
      match ops_by_entity !! entity_name with
      | Some ops =>
          emit_creations ops_by_entity rest (grouped_instructions ++ ops)
            ({[entity_name]} ∪ processed_entities)
      | None => emit_creations ops_by_entity rest grouped_instructions processed_entities
      end
  end.

(** Fourth loop: operations on entities that no creation processed. *)
Fixpoint emit_orphans (processed_entities : gset value) (operations : list instr)
    (grouped_instructions : list instr) : option (list instr) :=
  match operations with
  | [] => Some grouped_instructions
  | op :: rest =>
      entity_name ← args op !! 0%nat;
      if decide (entity_name ∈ processed_entities)
      then emit_orphans processed_entities rest grouped_instructions
      else emit_orphans processed_entities rest (grouped_instructions ++ [op])
  end.

Definition _group_instructions (instructions : list instr) : option (list instr) :=
  let '(creations, operations, others) := split_instructions instructions [] [] [] in
  match others with
  | _ :: _ => Some instructions
  | [] =>
      ops_by_entity ← bucket_operations operations ∅;
      '(grouped_instructions, processed_entities) ←
        emit_creations ops_by_entity creations [] ∅;
      emit_orphans processed_entities operations grouped_instructions
  end.

(** [optimize_ir]; [instr.copy()] is a shallow copy and the model is pure, so
    the copied list is the list itself. *)
Definition optimize_ir (ir_instructions : list instr) : option (list instr) :=
  match ir_instructions with
  | [] => Some []
  | _ =>
      let optimized := ir_instructions in
      optimized ← _remove_redundant_sets optimized;
      _group_instructions optimized
  end.

End Optimizer.


(** ** codegen.py *)

Module Codegen.

(** The text [format_value(valor, tipo)] returns, kept as the branch that
    produced it: [repr(valor)], ["True" if valor else "False"], or
    [str(valor)]. *)
Inductive literal :=
  | Repr (valor : value)
  | TrueIf (valor : value)
  | Str (valor : value).

#[global] Instance literal_eq_dec : EqDecision literal.
Proof. solve_decision. Defined.

Definition format_value (valor tipo : value) : literal :=
  if decide (tipo = VStr "STRING") then Repr valor
  else if decide (tipo = VStr "BOOLEAN") then TrueIf valor
  else Str valor.

(** One line of generated Python, as abstract syntax:
    [# text], [nombre = {}], [nombre["clave"] = valor_fmt], [nombre = []],
    [nombre.append(valor_fmt)]. *)
Inductive stmt :=
  | Comment (text : string)
  | AssignDict (nombre : value)
  | SetItem (nombre clave : value) (valor_fmt : literal)
  | AssignList (nombre : value)
  | Append (nombre : value) (valor_fmt : literal).

(** The lines one instruction contributes.  [None] is the [IndexError] of
    [args[0]] or the [ValueError] of unpacking [args]; an instruction of
    another opcode contributes nothing. *)
Definition emit_instr (instr : instr) : option (list stmt) :=
  if decide (opcode instr = IR_CREATE_OBJECT) then
    nombre ← args instr !! 0%nat; Some [AssignDict nombre]
  else if decide (opcode instr = IR_SET_PROPERTY) then
    match args instr with
    | [nombre; clave; tipo; valor] => Some [SetItem nombre clave (format_value valor tipo)]
    | _ => None
    end
  else if decide (opcode instr = IR_CREATE_LIST) then
    nombre ← args instr !! 0%nat; Some [AssignList nombre]
  else if decide (opcode instr = IR_APPEND_LIST) then
    match args instr with
    | [nombre; tipo; valor] => Some [Append nombre (format_value valor tipo)]
    | _ => None
    end
  else Some [].

Fixpoint emit_loop (ir_instructions : list instr) (python_code : list stmt)
    : option (list stmt) :=
  match ir_instructions with
  | [] => Some python_code
  | instr :: rest =>
      lines ← emit_instr instr;
      emit_loop rest (python_code ++ lines)
  end.

Definition generate_python_from_ir (ir_instructions : list instr) : option (list stmt) :=
  emit_loop ir_instructions [Comment "# --- Codigo Generado ---"].

(** *** Running the generated program

    What [exec(py_code, {}, env)] of the tests leaves in [env], for a
    program whose variable names are Python identifiers and whose right-hand
    sides are literals: a right-hand side is kept as the literal it is and
    never looked up.  A variable holds a dict or a list; [None] is the
    exception Python raises ([NameError] on an unbound name, [TypeError] on
    [lista["k"] = v], [AttributeError] on [dict.append]).  A statement that
    says a program runs asks for such names and right-hand sides. *)
Inductive pyobj :=
  | PyDict (items : gmap value literal)
  | PyList (items : list literal).

Definition exec_stmt (s : stmt) (env : gmap value pyobj) : option (gmap value pyobj) :=
  match s with
  | Comment _ => Some env
  | AssignDict nombre => Some (<[nombre := PyDict ∅]> env)
  | SetItem nombre clave valor_fmt =>
      match env !! nombre with
      | Some (PyDict items) => Some (<[nombre := PyDict (<[clave := valor_fmt]> items)]> env)
      | _ => None
      end
  | AssignList nombre => Some (<[nombre := PyList []]> env)
  | Append nombre valor_fmt =>
      match env !! nombre with
      | Some (PyList items) => Some (<[nombre := PyList (items ++ [valor_fmt])]> env)
      | _ => None
      end
  end.

Fixpoint exec (python_code : list stmt) (env : gmap value pyobj)
    : option (gmap value pyobj) :=
  match python_code with
  | [] => Some env
  | s :: rest => env ← exec_stmt s env; exec rest env
  end.

(** Emit, then run in an empty environment. *)
Definition replay (ir_instructions : list instr) : option (gmap value pyobj) :=
  python_code ← generate_python_from_ir ir_instructions;
  exec python_code ∅.

End Codegen.

(** ** analyzer_core.py *)

Module Analyzer.

(** *** Parse tree *)

(** Modelled from the spec: the parse tree of the generated ANTLR parser
    ([NaturalToJsonParser], not part of the sources).  A program is a
    sequence of commands; a command creates an object from [clave : valor]
    properties or a list from a flat sequence of values; a value is one
    literal token.  Only the accessors the listeners use are kept. *)
Record Token := { text : string; line : nat; column : nat }.

Inductive ValorContext :=
  | STRING (getText : string)
  | NUMERO_ENTERO (getText : string)
  | NUMERO_DECIMAL (getText : string)
  | KW_VERDADERO
  | KW_FALSO
  | SinTerminal.

Record PropiedadContext := { clave : Token; valor : ValorContext }.

Record Crear_objeto_cmdContext :=
  { obj_start : Token; nombre_obj : Token; propiedades : list PropiedadContext }.

Record Crear_lista_cmdContext :=
  { lista_start : Token; nombre_lista : Token; items_lista : list ValorContext }.

Inductive ComandoContext :=
  | Crear_objeto_cmd (ctx : Crear_objeto_cmdContext)
  | Crear_lista_cmd (ctx : Crear_lista_cmdContext).

Definition ProgramaContext := list ComandoContext.

(** The rule a [valor] node hangs from ([ctx.parentCtx]). *)
Inductive ParentContext := PropiedadParent | Items_listaParent.

(** The listener interface [NaturalToJsonListener]: every callback has an
    empty default. *)
Record Listener (S : Type) := {
  enterCrear_objeto_cmd : Crear_objeto_cmdContext → S → S;
  exitCrear_objeto_cmd : Crear_objeto_cmdContext → S → S;
  enterPropiedad : PropiedadContext → S → S;
  exitPropiedad : PropiedadContext → S → S;
  enterCrear_lista_cmd : Crear_lista_cmdContext → S → S;
  exitCrear_lista_cmd : Crear_lista_cmdContext → S → S;
  enterValor : ParentContext → ValorContext → S → S;
  exitValor : ParentContext → ValorContext → S → S;
}.
Arguments enterCrear_objeto_cmd {S}.
Arguments exitCrear_objeto_cmd {S}.
Arguments enterPropiedad {S}.
Arguments exitPropiedad {S}.
Arguments enterCrear_lista_cmd {S}.
Arguments exitCrear_lista_cmd {S}.
Arguments enterValor {S}.
Arguments exitValor {S}.

(** [ParseTreeWalker.walk]: depth first, enter before and exit after the
    children. *)
Section walker.
Context {S : Type} (listener : Listener S).

Definition walk_valor (parent : ParentContext) (ctx : ValorContext) (s : S) : S :=
  exitValor listener parent ctx (enterValor listener parent ctx s).

Definition walk_propiedad (ctx : PropiedadContext) (s : S) : S :=
  exitPropiedad listener ctx
    (walk_valor PropiedadParent (valor ctx) (enterPropiedad listener ctx s)).

Definition walk_comando (cmd : ComandoContext) (s : S) : S :=
  match cmd with
  | Crear_objeto_cmd ctx =>
      exitCrear_objeto_cmd listener ctx
        (foldl (λ s p, walk_propiedad p s) (enterCrear_objeto_cmd listener ctx s)
           (propiedades ctx))
  | Crear_lista_cmd ctx =>
      exitCrear_lista_cmd listener ctx
        (foldl (λ s v, walk_valor Items_listaParent v s) (enterCrear_lista_cmd listener ctx s)
           (items_lista ctx))
  end.

Definition walk (tree : ProgramaContext) (s : S) : S :=
  foldl (λ s cmd, walk_comando cmd s) s tree.
End walker.

(** *** Symbol table *)

(** [metadatos]: [{"propiedades": {...}}] for an object,
    [{"tipos_elementos": [...]}] for a list, [{}] when none is given. *)
Inductive Metadatos :=
  | MetaPropiedades (propiedades : gmap string string)
  | MetaTiposElementos (tipos_elementos : list string)
  | MetaVacio.

Record SymbolEntry := {
  nombre : string;
  tipo_entidad : string;
  linea : nat;
  columna : nat;
  metadatos : Metadatos;
}.

Record SymbolTable := {
  symbols : gmap string SymbolEntry;
  reserved_words : list string;
}.

Definition SymbolTable_init : SymbolTable :=
  {| symbols := ∅;
     reserved_words :=
       ["CREAR"; "OBJETO"; "LISTA"; "CON"; "ELEMENTOS"; "VERDADERO"; "FALSO"] |}.

(** [str.upper] on the ASCII letters. *)
Definition upper_ascii (c : ascii) : ascii :=
  let n := nat_of_ascii c in
  if (97 <=? n)%nat && (n <=? 122)%nat then ascii_of_nat (n - 32) else c.

Fixpoint upper (s : string) : string :=
  match s with
  | EmptyString => EmptyString
  | String c rest => String (upper_ascii c) (upper rest)
  end.

Definition is_reserved (self : SymbolTable) (nombre : string) : bool :=
  bool_decide (upper nombre ∈ reserved_words self).

Definition lookup (self : SymbolTable) (nombre : string) : option SymbolEntry :=
  symbols self !! nombre.

(** [declare] returns the success flag and the table after the call. *)
Definition declare (self : SymbolTable) (nombre tipo_entidad : string) (linea columna : nat)
    (metadatos : option Metadatos) : bool * SymbolTable :=
  match symbols self !! nombre with
  | Some _ => (false, self)
  | None =>
      let entry :=
        {| nombre := nombre; tipo_entidad := tipo_entidad; linea := linea;
           columna := columna; metadatos := default MetaVacio metadatos |} in
      (true, {| symbols := <[nombre := entry]> (symbols self);
                reserved_words := reserved_words self |})
  end.

(** [get_value_type] *)
Definition get_value_type (ctx : ValorContext) : string :=
  match ctx with
  | STRING _ => "STRING"
  | NUMERO_ENTERO _ | NUMERO_DECIMAL _ => "NUMBER"
  | KW_VERDADERO | KW_FALSO => "BOOLEAN"
  | SinTerminal => "UNKNOWN"
  end.

(** *** Error listener *)

Record CustomErrorListener := {
  source_name : string;
  _lexer_errors : nat;
  _parser_errors : nat;
  _semantic_errors : nat;
  error_messages : list string;
}.

Definition add_semantic_error (self : CustomErrorListener) (line column : nat)
    (message : string) : CustomErrorListener :=
  {| source_name := source_name self;
     _lexer_errors := _lexer_errors self;
     _parser_errors := _parser_errors self;
     _semantic_errors := _semantic_errors self + 1;
     error_messages :=
       error_messages self ++
       ["Error Semántico en '" +:+ source_name self +:+ "' (Línea " +:+ pretty line
        +:+ ":Columna " +:+ pretty column +:+ "): " +:+ message] |}.

Definition get_total_errors (self : CustomErrorListener) : nat :=
  _lexer_errors self + _parser_errors self + _semantic_errors self.

(** *** Semantic analyzer *)

Record SemanticAnalyzer := {
  error_listener : CustomErrorListener;
  symbol_table : SymbolTable;
  current_symbol_name : option string;
}.

(** Truth value of a name that may be [None]. *)
Definition truthy (name : option string) : option string :=
  match name with
  | Some "" => None
  | other => other
  end.

(** The shared protocol of [enterCrear_objeto_cmd] and
    [enterCrear_lista_cmd]: reserved word, then redefinition.  The lookup
    after a failed [declare] always finds the earlier entry. *)
Definition enter_declaration (name tipo : string) (lin col : nat)
    (meta : Metadatos) (self : SemanticAnalyzer) : SemanticAnalyzer :=
  if is_reserved (symbol_table self) name then
    {| error_listener :=
         add_semantic_error (error_listener self) lin col
           ("El nombre '" +:+ name +:+
            "' es una palabra reservada del lenguaje y no puede usarse como identificador.");
       symbol_table := symbol_table self;
       current_symbol_name := None |}
  else
    let '(exito, table) := declare (symbol_table self) name tipo lin col (Some meta) in
    if negb exito then
      match lookup table name with
      | Some entry_prev =>
          {| error_listener :=
               add_semantic_error (error_listener self) lin col
                 ("Redefinición del símbolo '" +:+ name +:+ "'. Ya fue declarado como '"
                  +:+ tipo_entidad entry_prev +:+ "' en la línea "
                  +:+ pretty (linea entry_prev) +:+ ".");
             symbol_table := table;
             current_symbol_name := None |}
      | None => self
      end
    else
      {| error_listener := error_listener self;
         symbol_table := table;
         current_symbol_name := Some name |}.

Definition set_current_symbol_name (name : option string) (self : SemanticAnalyzer)
    : SemanticAnalyzer :=
  {| error_listener := error_listener self;
     symbol_table := symbol_table self;
     current_symbol_name := name |}.

(** In-place update of the metadata of the entry of [name]. *)
Definition set_metadatos (name : string) (meta : Metadatos) (self : SemanticAnalyzer)
    : SemanticAnalyzer :=
  {| error_listener := error_listener self;
     symbol_table :=
       {| symbols :=
            alter (λ entry,
                     {| nombre := nombre entry; tipo_entidad := tipo_entidad entry;
                        linea := linea entry; columna := columna entry;
                        metadatos := meta |}) name (symbols (symbol_table self));
          reserved_words := reserved_words (symbol_table self) |};
     current_symbol_name := current_symbol_name self |}.

Module Semantic.

Definition enterCrear_objeto_cmd (ctx : Crear_objeto_cmdContext) (self : SemanticAnalyzer)
    : SemanticAnalyzer :=
  enter_declaration (text (nombre_obj ctx)) "objeto"
    (line (obj_start ctx)) (column (obj_start ctx) + 1) (MetaPropiedades ∅) self.

Definition exitCrear_objeto_cmd (ctx : Crear_objeto_cmdContext) (self : SemanticAnalyzer)
    : SemanticAnalyzer :=
  set_current_symbol_name None self.

(** An entry of kind ["objeto"] always carries [propiedades]; the
    [KeyError] of the other shapes cannot occur and leaves the state as it
    is. *)
Definition enterPropiedad (ctx : PropiedadContext) (self : SemanticAnalyzer)
    : SemanticAnalyzer :=
  match truthy (current_symbol_name self) with
  | Some name =>
      let tipo_valor := get_value_type (valor ctx) in
      match lookup (symbol_table self) name with
      | Some entry =>
          if decide (tipo_entidad entry = "objeto") then
            match metadatos entry with
            | MetaPropiedades props =>
                set_metadatos name (MetaPropiedades (<[text (clave ctx) := tipo_valor]> props)) self
            | _ => self
            end
          else self
      | None => self
      end
  | None => self
  end.

Definition enterCrear_lista_cmd (ctx : Crear_lista_cmdContext) (self : SemanticAnalyzer)
    : SemanticAnalyzer :=
  enter_declaration (text (nombre_lista ctx)) "lista"
    (line (lista_start ctx)) (column (lista_start ctx) + 1) (MetaTiposElementos []) self.

Definition exitCrear_lista_cmd (ctx : Crear_lista_cmdContext) (self : SemanticAnalyzer)
    : SemanticAnalyzer :=
  set_current_symbol_name None self.

Definition enterValor (parent : ParentContext) (ctx : ValorContext) (self : SemanticAnalyzer)
    : SemanticAnalyzer :=
  match truthy (current_symbol_name self) with
  | Some name =>
      match lookup (symbol_table self) name with
      | Some entry =>
          if decide (tipo_entidad entry = "lista") then
            match metadatos entry with
            | MetaTiposElementos tipos =>
                set_metadatos name (MetaTiposElementos (tipos ++ [get_value_type ctx])) self
            | _ => self
            end
          else self
      | None => self
      end
  | None => self
  end.

Definition listener : Listener SemanticAnalyzer :=
  {| Analyzer.enterCrear_objeto_cmd := enterCrear_objeto_cmd;
     Analyzer.exitCrear_objeto_cmd := exitCrear_objeto_cmd;
     Analyzer.enterPropiedad := enterPropiedad;
     Analyzer.exitPropiedad := λ _ self, self;
     Analyzer.enterCrear_lista_cmd := enterCrear_lista_cmd;
     Analyzer.exitCrear_lista_cmd := exitCrear_lista_cmd;
     Analyzer.enterValor := enterValor;
     Analyzer.exitValor := λ _ _ self, self |}.

End Semantic.

(** *** IR builder *)

(** [s[1:-1]] *)
Definition slice_1_m1 (s : string) : string :=
  substring 1 (String.length s - 2) s.

(** [int(text)] on the digit sequences the lexer produces. *)
Definition py_int (text : string) : Z :=
  match NilZero.int_of_string text with
  | Some d => Z.of_int d
  | None => 0%Z
  end.

(** The native Python value of a literal; both [exitPropiedad] and
    [exitValor] of the builders compute it in the same way. *)
Definition valor_nativo (ctx : ValorContext) : value :=
  match ctx with
  | STRING getText => VStr (slice_1_m1 getText)
  | NUMERO_ENTERO getText => VInt (py_int getText)
  | NUMERO_DECIMAL getText => VFloat getText
  | KW_VERDADERO => VBool true
  | KW_FALSO => VBool false
  | SinTerminal => VNone
  end.

Record IRBuilderListener := {
  ir_instructions : list instr;
  current_obj_name : option string;
  current_list_name : option string;
}.

Module IRBuilder.

Definition init : IRBuilderListener :=
  {| ir_instructions := []; current_obj_name := None; current_list_name := None |}.

Definition get_instructions (self : IRBuilderListener) : list instr :=
  ir_instructions self.

Definition enterCrear_objeto_cmd (ctx : Crear_objeto_cmdContext) (self : IRBuilderListener)
    : IRBuilderListener :=
  let name := text (nombre_obj ctx) in
  {| ir_instructions := ir_instructions self ++ [Instr IR_CREATE_OBJECT [VStr name]];
     current_obj_name := Some name;
     current_list_name := current_list_name self |}.

Definition exitCrear_objeto_cmd (ctx : Crear_objeto_cmdContext) (self : IRBuilderListener)
    : IRBuilderListener :=
  {| ir_instructions := ir_instructions self;
     current_obj_name := None;
     current_list_name := current_list_name self |}.

Definition exitPropiedad (ctx : PropiedadContext) (self : IRBuilderListener)
    : IRBuilderListener :=
  match truthy (current_obj_name self) with
  | Some name =>
      let tipo_valor := get_value_type (valor ctx) in
      {| ir_instructions :=
           ir_instructions self ++
           [Instr IR_SET_PROPERTY
              [VStr name; VStr (text (clave ctx)); VStr tipo_valor; valor_nativo (valor ctx)]];
         current_obj_name := current_obj_name self;
         current_list_name := current_list_name self |}
  | None => self
  end.

Definition enterCrear_lista_cmd (ctx : Crear_lista_cmdContext) (self : IRBuilderListener)
    : IRBuilderListener :=
  let name := text (nombre_lista ctx) in
  {| ir_instructions := ir_instructions self ++ [Instr IR_CREATE_LIST [VStr name]];
     current_obj_name := current_obj_name self;
     current_list_name := Some name |}.

Definition exitCrear_lista_cmd (ctx : Crear_lista_cmdContext) (self : IRBuilderListener)
    : IRBuilderListener :=
  {| ir_instructions := ir_instructions self;
     current_obj_name := current_obj_name self;
     current_list_name := None |}.

Definition exitValor (parent : ParentContext) (ctx : ValorContext) (self : IRBuilderListener)
    : IRBuilderListener :=
  match truthy (current_list_name self), parent with
  | Some name, Items_listaParent =>
      let tipo_valor := get_value_type ctx in
      {| ir_instructions :=
           ir_instructions self ++
           [Instr IR_APPEND_LIST [VStr name; VStr tipo_valor; valor_nativo ctx]];
         current_obj_name := current_obj_name self;
         current_list_name := current_list_name self |}
  | _, _ => self
  end.

Definition listener : Listener IRBuilderListener :=
  {| Analyzer.enterCrear_objeto_cmd := enterCrear_objeto_cmd;
     Analyzer.exitCrear_objeto_cmd := exitCrear_objeto_cmd;
     Analyzer.enterPropiedad := λ _ self, self;
     Analyzer.exitPropiedad := exitPropiedad;
     Analyzer.enterCrear_lista_cmd := enterCrear_lista_cmd;
     Analyzer.exitCrear_lista_cmd := exitCrear_lista_cmd;
     Analyzer.enterValor := λ _ _ self, self;
     Analyzer.exitValor := exitValor |}.

End IRBuilder.

(** *** JSON builder *)

(** A Python dict with string keys, in insertion order. *)
Fixpoint dict_set {V} (k : string) (v : V) (d : list (string * V)) : list (string * V) :=
  match d with
  | [] => [(k, v)]
  | (k', v') :: rest => if decide (k' = k) then (k, v) :: rest else (k', v') :: dict_set k v rest
  end.

Inductive JsonData :=
  | JsonObject (props : list (string * value))
  | JsonArray (items : list value).

(** The text [json.dumps(result_data, indent=2, ensure_ascii=False)];
    serialization itself is outside the model. *)
Inductive JsonText := json_dumps (result_data : list (string * JsonData)).

(** [valor_procesado] is the attribute [exitValor] attaches to the
    [propiedad] node under visit; a node not yet visited has none. *)
Record JsonBuilderListener := {
  result_data : list (string * JsonData);
  current_object_name : option string;
  current_object_props : list (string * value);
  json_current_list_name : option string;
  current_list_items : list value;
  current_key : option string;
  valor_procesado : option value;
}.

Module JsonBuilder.

Definition init : JsonBuilderListener :=
  {| result_data := []; current_object_name := None; current_object_props := [];
     json_current_list_name := None; current_list_items := []; current_key := None;
     valor_procesado := None |}.

Definition get_final_json_string (self : JsonBuilderListener) : JsonText :=
  json_dumps (result_data self).

Definition enterCrear_objeto_cmd (ctx : Crear_objeto_cmdContext) (self : JsonBuilderListener)
    : JsonBuilderListener :=
  {| result_data := result_data self;
     current_object_name := Some (text (nombre_obj ctx));
     current_object_props := [];
     json_current_list_name := json_current_list_name self;
     current_list_items := current_list_items self;
     current_key := current_key self;
     valor_procesado := valor_procesado self |}.

Definition exitCrear_objeto_cmd (ctx : Crear_objeto_cmdContext) (self : JsonBuilderListener)
    : JsonBuilderListener :=
  {| result_data :=
       match truthy (current_object_name self) with
       | Some name => dict_set name (JsonObject (current_object_props self)) (result_data self)
       | None => result_data self
       end;
     current_object_name := None;
     current_object_props := current_object_props self;
     json_current_list_name := json_current_list_name self;
     current_list_items := current_list_items self;
     current_key := current_key self;
     valor_procesado := valor_procesado self |}.

Definition enterPropiedad (ctx : PropiedadContext) (self : JsonBuilderListener)
    : JsonBuilderListener :=
  {| result_data := result_data self;
     current_object_name := current_object_name self;
     current_object_props := current_object_props self;
     json_current_list_name := json_current_list_name self;
     current_list_items := current_list_items self;
     current_key := Some (text (clave ctx));
     valor_procesado := None |}.

Definition exitPropiedad (ctx : PropiedadContext) (self : JsonBuilderListener)
    : JsonBuilderListener :=
  {| result_data := result_data self;
     current_object_name := current_object_name self;
     current_object_props :=
       match truthy (current_key self), valor_procesado self with
       | Some key, Some v => dict_set key v (current_object_props self)
       | _, _ => current_object_props self
       end;
     json_current_list_name := json_current_list_name self;
     current_list_items := current_list_items self;
     current_key := None;
     valor_procesado := valor_procesado self |}.

Definition enterCrear_lista_cmd (ctx : Crear_lista_cmdContext) (self : JsonBuilderListener)
    : JsonBuilderListener :=
  {| result_data := result_data self;
     current_object_name := current_object_name self;
     current_object_props := current_object_props self;
     json_current_list_name := Some (text (nombre_lista ctx));
     current_list_items := [];
     current_key := current_key self;
     valor_procesado := valor_procesado self |}.

Definition exitCrear_lista_cmd (ctx : Crear_lista_cmdContext) (self : JsonBuilderListener)
    : JsonBuilderListener :=
  {| result_data :=
       match truthy (json_current_list_name self) with
       | Some name => dict_set name (JsonArray (current_list_items self)) (result_data self)
       | None => result_data self
       end;
     current_object_name := current_object_name self;
     current_object_props := current_object_props self;
     json_current_list_name := None;
     current_list_items := current_list_items self;
     current_key := current_key self;
     valor_procesado := valor_procesado self |}.

Definition exitValor (parent : ParentContext) (ctx : ValorContext) (self : JsonBuilderListener)
    : JsonBuilderListener :=
  let processed_value := valor_nativo ctx in
  match parent with
  | PropiedadParent =>
      {| result_data := result_data self;
         current_object_name := current_object_name self;
         current_object_props := current_object_props self;
         json_current_list_name := json_current_list_name self;
         current_list_items := current_list_items self;
         current_key := current_key self;
         valor_procesado := Some processed_value |}
  | Items_listaParent =>
      {| result_data := result_data self;
         current_object_name := current_object_name self;
         current_object_props := current_object_props self;
         json_current_list_name := json_current_list_name self;
         current_list_items := current_list_items self ++ [processed_value];
         current_key := current_key self;
         valor_procesado := valor_procesado self |}
  end.

Definition listener : Listener JsonBuilderListener :=
  {| Analyzer.enterCrear_objeto_cmd := enterCrear_objeto_cmd;
     Analyzer.exitCrear_objeto_cmd := exitCrear_objeto_cmd;
     Analyzer.enterPropiedad := enterPropiedad;
     Analyzer.exitPropiedad := exitPropiedad;
     Analyzer.enterCrear_lista_cmd := enterCrear_lista_cmd;
     Analyzer.exitCrear_lista_cmd := exitCrear_lista_cmd;
     Analyzer.enterValor := λ _ _ self, self;
     Analyzer.exitValor := exitValor |}.

End JsonBuilder.

(** *** The pipeline *)

Record Stats := {
  comandos_procesados : nat;
  errores_lexicos : nat;
  errores_sintacticos : nat;
  errores_semanticos : nat;
  symbols_debug : gmap string (string * Metadatos);
  ir : list instr;
}.

(** What [analyze_and_transform] returns, without the token listing and the
    two renderings of the parse tree. *)
Record Result := {
  json_output_string : option JsonText;
  error_summary_output : list string;
  stats : Stats;
}.

Definition get_debug_info (self : SymbolTable) : gmap string (string * Metadatos) :=
  (λ entry, (tipo_entidad entry, metadatos entry)) <$> symbols self.

(** The analysis pass: a fresh symbol table, one walk of the tree. *)
Definition semantic_pass (error_listener : CustomErrorListener) (tree : ProgramaContext)
    : SemanticAnalyzer :=
  walk Semantic.listener tree
    {| error_listener := error_listener;
       symbol_table := SymbolTable_init;
       current_symbol_name := None |}.

(** [analyze_and_transform] from the point where the parser has returned
    [tree] and the lexer and the parser have reported to [error_listener].
    The tree is an object without [__bool__] or [__len__], so [and tree] is
    always true.  [None] is an exception out of [optimize_ir]. *)
Definition analyze_and_transform (error_listener : CustomErrorListener)
    (tree : ProgramaContext) : option Result :=
  let json_output_string := None in
  let num_comandos := 0%nat in
  let symbols_debug_info := ∅ in
  let ir_output := [] in
  '(error_listener, json_output_string, num_comandos, symbols_debug_info, ir_output) ←
    (if decide (get_total_errors error_listener = 0%nat) then
       let analyzer := semantic_pass error_listener tree in
       let error_listener := Analyzer.error_listener analyzer in
       let symbols_debug_info := get_debug_info (symbol_table analyzer) in
       ir_output ←
         (if decide (_semantic_errors error_listener = 0%nat) then
            let ir_builder := walk IRBuilder.listener tree IRBuilder.init in
            Optimizer.optimize_ir (IRBuilder.get_instructions ir_builder)
          else Some ir_output);
       if decide (_semantic_errors error_listener = 0%nat) then
         let json_builder := walk JsonBuilder.listener tree JsonBuilder.init in
         Some (error_listener, Some (JsonBuilder.get_final_json_string json_builder),
               length (result_data json_builder), symbols_debug_info, ir_output)
       else
         Some (error_listener, json_output_string, num_comandos, symbols_debug_info, ir_output)
     else
       Some (error_listener, json_output_string, num_comandos, symbols_debug_info, ir_output));
  Some {| json_output_string := json_output_string;
          error_summary_output := error_messages error_listener;
          stats :=
            {| comandos_procesados := num_comandos;
               errores_lexicos := _lexer_errors error_listener;
               errores_sintacticos := _parser_errors error_listener;
               errores_semanticos := _semantic_errors error_listener;
               symbols_debug := symbols_debug_info;
               ir := ir_output |} |}.

End Analyzer.

(** ** Vocabulary of the specification *)

Definition is_set (i : instr) : Prop := opcode i = IR_SET_PROPERTY.
Definition is_append (i : instr) : Prop := opcode i = IR_APPEND_LIST.
Definition is_creation (i : instr) : Prop :=
  opcode i = IR_CREATE_OBJECT ∨ opcode i = IR_CREATE_LIST.
Definition is_operation (i : instr) : Prop :=
  opcode i = IR_SET_PROPERTY ∨ opcode i = IR_APPEND_LIST.

(** The closed instruction set of the data model. *)
Definition known_opcode (i : instr) : Prop := is_creation i ∨ is_operation i.

#[global] Instance is_set_dec i : Decision (is_set i).
Proof. unfold is_set. apply _. Defined.
#[global] Instance is_append_dec i : Decision (is_append i).
Proof. unfold is_append. apply _. Defined.
#[global] Instance is_creation_dec i : Decision (is_creation i).
Proof. unfold is_creation. apply _. Defined.
#[global] Instance is_operation_dec i : Decision (is_operation i).
Proof. unfold is_operation. apply _. Defined.
#[global] Instance known_opcode_dec i : Decision (known_opcode i).
Proof. unfold known_opcode. apply _. Defined.

(** Argument shapes of the data model: [[name]], [[objectName, key,
    valueType, nativeValue]], [[name]], [[listName, valueType, nativeValue]].
    An instruction of another opcode has no prescribed shape. *)
Definition shaped (i : instr) : Prop :=
  (is_creation i → length (args i) = 1%nat) ∧
  (is_set i → length (args i) = 4%nat) ∧
  (is_append i → length (args i) = 3%nat).

#[global] Instance shaped_dec i : Decision (shaped i).
Proof. unfold shaped. apply _. Defined.

(** The entity an instruction creates or writes to: [args[0]]. *)
Definition target (i : instr) : option value := args i !! 0%nat.

(** Two writes address the same [(objectName, key)] pair. *)
Definition same_pair (x y : instr) : Prop :=
  args x !! 0%nat = args y !! 0%nat ∧ args x !! 1%nat = args y !! 1%nat.

#[global] Instance same_pair_dec x y : Decision (same_pair x y).
Proof. unfold same_pair. apply _. Defined.

(** A later SET_PROPERTY addresses the pair of [x]: [x] is not the last
    occurrence for its pair. *)
Definition overwritten (x : instr) (later : list instr) : Prop :=
  Exists (λ y, is_set y ∧ same_pair x y) later.

#[global] Instance overwritten_dec x later : Decision (overwritten x later).
Proof. unfold overwritten. apply _. Defined.

(** Phase 1 in the words of the specification: every instruction that is
    not a SET_PROPERTY is kept, a SET_PROPERTY is kept exactly when it is the
    last occurrence for its pair, and what is kept stays in its relative
    position. *)
Fixpoint last_write_wins (xs : list instr) : list instr :=
  match xs with
  | [] => []
  | x :: later =>
      if decide (is_set x ∧ overwritten x later)
      then last_write_wins later
      else x :: last_write_wins later
  end.

Definition creations (xs : list instr) : list instr := filter is_creation xs.
Definition operations (xs : list instr) : list instr := filter is_operation xs.

(** The operations of [ops] that target entity [n], in their order. *)
Definition bucket (n : option value) (ops : list instr) : list instr :=
  filter (λ op, target op = n) ops.

(** Operations whose entity no creation of [cs] names. *)
Definition orphans (cs ops : list instr) : list instr :=
  filter (λ op, target op ∉ (target <$> cs)) ops.

(** The test of the last loop of [_group_instructions]. *)
Definition unprocessed (processed_entities : gset value) (op : instr) : Prop :=
  match target op with
  | Some n => n ∉ processed_entities
  | None => True
  end.

#[global] Instance unprocessed_dec P op : Decision (unprocessed P op).
Proof. unfold unprocessed. destruct (target op); apply _. Defined.

(** Phase 2 in the words of the specification: each creation in original
    order, each immediately followed by its bucket, then the orphans. *)
Definition grouped (xs : list instr) : list instr :=
  (creations xs ≫= λ c, c :: bucket (target c) (operations xs))
  ++ orphans (creations xs) (operations xs).

(** No entity that an operation of [ops] targets is named by two creations
    of [cs]. *)
Definition once (cs ops : list instr) : Prop :=
  Forall (λ op, (length (bucket (target op) cs) ≤ 1)%nat) ops.

Definition created_once (xs : list instr) : Prop :=
  once (creations xs) (operations xs).

(** The creation instructions carry pairwise distinct entity names. *)
Definition distinct_creations (xs : list instr) : Prop :=
  NoDup (target <$> creations xs).

(** The pairs written by the SET_PROPERTY instructions of [xs]. *)
Definition set_keys (xs : list instr) : list (option value * option value) :=
  (λ x, (args x !! 0%nat, args x !! 1%nat)) <$> filter is_set xs.

(** The key of [last_writes] for a SET_PROPERTY. *)
Definition write_key (x : instr) : option (value * value) :=
  obj_name ← args x !! 0%nat; key ← args x !! 1%nat; Some (obj_name, key).

(** Index of the last SET_PROPERTY of [xs] that writes pair [k]. *)
Fixpoint last_write (k : value * value) (xs : list instr) : option nat :=
  match xs with
  | [] => None
  | x :: later =>
      match last_write k later with
      | Some p => Some (S p)
      | None => if decide (is_set x ∧ write_key x = Some k) then Some 0%nat else None
      end
  end.

(** Instructions as the IR builder writes them. *)
Definition CO (n : string) : instr := Instr IR_CREATE_OBJECT [VStr n].
Definition CL (n : string) : instr := Instr IR_CREATE_LIST [VStr n].
Definition SP (n k t : string) (v : value) : instr :=
  Instr IR_SET_PROPERTY [VStr n; VStr k; VStr t; v].
Definition AL (n t : string) (v : value) : instr :=
  Instr IR_APPEND_LIST [VStr n; VStr t; v].

(** The sequences of [tests/test_optimizer.py]. *)
Definition ex_redundancy : list instr :=
  [CO "user"; SP "user" "name" "STRING" (VStr "Juan");
   SP "user" "name" "STRING" (VStr "Pedro")].

Definition ex_interleaved : list instr :=
  [CO "A"; CO "B"; SP "A" "x" "NUMBER" (VInt 1); SP "B" "y" "NUMBER" (VInt 2);
   SP "A" "z" "NUMBER" (VInt 3)].

Definition ex_semantics : list instr :=
  [CO "data"; CL "items"; SP "data" "val" "NUMBER" (VInt 10);
   SP "data" "val" "NUMBER" (VInt 20); AL "items" "NUMBER" (VInt 1);
   AL "items" "NUMBER" (VInt 2)].

(** A list created twice, and an instruction outside the instruction set. *)
Definition ex_twice : list instr := [CL "L"; CL "L"; AL "L" "NUMBER" (VInt 1)].

Definition ex_unknown : list instr :=
  [Instr "IR_NOP" []; SP "o" "k" "NUMBER" (VInt 1); SP "o" "k" "NUMBER" (VInt 2)].

(** ** Vocabulary of replay *)

(** Every operation comes after a creation of its entity; [seen] holds the
    entities created so far. *)
Fixpoint created_before_from (seen : list (option value)) (xs : list instr) : Prop :=
  match xs with
  | [] => True
  | x :: later =>
      (is_operation x → target x ∈ seen) ∧
      created_before_from (if decide (is_creation x) then target x :: seen else seen) later
  end.

Definition created_before (xs : list instr) : Prop := created_before_from [] xs.

#[global] Instance created_before_from_dec seen xs : Decision (created_before_from seen xs).
Proof. revert seen. induction xs as [|x xs IH]; intros seen; simpl; apply _. Defined.

#[global] Instance created_before_dec xs : Decision (created_before xs).
Proof. unfold created_before. apply _. Defined.

(** The lines of one instruction, run on [env]. *)
Definition run_instr (x : instr) (env : gmap value Codegen.pyobj)
    : option (gmap value Codegen.pyobj) :=
  lines ← Codegen.emit_instr x; Codegen.exec lines env.

Fixpoint run (xs : list instr) (env : gmap value Codegen.pyobj)
    : option (gmap value Codegen.pyobj) :=
  match xs with
  | [] => Some env
  | x :: later => env ← run_instr x env; run later env
  end.

(** What the line of an instruction does to the variable it names: [o] is
    the object the variable holds before, if any; [None] is an exception. *)
Definition instr_effect (x : instr) (o : option Codegen.pyobj) : option Codegen.pyobj :=
  if decide (opcode x = IR_CREATE_OBJECT) then Some (Codegen.PyDict ∅)
  else if decide (opcode x = IR_SET_PROPERTY) then
    match args x, o with
    | [_; clave; tipo; valor], Some (Codegen.PyDict items) =>
        Some (Codegen.PyDict (<[clave := Codegen.format_value valor tipo]> items))
    | _, _ => None
    end
  else if decide (opcode x = IR_CREATE_LIST) then Some (Codegen.PyList [])
  else if decide (opcode x = IR_APPEND_LIST) then
    match args x, o with
    | [_; tipo; valor], Some (Codegen.PyList items) =>
        Some (Codegen.PyList (items ++ [Codegen.format_value valor tipo]))
    | _, _ => None
    end
  else o.

(** The instructions on one entity, run on the variable of the entity. *)
Fixpoint run1 (xs : list instr) (o : option Codegen.pyobj) : option (option Codegen.pyobj) :=
  match xs with
  | [] => Some o
  | x :: later => o' ← instr_effect x o; run1 later (Some o')
  end.

(** [float(text)] of a decimal [digits.digits]: the value as a fraction
    [(numerator, denominator)] with a power of ten below. *)
Definition digit_of (c : ascii) : option N :=
  let n := N_of_ascii c in
  if (48 <=? n)%N && (n <=? 57)%N then Some (n - 48)%N else None.

Fixpoint digits_value (acc : N) (s : string) : option N :=
  match s with
  | EmptyString => Some acc
  | String c rest => d ← digit_of c; digits_value (10 * acc + d)%N rest
  end.

Fixpoint split_point (s : string) : option (string * string) :=
  match s with
  | EmptyString => None
  | String c rest =>
      if Ascii.eqb c "." then Some (EmptyString, rest)
      else '(i, f) ← split_point rest; Some (String c i, f)
  end.

Definition decimal_value (text : string) : option (N * N) :=
  '(i, f) ← split_point text;
  if decide (i = EmptyString ∨ f = EmptyString) then None
  else n ← digits_value 0 (i +:+ f); Some (n, 10 ^ N.of_nat (String.length f))%N.

(** The least magnitude [float] rounds to [inf]: halfway between the
    largest binary64 number and [2^1024], the tie going to the even
    neighbour. *)
Definition float_overflow : N := (2 ^ 1024 - 2 ^ 970)%N.

(** [float(text)] is a finite number, for [text] a decimal. *)
Definition finite_float (text : string) : Prop :=
  match decimal_value text with
  | Some (n, d) => (n < float_overflow * d)%N
  | None => False
  end.

#[global] Instance finite_float_dec text : Decision (finite_float text).
Proof. unfold finite_float. destruct (decimal_value text) as [[n d]|]; apply _. Defined.

(** The formatted text is a Python literal.  [True]/[False] always is;
    [repr] and [str] of a [str] differ: [repr] quotes it, [str] splices its
    characters into the program; [repr] and [str] of a [float] print [inf]
    once the number has overflowed, which Python reads as a name. *)
Definition is_literal (valor_fmt : Codegen.literal) : Prop :=
  match valor_fmt with
  | Codegen.Str (VStr _) => False
  | Codegen.Str (VFloat text) | Codegen.Repr (VFloat text) => finite_float text
  | _ => True
  end.

(** The right-hand side the emitter prints for an operation is a literal. *)
Definition literal_valued (x : instr) : Prop :=
  if decide (is_set x) then
    match args x with
    | [_; _; tipo; valor] => is_literal (Codegen.format_value valor tipo)
    | _ => True
    end
  else if decide (is_append x) then
    match args x with
    | [_; tipo; valor] => is_literal (Codegen.format_value valor tipo)
    | _ => True
    end
  else True.

#[global] Instance is_literal_dec l : Decision (is_literal l).
Proof. destruct l as [v|v|v]; destruct v; simpl; apply _. Defined.

#[global] Instance literal_valued_dec x : Decision (literal_valued x).
Proof.
  unfold literal_valued. repeat case_decide; try apply _.
  - destruct (args x) as [|? [|? [|? [|? [|]]]]]; apply _.
  - destruct (args x) as [|? [|? [|? [|]]]]; apply _.
Defined.

(** The type tag the builders give a native value. *)
Definition type_of_value (v : value) : string :=
  match v with
  | VStr _ => "STRING"
  | VInt _ | VFloat _ => "NUMBER"
  | VBool _ => "BOOLEAN"
  | VNone => "UNKNOWN"
  end.

(** An operation carries the type tag of its native value. *)
Definition typed (x : instr) : Prop :=
  if decide (is_set x) then
    match args x with
    | [_; _; tipo; valor] => tipo = VStr (type_of_value valor)
    | _ => False
    end
  else if decide (is_append x) then
    match args x with
    | [_; tipo; valor] => tipo = VStr (type_of_value valor)
    | _ => False
    end
  else True.

#[global] Instance typed_dec x : Decision (typed x).
Proof.
  unfold typed. repeat case_decide; try apply _.
  - destruct (args x) as [|? [|? [|? [|? [|]]]]]; apply _.
  - destruct (args x) as [|? [|? [|? [|]]]]; apply _.
Defined.


(** ** Vocabulary of the analysis claims *)

(** The declared name, kind and position of a command. *)
Definition cmd_name (cmd : Analyzer.ComandoContext) : string :=
  match cmd with
  | Analyzer.Crear_objeto_cmd ctx => Analyzer.text (Analyzer.nombre_obj ctx)
  | Analyzer.Crear_lista_cmd ctx => Analyzer.text (Analyzer.nombre_lista ctx)
  end.

Definition cmd_kind (cmd : Analyzer.ComandoContext) : string :=
  match cmd with
  | Analyzer.Crear_objeto_cmd _ => "objeto"
  | Analyzer.Crear_lista_cmd _ => "lista"
  end.

Definition cmd_start (cmd : Analyzer.ComandoContext) : Analyzer.Token :=
  match cmd with
  | Analyzer.Crear_objeto_cmd ctx => Analyzer.obj_start ctx
  | Analyzer.Crear_lista_cmd ctx => Analyzer.lista_start ctx
  end.

(** The creation instruction the IR builder emits for a command. *)
Definition creation_of (cmd : Analyzer.ComandoContext) : instr :=
  match cmd with
  | Analyzer.Crear_objeto_cmd _ => Instr IR_CREATE_OBJECT [VStr (cmd_name cmd)]
  | Analyzer.Crear_lista_cmd _ => Instr IR_CREATE_LIST [VStr (cmd_name cmd)]
  end.

(** An operation the IR builder may emit inside the body of entity [n]. *)
Definition body_operation (n : string) (x : instr) : Prop :=
  is_operation x ∧ shaped x ∧ typed x ∧ target x = Some (VStr n).

(** Two names differ at most in the case of their ASCII letters. *)
Fixpoint same_letters (s t : string) : Prop :=
  match s, t with
  | EmptyString, EmptyString => True
  | String c s', String d t' =>
      Analyzer.upper_ascii c = Analyzer.upper_ascii d ∧ same_letters s' t'
  | _, _ => False
  end.

(** The double quote character and a literal between double quotes. *)
Definition dquote : ascii := "034"%char.
Definition quoted (body : string) : string :=
  String dquote (body +:+ String dquote EmptyString).

(** A listener that has heard no error, and small parse trees. *)
Definition fresh_listener : Analyzer.CustomErrorListener :=
  {| Analyzer.source_name := "<input>"; Analyzer._lexer_errors := 0;
     Analyzer._parser_errors := 0; Analyzer._semantic_errors := 0;
     Analyzer.error_messages := [] |}.

Definition tok (s : string) (l c : nat) : Analyzer.Token :=
  {| Analyzer.text := s; Analyzer.line := l; Analyzer.column := c |}.

(** [CREAR OBJETO name CON edad:30] on line [l]. *)
Definition crear_objeto (name : string) (l : nat) : Analyzer.ComandoContext :=
  Analyzer.Crear_objeto_cmd
    {| Analyzer.obj_start := tok "CREAR" l 0;
       Analyzer.nombre_obj := tok name l 13;
       Analyzer.propiedades :=
         [ {| Analyzer.clave := tok "edad" l 20;
              Analyzer.valor := Analyzer.NUMERO_ENTERO "30" |} ] |}.

(** [CREAR LISTA name CON ELEMENTOS 1, 2] on line [l]. *)
Definition crear_lista (name : string) (l : nat) : Analyzer.ComandoContext :=
  Analyzer.Crear_lista_cmd
    {| Analyzer.lista_start := tok "CREAR" l 0;
       Analyzer.nombre_lista := tok name l 12;
       Analyzer.items_lista := [Analyzer.NUMERO_ENTERO "1"; Analyzer.NUMERO_ENTERO "2"] |}.

(** [CREAR OBJETO usuario CON nombre:"Juan", edad:30] *)
Definition ex_usuario : Analyzer.ProgramaContext :=
  [ Analyzer.Crear_objeto_cmd
      {| Analyzer.obj_start := tok "CREAR" 1 0;
         Analyzer.nombre_obj := tok "usuario" 1 13;
         Analyzer.propiedades :=
           [ {| Analyzer.clave := tok "nombre" 1 25;
                Analyzer.valor := Analyzer.STRING (quoted "Juan") |};
             {| Analyzer.clave := tok "edad" 1 40;
                Analyzer.valor := Analyzer.NUMERO_ENTERO "30" |} ] |} ].



(** What the body of a command may change in the analyzer that entered it
    as [s0]: the metadata of the entry of [n], declared over [base]. *)
Definition body_invariant (n k : string) (l c : nat)
    (base : gmap string Analyzer.SymbolEntry)
    (s0 s : Analyzer.SemanticAnalyzer) : Prop :=
  Analyzer.error_listener s = Analyzer.error_listener s0 ∧
  Analyzer.reserved_words (Analyzer.symbol_table s)
    = Analyzer.reserved_words (Analyzer.symbol_table s0) ∧
  Analyzer.current_symbol_name s = Some n ∧
  ∃ e, Analyzer.symbols (Analyzer.symbol_table s) = <[n := e]> base ∧
       Analyzer.nombre e = n ∧ Analyzer.tipo_entidad e = k ∧
       Analyzer.linea e = l ∧ Analyzer.columna e = c.

(** ** Vocabulary of the further properties *)

(** What the two phases index: a SET_PROPERTY needs [args[0]] and
    [args[1]], the grouping needs [args[0]] of every known instruction. *)
Definition set_indexable (x : instr) : Prop :=
  is_set x → (2 ≤ length (args x))%nat.

Definition named (x : instr) : Prop :=
  known_opcode x → (1 ≤ length (args x))%nat.

#[global] Instance set_indexable_dec x : Decision (set_indexable x).
Proof. unfold set_indexable. apply _. Defined.
#[global] Instance named_dec x : Decision (named x).
Proof. unfold named. apply _. Defined.

(** What the emitter unpacks: [args[0]] of a creation, exactly four
    arguments of a SET_PROPERTY, exactly three of an APPEND_LIST. *)
Definition emittable (x : instr) : Prop :=
  (is_creation x → (1 ≤ length (args x))%nat) ∧
  (is_set x → length (args x) = 4%nat) ∧
  (is_append x → length (args x) = 3%nat).

#[global] Instance emittable_dec x : Decision (emittable x).
Proof. unfold emittable. apply _. Defined.

(** A malformed write, and a creation without a name. *)
Definition ex_short_set : list instr :=
  [CO "o"; Instr IR_SET_PROPERTY [VStr "o"]].
Definition ex_unnamed : list instr := [Instr IR_CREATE_OBJECT []; CO "o"].
Definition ex_orphans : list instr :=
  [SP "a" "k" "NUMBER" (VInt 1); AL "b" "NUMBER" (VInt 2); SP "a" "j" "NUMBER" (VInt 3)].




(** ** Vocabulary of the analysis pass *)

(** The entry a command declares: what [enter_declaration] stores and the
    body of the command then fills in. *)
Definition cmd_metadatos (cmd : Analyzer.ComandoContext) : Analyzer.Metadatos :=
  match cmd with
  | Analyzer.Crear_objeto_cmd ctx =>
      Analyzer.MetaPropiedades
        (foldl (λ m p, <[Analyzer.text (Analyzer.clave p) :=
                           Analyzer.get_value_type (Analyzer.valor p)]> m)
           ∅ (Analyzer.propiedades ctx))
  | Analyzer.Crear_lista_cmd ctx =>
      Analyzer.MetaTiposElementos (Analyzer.get_value_type <$> Analyzer.items_lista ctx)
  end.

Definition cmd_entry (cmd : Analyzer.ComandoContext) : Analyzer.SymbolEntry :=
  {| Analyzer.nombre := cmd_name cmd;
     Analyzer.tipo_entidad := cmd_kind cmd;
     Analyzer.linea := Analyzer.line (cmd_start cmd);
     Analyzer.columna := Analyzer.column (cmd_start cmd) + 1;
     Analyzer.metadatos := cmd_metadatos cmd |}.

(** The first command of the program that declares [n]. *)
Definition first_named (n : string) (tree : Analyzer.ProgramaContext)
    : option Analyzer.ComandoContext :=
  head (filter (λ cmd, cmd_name cmd = n) tree).

(** No command has the empty name; the lexer never produces one. *)
Definition names_given (tree : Analyzer.ProgramaContext) : Prop :=
  Forall (λ cmd, cmd_name cmd ≠ EmptyString) tree.

#[global] Instance names_given_dec tree : Decision (names_given tree).
Proof. unfold names_given. apply _. Defined.

(** An analyzer inside the body of the command that declared [e] over
    [base]. *)
Definition in_body (el : Analyzer.CustomErrorListener) (rw : list string)
    (base : gmap string Analyzer.SymbolEntry) (e : Analyzer.SymbolEntry)
    : Analyzer.SemanticAnalyzer :=
  {| Analyzer.error_listener := el;
     Analyzer.symbol_table :=
       {| Analyzer.symbols := <[Analyzer.nombre e := e]> base;
          Analyzer.reserved_words := rw |};
     Analyzer.current_symbol_name := Some (Analyzer.nombre e) |}.

Definition with_metadatos (e : Analyzer.SymbolEntry) (meta : Analyzer.Metadatos)
    : Analyzer.SymbolEntry :=
  {| Analyzer.nombre := Analyzer.nombre e;
     Analyzer.tipo_entidad := Analyzer.tipo_entidad e;
     Analyzer.linea := Analyzer.linea e;
     Analyzer.columna := Analyzer.columna e;
     Analyzer.metadatos := meta |}.

(** Two declarations of one name, and a reserved word used as a name. *)
Definition ex_redeclared : Analyzer.ProgramaContext :=
  [crear_objeto "a" 1; crear_lista "b" 2; crear_lista "a" 3; crear_objeto "lista" 4].

(** ** Vocabulary of the two builders *)

(** The IR of a program. *)
Definition ir_of (tree : Analyzer.ProgramaContext) : list instr :=
  Analyzer.IRBuilder.get_instructions
    (Analyzer.walk Analyzer.IRBuilder.listener tree Analyzer.IRBuilder.init).

(** The data the JSON builder collects for a program. *)
Definition json_of (tree : Analyzer.ProgramaContext) : list (string * Analyzer.JsonData) :=
  Analyzer.result_data
    (Analyzer.walk Analyzer.JsonBuilder.listener tree Analyzer.JsonBuilder.init).

(** The operations of the body of a command: one per property, one per
    item. *)
Definition body_of (cmd : Analyzer.ComandoContext) : list instr :=
  match cmd with
  | Analyzer.Crear_objeto_cmd ctx =>
      (λ p, Instr IR_SET_PROPERTY
              [VStr (cmd_name cmd); VStr (Analyzer.text (Analyzer.clave p));
               VStr (Analyzer.get_value_type (Analyzer.valor p));
               Analyzer.valor_nativo (Analyzer.valor p)])
      <$> Analyzer.propiedades ctx
  | Analyzer.Crear_lista_cmd ctx =>
      (λ v, Instr IR_APPEND_LIST
              [VStr (cmd_name cmd); VStr (Analyzer.get_value_type v);
               Analyzer.valor_nativo v])
      <$> Analyzer.items_lista ctx
  end.

(** The value a command binds its name to in the JSON document. *)
Definition json_of_cmd (cmd : Analyzer.ComandoContext) : Analyzer.JsonData :=
  match cmd with
  | Analyzer.Crear_objeto_cmd ctx =>
      Analyzer.JsonObject
        (foldl (λ d p, Analyzer.dict_set (Analyzer.text (Analyzer.clave p))
                         (Analyzer.valor_nativo (Analyzer.valor p)) d)
           [] (Analyzer.propiedades ctx))
  | Analyzer.Crear_lista_cmd ctx =>
      Analyzer.JsonArray (Analyzer.valor_nativo <$> Analyzer.items_lista ctx)
  end.

(** No property has the empty key; the lexer never produces one. *)
Definition cmd_keys_given (cmd : Analyzer.ComandoContext) : Prop :=
  match cmd with
  | Analyzer.Crear_objeto_cmd ctx =>
      Forall (λ p, Analyzer.text (Analyzer.clave p) ≠ EmptyString) (Analyzer.propiedades ctx)
  | Analyzer.Crear_lista_cmd _ => True
  end.

#[global] Instance cmd_keys_given_dec cmd : Decision (cmd_keys_given cmd).
Proof. destruct cmd; simpl; apply _. Defined.

Definition keys_given (tree : Analyzer.ProgramaContext) : Prop := Forall cmd_keys_given tree.

#[global] Instance keys_given_dec tree : Decision (keys_given tree).
Proof. unfold keys_given. apply _. Defined.

(** The literal the emitter prints for a native value under the type tag
    the builders give it. *)
Definition literal_of (v : value) : Codegen.literal :=
  match v with
  | VStr _ => Codegen.Repr v
  | VBool _ => Codegen.TrueIf v
  | _ => Codegen.Str v
  end.

(** The Python data a JSON document denotes, variable by variable. *)
Definition py_of_json (j : Analyzer.JsonData) : Codegen.pyobj :=
  match j with
  | Analyzer.JsonObject props =>
      Codegen.PyDict (list_to_map ((λ kv, (VStr kv.1, literal_of kv.2)) <$> props))
  | Analyzer.JsonArray items => Codegen.PyList (literal_of <$> items)
  end.

Definition env_of_json (d : list (string * Analyzer.JsonData)) : gmap value Codegen.pyobj :=
  list_to_map ((λ nj, (VStr nj.1, py_of_json nj.2)) <$> d).

(** [CREAR OBJETO o CON a:1, b:"x", a:VERDADERO] and [CREAR LISTA l CON
    ELEMENTOS 1, 2.5]. *)
Definition ex_mixed : Analyzer.ProgramaContext :=
  [ Analyzer.Crear_objeto_cmd
      {| Analyzer.obj_start := tok "CREAR" 1 0;
         Analyzer.nombre_obj := tok "o" 1 13;
         Analyzer.propiedades :=
           [ {| Analyzer.clave := tok "a" 1 19; Analyzer.valor := Analyzer.NUMERO_ENTERO "1" |};
             {| Analyzer.clave := tok "b" 1 24; Analyzer.valor := Analyzer.STRING (quoted "x") |};
             {| Analyzer.clave := tok "a" 1 31; Analyzer.valor := Analyzer.KW_VERDADERO |} ] |};
    Analyzer.Crear_lista_cmd
      {| Analyzer.lista_start := tok "CREAR" 2 0;
         Analyzer.nombre_lista := tok "l" 2 12;
         Analyzer.items_lista := [Analyzer.NUMERO_ENTERO "1"; Analyzer.NUMERO_DECIMAL "2.5"] |} ].

(** ** Sequences that are grouped already *)

(** Every instruction is a creation or an operation, and every operation
    writes to the entity of the creation last seen; [cur] is that entity. *)
Fixpoint follows (cur : option (option value)) (xs : list instr) : Prop :=
  match xs with
  | [] => True
  | x :: later =>
      if decide (is_creation x) then follows (Some (target x)) later
      else (is_operation x ∧ cur = Some (target x)) ∧ follows cur later
  end.

#[global] Instance follows_dec cur xs : Decision (follows cur xs).
Proof.
  revert cur. induction xs as [|x xs IH]; intros cur; simpl; [apply _|].
  case_decide; apply _.
Defined.

#[global] Instance distinct_creations_dec xs : Decision (distinct_creations xs).
Proof. unfold distinct_creations. apply _. Defined.

(** No command takes a reserved word, in any letter case, as its name. *)
Definition names_free (tree : Analyzer.ProgramaContext) : Prop :=
  Forall (λ cmd, Analyzer.is_reserved Analyzer.SymbolTable_init (cmd_name cmd) = false) tree.

#[global] Instance names_free_dec tree : Decision (names_free tree).
Proof. unfold names_free. apply _. Defined.

(** ** Scripts whose program Python can read *)

(** Every decimal literal of the script is a finite [float]. *)
Definition valor_finite (v : Analyzer.ValorContext) : Prop :=
  match v with
  | Analyzer.NUMERO_DECIMAL getText => finite_float getText
  | _ => True
  end.

#[global] Instance valor_finite_dec v : Decision (valor_finite v).
Proof. destruct v; simpl; apply _. Defined.

Definition cmd_finite (cmd : Analyzer.ComandoContext) : Prop :=
  match cmd with
  | Analyzer.Crear_objeto_cmd ctx =>
      Forall (λ p, valor_finite (Analyzer.valor p)) (Analyzer.propiedades ctx)
  | Analyzer.Crear_lista_cmd ctx => Forall valor_finite (Analyzer.items_lista ctx)
  end.

#[global] Instance cmd_finite_dec cmd : Decision (cmd_finite cmd).
Proof. destruct cmd; simpl; apply _. Defined.

Definition finite_values (tree : Analyzer.ProgramaContext) : Prop := Forall cmd_finite tree.

#[global] Instance finite_values_dec tree : Decision (finite_values tree).
Proof. unfold finite_values. apply _. Defined.

(** An ASCII identifier: a letter or an underscore, then letters, digits
    and underscores. *)
Definition is_letter (c : ascii) : bool :=
  let n := nat_of_ascii c in
  ((65 <=? n)%nat && (n <=? 90)%nat) || ((97 <=? n)%nat && (n <=? 122)%nat) || (n =? 95)%nat.

Definition is_digit (c : ascii) : bool :=
  let n := nat_of_ascii c in (48 <=? n)%nat && (n <=? 57)%nat.

Fixpoint all_chars (p : ascii → bool) (s : string) : bool :=
  match s with
  | EmptyString => true
  | String c rest => p c && all_chars p rest
  end.

Definition identifier (s : string) : bool :=
  match s with
  | EmptyString => false
  | String c rest => is_letter c && all_chars (λ c, is_letter c || is_digit c) rest
  end.

(** The names Python does not let a program assign to: its keywords and
    [__debug__]. *)
Definition python_reserved : list string :=
  ["False"; "None"; "True"; "and"; "as"; "assert"; "async"; "await"; "break"; "class";
   "continue"; "def"; "del"; "elif"; "else"; "except"; "finally"; "for"; "from";
   "global"; "if"; "import"; "in"; "is"; "lambda"; "nonlocal"; "not"; "or"; "pass";
   "raise"; "return"; "try"; "while"; "with"; "yield"; "__debug__"].

(** A name the emitted program can use as a variable. *)
Definition python_name (s : string) : Prop :=
  identifier s = true ∧ s ∉ python_reserved.

#[global] Instance python_name_dec s : Decision (python_name s).
Proof. unfold python_name. apply _. Defined.

Definition python_names (tree : Analyzer.ProgramaContext) : Prop :=
  Forall (λ cmd, python_name (cmd_name cmd)) tree.

#[global] Instance python_names_dec tree : Decision (python_names tree).
Proof. unfold python_names. apply _. Defined.

(** A key that stands for itself between the double quotes the emitter
    puts around it: printable ASCII without the double quote and the
    backslash, and not empty. *)
Definition plain_char (c : ascii) : bool :=
  let n := nat_of_ascii c in
  (32 <=? n)%nat && (n <=? 126)%nat && negb (n =? 34)%nat && negb (n =? 92)%nat.

Definition plain_key (s : string) : Prop :=
  s ≠ EmptyString ∧ all_chars plain_char s = true.

#[global] Instance plain_key_dec s : Decision (plain_key s).
Proof. unfold plain_key. apply _. Defined.

Definition cmd_plain_keys (cmd : Analyzer.ComandoContext) : Prop :=
  match cmd with
  | Analyzer.Crear_objeto_cmd ctx =>
      Forall (λ p, plain_key (Analyzer.text (Analyzer.clave p))) (Analyzer.propiedades ctx)
  | Analyzer.Crear_lista_cmd _ => True
  end.

#[global] Instance cmd_plain_keys_dec cmd : Decision (cmd_plain_keys cmd).
Proof. destruct cmd; simpl; apply _. Defined.

Definition plain_keys (tree : Analyzer.ProgramaContext) : Prop := Forall cmd_plain_keys tree.

#[global] Instance plain_keys_dec tree : Decision (plain_keys tree).
Proof. unfold plain_keys. apply _. Defined.

(** [CREAR OBJETO o CON k:1<309 zeros>.0, k:1]: the decimal is beyond the
    range of [float]. *)
Definition ex_overflow : Analyzer.ProgramaContext :=
  [ Analyzer.Crear_objeto_cmd
      {| Analyzer.obj_start := tok "CREAR" 1 0;
         Analyzer.nombre_obj := tok "o" 1 13;
         Analyzer.propiedades :=
           [ {| Analyzer.clave := tok "k" 1 19;
                Analyzer.valor :=
                  Analyzer.NUMERO_DECIMAL
                    (String "1" (string_of_list_ascii (replicate 309 "0"%char)) +:+ ".0") |};
             {| Analyzer.clave := tok "k" 1 340; Analyzer.valor := Analyzer.NUMERO_ENTERO "1" |} ] |} ].

(** * Phase 1: redundant-write elimination *)

Import Optimizer.

Lemma shaped_set_key x :
  shaped x → is_set x → ∃ o k, args x !! 0%nat = Some o ∧ args x !! 1%nat = Some k.
Proof.
  intros (_ & Hs & _) Hx. specialize (Hs Hx).
  destruct (args x) as [|o [|k ?]]; simplify_eq/=. eauto.
Qed.

Lemma last_write_None k xs :
  last_write k xs = None ↔ Forall (λ y, ¬ (is_set y ∧ write_key y = Some k)) xs.
Proof.
  induction xs as [|x xs IH]; simpl.
  - split; [constructor | done].
  - destruct (last_write k xs) as [p|].
    + split; [done|]. intros [_ H]%Forall_cons_1.
      apply IH in H. done.
    + case_decide as Hx.
      * split; [done|]. intros [H _]%Forall_cons_1. done.
      * split; [|done]. intros _. constructor; [done|]. by apply IH.
Qed.

Lemma overwritten_last_write x o k later :
  args x !! 0%nat = Some o → args x !! 1%nat = Some k →
  overwritten x later ↔ last_write (o, k) later ≠ None.
Proof.
  intros Ho Hk. unfold overwritten.
  assert (∀ y, (is_set y ∧ same_pair x y) ↔ (is_set y ∧ write_key y = Some (o, k))) as Heq.
  { intros y. unfold same_pair, write_key. rewrite Ho, Hk. split.
    - intros [? [<- <-]]. done.
    - intros [? Hy]. split; [done|].
      destruct (args y !! 0%nat), (args y !! 1%nat); simplify_eq/=; done. }
  split.
  - intros Hex Hn. apply last_write_None in Hn.
    apply Exists_exists in Hex as (y & Hy & Hp).
    rewrite Forall_forall in Hn. apply (Hn y Hy). by apply Heq.
  - intros Hn. destruct (decide (Exists (λ y, is_set y ∧ same_pair x y) later)) as [|Hne]; [done|].
    exfalso. apply Hn, last_write_None, Forall_forall. intros y Hy Hp.
    apply Hne, Exists_exists. exists y. split; [done|]. by apply Heq.
Qed.

Lemma scan_last_writes_spec xs : ∀ i m,
  Forall shaped xs →
  ∃ m', scan_last_writes i xs m = Some m' ∧
    ∀ k, m' !! k = match last_write k xs with
                   | Some p => Some (i + p)%nat
                   | None => m !! k
                   end.
Proof.
  induction xs as [|x xs IH]; intros i m Hs; simpl.
  - eauto.
  - apply Forall_cons in Hs as [Hx Hs]. case_decide as Hset.
    + destruct (shaped_set_key x Hx Hset) as (o & k & Ho & Hk).
      rewrite Ho, Hk. simpl.
      destruct (IH (S i) (<[(o, k) := i]> m) Hs) as (m' & -> & Hm').
      eexists; split; [done|]. intros k'. rewrite Hm'.
      destruct (last_write k' xs) as [p|]; [f_equal; lia|].
      unfold write_key. rewrite Ho, Hk. simpl.
      case_decide as Hd.
      * destruct Hd as [_ Hd]. simplify_eq. rewrite lookup_insert_eq. f_equal; lia.
      * rewrite lookup_insert_ne; [done|]. intros <-. by apply Hd.
    + destruct (IH (S i) m Hs) as (m' & -> & Hm').
      eexists; split; [done|]. intros k'. rewrite Hm'.
      destruct (last_write k' xs) as [p|]; [f_equal; lia|].
      case_decide as Hd; [by destruct Hd|done].
Qed.

Lemma rebuild_last_writes_spec lw xs : ∀ i acc,
  Forall shaped xs →
  (∀ k, match last_write k xs with
        | Some p => lw !! k = Some (i + p)%nat
        | None => ∀ j, lw !! k = Some j → (j < i)%nat
        end) →
  rebuild_last_writes lw i xs acc = Some (acc ++ last_write_wins xs).
Proof.
  induction xs as [|x xs IH]; intros i acc Hs Hlw; simpl.
  - by rewrite app_nil_r.
  - apply Forall_cons in Hs as [Hx Hs].
    assert (∀ k, match last_write k xs with
                 | Some p => lw !! k = Some (S i + p)%nat
                 | None => ∀ j, lw !! k = Some j → (j < S i)%nat
                 end) as Hlw'.
    { intros k. specialize (Hlw k). simpl in Hlw.
      destruct (last_write k xs) as [p|].
      - rewrite Hlw. f_equal; lia.
      - case_decide.
        + intros j Hj. rewrite Hlw in Hj. simplify_eq. lia.
        + intros j Hj. specialize (Hlw j Hj). lia. }
    case_decide as Hset.
    + destruct (shaped_set_key x Hx Hset) as (o & k & Ho & Hk).
      rewrite Ho, Hk. simpl.
      specialize (Hlw (o, k)) as Hok. simpl in Hok.
      pose proof (overwritten_last_write x o k xs Ho Hk) as Hov.
      destruct (last_write (o, k) xs) as [p|] eqn:Hl.
      * rewrite decide_False by (rewrite Hok; intros [=]; lia).
        rewrite decide_True by (split; [done|]; by apply Hov).
        by apply IH.
      * rewrite decide_True in Hok
          by (split; [done|]; unfold write_key; by rewrite Ho, Hk).
        rewrite decide_True by (rewrite Hok; f_equal; lia).
        rewrite decide_False by (intros [_ H%Hov]; done).
        rewrite IH by done. by rewrite <- app_assoc.
    + rewrite decide_False by (by intros [? _]).
      rewrite IH by done. by rewrite <- app_assoc.
Qed.

(** The two loops of [_remove_redundant_sets] compute [last_write_wins]. *)
Lemma remove_redundant_sets_spec xs :
  Forall shaped xs → _remove_redundant_sets xs = Some (last_write_wins xs).
Proof.
  intros Hs. unfold _remove_redundant_sets.
  destruct (scan_last_writes_spec xs 0 ∅ Hs) as (lw & -> & Hlw). simpl.
  rewrite (rebuild_last_writes_spec lw xs 0 []); [done..|].
  intros k. rewrite Hlw. destruct (last_write k xs); [done|].
  intros j. by rewrite lookup_empty.
Qed.

(** * Phase 2: creation-locality grouping *)

Lemma filter_ext_elem {A} (P Q : A → Prop) `{∀ x, Decision (P x)} `{∀ x, Decision (Q x)}
    (l : list A) :
  (∀ x, x ∈ l → P x ↔ Q x) → filter P l = filter Q l.
Proof.
  induction l as [|x l IH]; intros Hl; [done|].
  rewrite !filter_cons. rewrite IH by (intros y Hy; apply Hl; by right).
  destruct (decide (P x)) as [Hp|Hp], (decide (Q x)) as [Hq|Hq]; try done.
  - exfalso. apply Hq, Hl; [by left|done].
  - exfalso. apply Hp, Hl; [by left|done].
Qed.

Lemma filter_none {A} (P : A → Prop) `{∀ x, Decision (P x)} (l : list A) :
  Forall (λ x, ¬ P x) l → filter P l = [].
Proof.
  induction 1 as [|x l Hx _ IH]; [done|]. by rewrite filter_cons_False.
Qed.

Lemma filter_all {A} (P : A → Prop) `{∀ x, Decision (P x)} (l : list A) :
  Forall P l → filter P l = l.
Proof.
  induction 1 as [|x l Hx _ IH]; [done|]. rewrite filter_cons_True by done. by f_equal.
Qed.

Lemma creation_not_operation i : is_creation i → ¬ is_operation i.
Proof. unfold is_creation, is_operation. intros [-> | ->] [? | ?]; done. Qed.

Lemma shaped_target x :
  shaped x → is_creation x ∨ is_operation x → is_Some (target x).
Proof.
  intros (Hc & Hs & Ha) Hx. unfold target.
  assert (0 < length (args x))%nat as Hlen.
  { destruct Hx as [Hx | [Hx | Hx]].
    - rewrite (Hc Hx); lia.
    - rewrite (Hs Hx); lia.
    - rewrite (Ha Hx); lia. }
  by apply lookup_lt_is_Some.
Qed.

Lemma split_instructions_spec xs : ∀ cs ops others,
  split_instructions xs cs ops others =
  (cs ++ creations xs, ops ++ operations xs, others ++ filter (λ i, ¬ known_opcode i) xs).
Proof.
  unfold creations, operations.
  induction xs as [|x xs IH]; intros cs ops others; simpl.
  - by rewrite !app_nil_r.
  - rewrite !filter_cons. case_decide as Hc.
    + rewrite IH, <- app_assoc. simpl.
      rewrite decide_True by done.
      rewrite decide_False by (by apply creation_not_operation).
      rewrite decide_False by (intros Hn; apply Hn; by left). done.
    + case_decide as Ho.
      * rewrite IH, <- app_assoc. simpl.
        rewrite decide_False by done.
        rewrite decide_True by done.
        rewrite decide_False by (intros Hn; apply Hn; by right). done.
      * rewrite IH, <- app_assoc. simpl.
        rewrite decide_False by done.
        rewrite decide_False by done.
        rewrite decide_True by (by intros [?|?]). done.
Qed.

Lemma bucket_cons n op ops :
  bucket n (op :: ops) =
  if decide (target op = n) then op :: bucket n ops else bucket n ops.
Proof. unfold bucket. by rewrite filter_cons. Qed.

Lemma bucket_operations_spec ops : ∀ m,
  Forall (λ op, is_Some (target op)) ops →
  ∃ m', bucket_operations ops m = Some m' ∧
    ∀ n, m' !! n = match bucket (Some n) ops with
                   | [] => m !! n
                   | l => Some (default [] (m !! n) ++ l)
                   end.
Proof.
  induction ops as [|op ops IH]; intros m Hs; simpl.
  - eauto.
  - apply Forall_cons_1 in Hs as [[e He] Hs]. unfold target in He. rewrite He. simpl.
    set (m1 := match m !! e with Some _ => m | None => <[e:=[]]> m end).
    assert (default [] (m1 !! e) = default [] (m !! e)) as Hd.
    { unfold m1. destruct (m !! e) eqn:Hm; [by rewrite Hm|]. by rewrite lookup_insert_eq. }
    assert (∀ n, n ≠ e → m1 !! n = m !! n) as Hne.
    { intros n Hn. unfold m1. destruct (m !! e); [done|]. by rewrite lookup_insert_ne. }
    destruct (IH (<[e := default [] (m1 !! e) ++ [op]]> m1) Hs) as (m' & -> & Hm').
    eexists; split; [done|]. intros n. rewrite Hm', bucket_cons.
    unfold target. rewrite He.
    destruct (decide (Some e = Some n)) as [Heq|Heq].
    + simplify_eq. rewrite lookup_insert_eq, Hd.
      destruct (bucket (Some n) ops); simpl; [done|]. by rewrite <- app_assoc.
    + rewrite lookup_insert_ne by congruence.
      rewrite Hne by congruence. done.
Qed.

Lemma emit_creations_spec m cs : ∀ acc P,
  Forall (λ c, is_Some (target c)) cs →
  ∃ P', emit_creations m cs acc P =
        Some (acc ++ (cs ≫= λ c, c :: default [] (target c ≫= (m !!.))), P') ∧
    ∀ n, n ∈ P' ↔ n ∈ P ∨ (Some n ∈ target <$> cs ∧ is_Some (m !! n)).
Proof.
  induction cs as [|c cs IH]; intros acc P Hs; simpl.
  - rewrite app_nil_r. eexists; split; [done|]. intros n. rewrite elem_of_nil. tauto.
  - apply Forall_cons_1 in Hs as [[e He] Hs]. rewrite He. unfold target in He.
    rewrite He. simpl. destruct (m !! e) as [l|] eqn:Hm.
    + destruct (IH ((acc ++ [c]) ++ l) ({[e]} ∪ P) Hs) as (P' & -> & HP').
      eexists; split.
      { simpl. by rewrite <- !app_assoc. }
      intros n. rewrite HP', elem_of_union, elem_of_singleton, elem_of_cons.
      split.
      * intros [[-> | ?] | [? ?]]; [|by left|by right; split; [right|]].
        right. split; [by left|]. by rewrite Hm.
      * intros [? | [[[= ->] | ?] ?]]; [by left; right|by left; left|by right].
    + destruct (IH (acc ++ [c]) P Hs) as (P' & -> & HP').
      eexists; split.
      { simpl. by rewrite <- !app_assoc. }
      intros n. rewrite HP', elem_of_cons.
      split.
      * intros [? | [? ?]]; [by left|by right; split; [right|]].
      * intros [? | [[Heq | ?] Hn]]; [by left| |by right].
        simplify_eq. rewrite Hm in Hn. by destruct Hn.
Qed.

Lemma emit_orphans_spec P ops : ∀ acc,
  Forall (λ op, is_Some (target op)) ops →
  emit_orphans P ops acc =
  Some (acc ++ filter (unprocessed P) ops).
Proof.
  induction ops as [|op ops IH]; intros acc Hs; simpl.
  - by rewrite app_nil_r.
  - apply Forall_cons_1 in Hs as [[e He] Hs]. rewrite filter_cons.
    pose proof He as He'. unfold target in He. rewrite He. simpl. case_decide as Hin.
    + rewrite decide_False by (unfold unprocessed; rewrite He'; intros Hn; by apply Hn).
      by apply IH.
    + rewrite decide_True by (unfold unprocessed; by rewrite He').
      rewrite IH by done. by rewrite <- app_assoc.
Qed.

(** On a sequence of known, well-shaped instructions the four loops of
    [_group_instructions] compute [grouped]. *)
Lemma group_instructions_spec xs :
  Forall shaped xs → Forall known_opcode xs →
  _group_instructions xs = Some (grouped xs).
Proof.
  intros Hs Hk. unfold _group_instructions.
  rewrite split_instructions_spec. simpl.
  rewrite (filter_none (λ i, ¬ known_opcode i))
    by (eapply Forall_impl; [exact Hk|]; intros x Hx Hn; done).
  assert (Forall (λ op, is_Some (target op)) (operations xs)) as Hops.
  { apply Forall_forall. intros op [Hop Hin]%list_elem_of_filter.
    rewrite Forall_forall in Hs. apply shaped_target; [by apply Hs|by right]. }
  assert (Forall (λ c, is_Some (target c)) (creations xs)) as Hcs.
  { apply Forall_forall. intros c [Hc Hin]%list_elem_of_filter.
    rewrite Forall_forall in Hs. apply shaped_target; [by apply Hs|by left]. }
  destruct (bucket_operations_spec (operations xs) ∅ Hops) as (m & -> & Hm). simpl.
  destruct (emit_creations_spec m (creations xs) [] ∅ Hcs) as (P & -> & HP). simpl.
  rewrite emit_orphans_spec by done. f_equal. unfold grouped.
  assert (∀ n, default [] (m !! n) = bucket (Some n) (operations xs)) as Hb.
  { intros n. rewrite Hm, lookup_empty. by destruct (bucket (Some n) (operations xs)). }
  f_equal.
  - apply Forall_bind_ext. eapply Forall_impl; [exact Hcs|].
    intros c [n Hn]. rewrite Hn. simpl. by rewrite Hb.
  - unfold orphans. apply filter_ext_elem. intros op Hop.
    rewrite Forall_forall in Hops. destruct (Hops op Hop) as [n Hn].
    unfold unprocessed. rewrite Hn, HP, elem_of_empty.
    assert (is_Some (m !! n)) as Hsome.
    { rewrite Hm. assert (op ∈ bucket (Some n) (operations xs)) as Hin
        by (by apply list_elem_of_filter).
      destruct (bucket (Some n) (operations xs)); [by apply elem_of_nil in Hin|done]. }
    tauto.
Qed.

(** An instruction of another opcode makes [_group_instructions] return its
    argument. *)
Lemma group_instructions_unknown xs :
  ¬ Forall known_opcode xs → _group_instructions xs = Some xs.
Proof.
  intros Hk. unfold _group_instructions.
  rewrite split_instructions_spec. simpl.
  destruct (filter (λ i, ¬ known_opcode i) xs) as [|y ys] eqn:Hf; [|done].
  exfalso. apply Hk, Forall_forall. intros x Hx.
  destruct (decide (known_opcode x)) as [|Hn]; [done|].
  assert (x ∈ filter (λ i, ¬ known_opcode i) xs) as Hin by (by apply list_elem_of_filter).
  rewrite Hf in Hin. by apply elem_of_nil in Hin.
Qed.

(** * [optimize_ir] as the composition of both phases *)

Lemma last_write_wins_sublist xs : last_write_wins xs `sublist_of` xs.
Proof.
  induction xs as [|x xs IH]; simpl; [done|].
  case_decide; [by apply sublist_cons | by apply sublist_skip].
Qed.

(** At every position: the instruction is dropped exactly when it is a
    SET_PROPERTY that is overwritten later; what is kept before it is kept in
    order, and what follows is treated on its own. *)
Lemma last_write_wins_at pre x post :
  ∃ pre', pre' `sublist_of` pre ∧
    last_write_wins (pre ++ x :: post) =
    pre' ++ (if decide (is_set x ∧ overwritten x post) then [] else [x])
         ++ last_write_wins post.
Proof.
  induction pre as [|p pre (pre' & Hsub & IH)].
  - exists []. split; [done|]. simpl. by case_decide.
  - simpl. destruct (decide (is_set p ∧ overwritten p (pre ++ x :: post))).
    + exists pre'. split; [by apply sublist_cons|done].
    + exists (p :: pre'). split; [by apply sublist_skip|]. by rewrite IH.
Qed.

Lemma last_write_wins_Forall (P : instr → Prop) xs :
  Forall P xs → Forall P (last_write_wins xs).
Proof.
  rewrite !Forall_forall. intros H x Hx. apply H.
  eapply elem_of_sublist; [done | apply last_write_wins_sublist].
Qed.

Lemma last_write_wins_keeps x xs :
  x ∈ xs → ¬ is_set x → x ∈ last_write_wins xs.
Proof.
  induction xs as [|y xs IH]; intros Hin Hx; [by apply elem_of_nil in Hin|].
  simpl. apply elem_of_cons in Hin as [-> | Hin].
  - rewrite decide_False by (by intros [? _]). by left.
  - case_decide; [by apply IH|]. right. by apply IH.
Qed.

Lemma last_write_wins_creations xs :
  creations (last_write_wins xs) = creations xs.
Proof.
  unfold creations. induction xs as [|x xs IH]; simpl; [done|].
  rewrite filter_cons. case_decide as Hd.
  - rewrite decide_False; [done|].
    destruct Hd as [Hs _]. unfold is_set in Hs. unfold is_creation. rewrite Hs.
    intros [?|?]; done.
  - rewrite filter_cons, IH. done.
Qed.

Lemma last_write_wins_unknown xs :
  ¬ Forall known_opcode xs → ¬ Forall known_opcode (last_write_wins xs).
Proof.
  intros Hn Hk. apply Hn, Forall_forall. intros x Hx.
  destruct (decide (is_set x)) as [Hs|Hs].
  - right. by left.
  - rewrite Forall_forall in Hk. apply Hk. by apply last_write_wins_keeps.
Qed.

Lemma last_write_wins_nil xs : last_write_wins xs = [] → xs = [].
Proof.
  induction xs as [|x xs IH]; simpl; [done|].
  case_decide as Hd; [|done]. intros Hnil. specialize (IH Hnil). subst.
  destruct Hd as [_ Hd]. by apply Exists_nil in Hd.
Qed.

Lemma optimize_ir_known xs :
  Forall shaped xs → Forall known_opcode xs →
  optimize_ir xs = Some (grouped (last_write_wins xs)).
Proof.
  intros Hs Hk. unfold optimize_ir. destruct xs as [|x xs]; [done|].
  rewrite remove_redundant_sets_spec by done. simpl option_bind.
  change (mbind _ (Some ?l)) with (_group_instructions l).
  apply group_instructions_spec; by apply last_write_wins_Forall.
Qed.

Lemma optimize_ir_unknown xs :
  Forall shaped xs → ¬ Forall known_opcode xs →
  optimize_ir xs = Some (last_write_wins xs).
Proof.
  intros Hs Hk. unfold optimize_ir. destruct xs as [|x xs].
  { exfalso. apply Hk. constructor. }
  rewrite remove_redundant_sets_spec by done.
  change (mbind _ (Some ?l)) with (_group_instructions l).
  by apply group_instructions_unknown, last_write_wins_unknown.
Qed.

(** * Algebra of [grouped] *)

Lemma filter_bind {A B} (P : B → Prop) `{∀ x, Decision (P x)} (f : A → list B) (l : list A) :
  filter P (l ≫= f) = l ≫= (λ x, filter P (f x)).
Proof.
  induction l as [|x l IH]; [done|]. by rewrite !bind_cons, filter_app, IH.
Qed.

Lemma bind_nil_Forall {A B} (f : A → list B) (l : list A) :
  Forall (λ x, f x = []) l → l ≫= f = [].
Proof. induction 1 as [|x l Hx _ IH]; [done|]. by rewrite bind_cons, Hx, IH. Qed.

Lemma filter_or_disjoint {A} (P Q : A → Prop)
    `{∀ x, Decision (P x)} `{∀ x, Decision (Q x)} (l : list A) :
  (∀ x, x ∈ l → P x → Q x → False) →
  filter (λ x, P x ∨ Q x) l ≡ₚ filter P l ++ filter Q l.
Proof.
  induction l as [|x l IH]; intros Hd; [done|].
  rewrite !filter_cons.
  assert (x ∈ x :: l) as Hx by (by left).
  specialize (IH (λ y Hy, Hd y (list_elem_of_further _ _ _ Hy))).
  destruct (decide (P x)) as [Hp|Hp], (decide (Q x)) as [Hq|Hq].
  - destruct (Hd x Hx Hp Hq).
  - rewrite decide_True by (by left). simpl. by rewrite IH.
  - rewrite decide_True by (by right). rewrite IH. apply Permutation_middle.
  - rewrite decide_False by (by intros [?|?]). done.
Qed.

Lemma bucket_length_0 n cs :
  length (bucket n cs) = 0%nat → n ∉ target <$> cs.
Proof.
  intros Hl (c & -> & Hc)%list_elem_of_fmap.
  assert (c ∈ bucket (target c) cs) as Hin by (by apply list_elem_of_filter).
  destruct (bucket (target c) cs); [by apply elem_of_nil in Hin | done].
Qed.

Lemma once_cons_inv c cs ops :
  once (c :: cs) ops →
  once cs ops ∧ ∀ op, op ∈ ops → target op = target c → target op ∉ target <$> cs.
Proof.
  unfold once. rewrite !Forall_forall. intros H. split.
  - intros op Hop. specialize (H op Hop). rewrite bucket_cons in H.
    case_decide; simpl in H; lia.
  - intros op Hop Heq. specialize (H op Hop). rewrite bucket_cons in H.
    rewrite decide_True in H by done. simpl in H.
    apply bucket_length_0. lia.
Qed.

Lemma distinct_creations_once xs : distinct_creations xs → created_once xs.
Proof.
  unfold distinct_creations, created_once, once. generalize (operations xs) as ops.
  setoid_rewrite Forall_forall.
  induction (creations xs) as [|c cs IH]; intros ops Hnd op Hop; [simpl; lia|].
  rewrite fmap_cons in Hnd. apply NoDup_cons in Hnd as [Hc Hnd].
  rewrite bucket_cons. case_decide as Heq.
  - simpl. destruct (bucket (target op) cs) as [|c' l] eqn:Hb; [simpl; lia|].
    exfalso. apply Hc. rewrite Heq.
    assert (c' ∈ bucket (target op) cs) as [Hc' Hin]%list_elem_of_filter
      by (rewrite Hb; by left).
    apply list_elem_of_fmap. eauto.
  - by apply (IH ops).
Qed.

(** The buckets of the creations together hold exactly the operations on
    created entities. *)
Lemma buckets_Permutation cs ops :
  once cs ops →
  (cs ≫= λ c, bucket (target c) ops) ≡ₚ filter (λ op, target op ∈ target <$> cs) ops.
Proof.
  induction cs as [|c cs IH]; intros Hon.
  - rewrite filter_none; [done|].
    apply Forall_forall. intros op _ Hin. by apply elem_of_nil in Hin.
  - apply once_cons_inv in Hon as [Hon Hc].
    rewrite bind_cons, (IH Hon). cbv beta.
    change (bucket (target c) ops) with (filter (λ op, target op = target c) ops).
    rewrite <- (filter_or_disjoint (λ op, target op = target c)
                  (λ op, target op ∈ target <$> cs))
      by (intros op Hop Heq Hin; by apply (Hc op Hop Heq)).
    erewrite filter_ext_elem; [done|].
    intros op _. simpl. rewrite elem_of_cons. done.
Qed.

Lemma interleave_Permutation (cs : list instr) (f : instr → list instr) :
  (cs ≫= λ c, c :: f c) ≡ₚ cs ++ (cs ≫= f).
Proof.
  induction cs as [|c cs IH]; [done|].
  rewrite !bind_cons. simpl. f_equiv. rewrite IH.
  rewrite !app_assoc. f_equiv. apply Permutation_app_comm.
Qed.

Lemma known_split_Permutation xs :
  Forall known_opcode xs → xs ≡ₚ creations xs ++ operations xs.
Proof.
  intros Hk. unfold creations, operations.
  rewrite <- (filter_app_complement is_creation xs) at 1. f_equiv.
  erewrite filter_ext_elem; [done|]. intros x Hx. rewrite Forall_forall in Hk.
  split.
  - intros Hn. by destruct (Hk x Hx).
  - intros Ho Hc. by apply (creation_not_operation x).
Qed.

(** Grouping reorders: it neither drops nor repeats an instruction, as long
    as no targeted entity is created twice. *)
Lemma grouped_Permutation xs :
  Forall known_opcode xs → created_once xs → grouped xs ≡ₚ xs.
Proof.
  intros Hk Hon. unfold grouped.
  rewrite interleave_Permutation, <- app_assoc.
  rewrite (buckets_Permutation _ _ Hon). unfold orphans.
  rewrite (filter_app_complement (λ op, target op ∈ target <$> creations xs)).
  symmetry. by apply known_split_Permutation.
Qed.

Lemma bucket_bucket n n' ops :
  bucket n (bucket n' ops) = if decide (n = n') then bucket n ops else [].
Proof.
  induction ops as [|op ops IH]; [by case_decide|].
  rewrite (bucket_cons n'). destruct (decide (target op = n')) as [Hn'|Hn'].
  - rewrite !bucket_cons, IH. subst n'.
    destruct (decide (n = target op)) as [->|Hn].
    + by rewrite decide_True.
    + by rewrite decide_False.
  - rewrite IH. case_decide as Hn; [|done]. subst n'.
    by rewrite bucket_cons, decide_False.
Qed.

Lemma bucket_buckets n cs ops :
  once cs ops → n ∈ target <$> cs →
  (cs ≫= λ c, bucket n (bucket (target c) ops)) = bucket n ops.
Proof.
  induction cs as [|c cs IH]; intros Hon Hn; [by apply elem_of_nil in Hn|].
  apply once_cons_inv in Hon as [Hon Hc].
  rewrite bind_cons, bucket_bucket. case_decide as Heq.
  - rewrite bind_nil_Forall; [by rewrite app_nil_r|].
    apply Forall_forall. intros c' Hc'. rewrite bucket_bucket.
    case_decide as Heq'; [|done].
    destruct (bucket n ops) as [|op l] eqn:Hb; [done|]. exfalso.
    assert (op ∈ bucket n ops) as [Hop Hin]%list_elem_of_filter by (rewrite Hb; by left).
    apply (Hc op Hin); [congruence|].
    rewrite Hop, Heq'. apply list_elem_of_fmap. eauto.
  - rewrite fmap_cons in Hn. apply elem_of_cons in Hn as [Hn|Hn]; [done|].
    simpl. by apply IH.
Qed.

Lemma bucket_in n op ops : op ∈ bucket n ops ↔ target op = n ∧ op ∈ ops.
Proof. unfold bucket. by rewrite list_elem_of_filter. Qed.

Lemma bucket_app n l1 l2 : bucket n (l1 ++ l2) = bucket n l1 ++ bucket n l2.
Proof. apply filter_app. Qed.

Lemma bucket_bind n (f : instr → list instr) l :
  bucket n (l ≫= f) = l ≫= λ x, bucket n (f x).
Proof. apply filter_bind. Qed.

Lemma bucket_none n l : Forall (λ op, target op ≠ n) l → bucket n l = [].
Proof. apply filter_none. Qed.

Lemma creations_grouped xs : creations (grouped xs) = creations xs.
Proof.
  unfold grouped, creations at 1. rewrite filter_app, filter_bind.
  rewrite (filter_none is_creation (orphans _ _)).
  2:{ apply Forall_forall. intros op [_ [Ho _]%list_elem_of_filter]%list_elem_of_filter.
      intros Hc. by apply (creation_not_operation op). }
  rewrite app_nil_r.
  transitivity (creations xs ≫= λ c, [c]).
  - apply Forall_bind_ext, Forall_forall.
    intros c [Hc _]%list_elem_of_filter. rewrite filter_cons_True by done.
    f_equal. apply filter_none, Forall_forall.
    intros op [_ [Ho _]%list_elem_of_filter]%bucket_in Hc'.
    by apply (creation_not_operation op).
  - induction (creations xs) as [|c cs IH]; [done|]. rewrite bind_cons, IH. done.
Qed.

Lemma operations_grouped xs :
  operations (grouped xs) =
  (creations xs ≫= λ c, bucket (target c) (operations xs))
  ++ orphans (creations xs) (operations xs).
Proof.
  unfold grouped, operations at 1. rewrite filter_app, filter_bind. f_equal.
  - apply Forall_bind_ext, Forall_forall.
    intros c [Hc _]%list_elem_of_filter.
    rewrite filter_cons_False by (by apply creation_not_operation).
    apply filter_all, Forall_forall.
    by intros op [_ [Ho _]%list_elem_of_filter]%bucket_in.
  - apply filter_all, Forall_forall.
    by intros op [_ [Ho _]%list_elem_of_filter]%list_elem_of_filter.
Qed.

(** Grouping what is already grouped changes nothing. *)
Lemma grouped_idempotent xs :
  created_once xs → grouped (grouped xs) = grouped xs.
Proof.
  intros Hon. unfold grouped at 1.
  rewrite creations_grouped, operations_grouped. unfold grouped. f_equal.
  - apply Forall_bind_ext, Forall_forall. intros c Hc. f_equal.
    rewrite bucket_app, bucket_bind.
    rewrite (bucket_buckets _ _ _ Hon) by (apply list_elem_of_fmap; eauto).
    rewrite (bucket_none _ (orphans _ _)); [by rewrite app_nil_r|].
    apply Forall_forall. intros op [Hn _]%list_elem_of_filter Heq.
    apply Hn. rewrite Heq. apply list_elem_of_fmap. eauto.
  - unfold orphans at 1. rewrite filter_app, filter_bind.
    rewrite bind_nil_Forall.
    + simpl. apply filter_all, Forall_forall.
      by intros op [Hn _]%list_elem_of_filter.
    + apply Forall_forall. intros c Hc. apply filter_none, Forall_forall.
      intros op [Ht _]%bucket_in Hn. apply Hn. rewrite Ht.
      apply list_elem_of_fmap. eauto.
Qed.

(** ** Written pairs *)

Lemma set_keys_cons x xs :
  set_keys (x :: xs) =
  if decide (is_set x) then (args x !! 0%nat, args x !! 1%nat) :: set_keys xs
  else set_keys xs.
Proof. unfold set_keys. rewrite filter_cons. by case_decide. Qed.

Lemma overwritten_set_keys x later :
  overwritten x later ↔ (args x !! 0%nat, args x !! 1%nat) ∈ set_keys later.
Proof.
  unfold overwritten, set_keys. rewrite Exists_exists, list_elem_of_fmap.
  split.
  - intros (y & Hy & Hs & [H0 H1]). exists y. rewrite H0, H1.
    split; [done|]. by apply list_elem_of_filter.
  - intros (y & Heq & [Hs Hy]%list_elem_of_filter). exists y.
    split; [done|]. split; [done|]. unfold same_pair. by simplify_eq.
Qed.

Lemma set_keys_last_write_wins_subseteq xs :
  set_keys (last_write_wins xs) ⊆ set_keys xs.
Proof.
  intros k (y & -> & [Hs Hy]%list_elem_of_filter)%list_elem_of_fmap.
  apply list_elem_of_fmap. exists y. split; [done|].
  apply list_elem_of_filter. split; [done|].
  eapply elem_of_sublist; [done | apply last_write_wins_sublist].
Qed.

(** After phase 1 no pair is written twice. *)
Lemma last_write_wins_NoDup xs : NoDup (set_keys (last_write_wins xs)).
Proof.
  induction xs as [|x xs IH]; simpl; [constructor|].
  case_decide as Hd; [done|]. rewrite set_keys_cons. case_decide as Hs; [|done].
  constructor; [|done]. intros Hin%set_keys_last_write_wins_subseteq.
  apply Hd. split; [done|]. by apply overwritten_set_keys.
Qed.

(** Phase 1 leaves a sequence without repeated pairs as it is. *)
Lemma last_write_wins_id xs : NoDup (set_keys xs) → last_write_wins xs = xs.
Proof.
  induction xs as [|x xs IH]; intros Hnd; simpl; [done|].
  rewrite set_keys_cons in Hnd.
  destruct (decide (is_set x ∧ overwritten x xs)) as [[Hs Ho]|Hd].
  - exfalso. rewrite decide_True in Hnd by done.
    apply NoDup_cons in Hnd as [Hn _]. by apply Hn, overwritten_set_keys.
  - f_equal. apply IH.
    destruct (decide (is_set x)); [by apply NoDup_cons in Hnd as [_ ?]|done].
Qed.

Lemma last_write_wins_idempotent xs :
  last_write_wins (last_write_wins xs) = last_write_wins xs.
Proof. apply last_write_wins_id, last_write_wins_NoDup. Qed.

#[global] Instance set_keys_Permutation : Proper ((≡ₚ) ==> (≡ₚ)) set_keys.
Proof. intros xs ys Hp. unfold set_keys. by rewrite Hp. Qed.

Lemma operations_last_write_wins op xs :
  op ∈ operations (last_write_wins xs) → op ∈ operations xs.
Proof.
  intros [Ho Hin]%list_elem_of_filter. apply list_elem_of_filter. split; [done|].
  eapply elem_of_sublist; [done | apply last_write_wins_sublist].
Qed.

Lemma created_once_last_write_wins xs :
  created_once xs → created_once (last_write_wins xs).
Proof.
  unfold created_once, once. rewrite last_write_wins_creations, !Forall_forall.
  intros Hon op Hop. by apply Hon, operations_last_write_wins.
Qed.

(** * Replay of the emitted program *)

Import Codegen.

Lemma exec_app l1 l2 env : exec (l1 ++ l2) env = exec l1 env ≫= exec l2.
Proof.
  revert env. induction l1 as [|s l1 IH]; intros env; simpl; [done|].
  destruct (exec_stmt s env) as [env'|]; simpl; [apply IH | done].
Qed.

Lemma emit_instr_shaped x : shaped x → is_Some (emit_instr x).
Proof.
  intros (Hc & Hs & Ha). unfold emit_instr.
  repeat case_decide; try done.
  - specialize (Hc ltac:(by left)).
    destruct (args x) as [|? [|]]; by simplify_eq/=.
  - specialize (Hs ltac:(done)).
    destruct (args x) as [|? [|? [|? [|? [|]]]]]; by simplify_eq/=.
  - specialize (Hc ltac:(by right)).
    destruct (args x) as [|? [|]]; by simplify_eq/=.
  - specialize (Ha ltac:(done)).
    destruct (args x) as [|? [|? [|? [|]]]]; by simplify_eq/=.
Qed.

Lemma emit_loop_run xs : ∀ code env,
  Forall shaped xs →
  emit_loop xs code ≫= (λ code', exec code' env) = exec code env ≫= run xs.
Proof.
  induction xs as [|x xs IH]; intros code env Hs; simpl.
  - by destruct (exec code env).
  - apply Forall_cons in Hs as [Hx Hs].
    destruct (emit_instr_shaped x Hx) as [lines Hl]. unfold run_instr. rewrite Hl. simpl.
    rewrite IH by done. rewrite exec_app.
    destruct (exec code env); done.
Qed.

(** Replaying a well-shaped sequence runs its instructions one by one. *)
Lemma replay_run xs : Forall shaped xs → replay xs = run xs ∅.
Proof.
  intros Hs. unfold replay, generate_python_from_ir.
  by rewrite (emit_loop_run xs _ ∅ Hs).
Qed.

(** An instruction reads and rebinds the variable of its entity only. *)
Lemma run_instr_effect x n env :
  shaped x → known_opcode x → target x = Some n →
  run_instr x env = (λ o, <[n := o]> env) <$> instr_effect x (env !! n).
Proof.
  intros (Hc & Hs & Ha) Hk Hn. unfold run_instr, emit_instr, instr_effect, target in *.
  repeat case_decide.
  all: try (exfalso; destruct Hk as [[?|?]|[?|?]]; congruence).
  all: try specialize (Hs ltac:(done)); try specialize (Ha ltac:(done)).
  all: destruct (args x) as [|a0 [|a1 [|a2 [|a3 [|a4 l]]]]]; simplify_eq/=; try done.
  all: destruct (env !! n) as [[]|]; done.
Qed.

Lemma run1_app l1 l2 o : run1 (l1 ++ l2) o = run1 l1 o ≫= run1 l2.
Proof.
  revert o. induction l1 as [|x l1 IH]; intros o; simpl; [done|].
  destruct (instr_effect x o); simpl; [apply IH | done].
Qed.

(** The final binding of a variable is the result of the instructions on its
    entity alone, and the run fails only if the instructions on some entity
    fail. *)
Lemma run_local xs : ∀ env,
  Forall shaped xs → Forall known_opcode xs →
  match run xs env with
  | Some env' => ∀ n, run1 (bucket (Some n) xs) (env !! n) = Some (env' !! n)
  | None => ∃ n, run1 (bucket (Some n) xs) (env !! n) = None
  end.
Proof.
  induction xs as [|x xs IH]; intros env Hs Hk; simpl; [done|].
  apply Forall_cons in Hs as [Hx Hs]. apply Forall_cons in Hk as [Hkx Hk].
  destruct (shaped_target x Hx Hkx) as [m Hm].
  rewrite (run_instr_effect x m env Hx Hkx Hm).
  destruct (instr_effect x (env !! m)) as [o|] eqn:Ho; simpl.
  - specialize (IH (<[m := o]> env) Hs Hk).
    destruct (run xs (<[m := o]> env)) as [env'|].
    + intros n. rewrite bucket_cons, <- (IH n). rewrite Hm.
      destruct (decide (Some m = Some n)) as [[= ->]|Hne].
      * simpl. by rewrite Ho, lookup_insert_eq.
      * by rewrite lookup_insert_ne by congruence.
    + destruct IH as [n Hn]. exists n. rewrite bucket_cons, Hm.
      destruct (decide (Some m = Some n)) as [[= ->]|Hne].
      * simpl. by rewrite Ho, <- Hn, lookup_insert_eq.
      * by rewrite <- Hn, lookup_insert_ne by congruence.
  - exists m. rewrite bucket_cons, Hm, decide_True by done. simpl. by rewrite Ho.
Qed.

(** Two sequences with the same effect on every single variable have the
    same effect. *)
Lemma run_ext xs ys env :
  Forall shaped xs → Forall known_opcode xs →
  Forall shaped ys → Forall known_opcode ys →
  (∀ n, run1 (bucket (Some n) xs) (env !! n) = run1 (bucket (Some n) ys) (env !! n)) →
  run xs env = run ys env.
Proof.
  intros Hsx Hkx Hsy Hky Heq.
  pose proof (run_local xs env Hsx Hkx) as Hx.
  pose proof (run_local ys env Hsy Hky) as Hy.
  destruct (run xs env) as [e1|], (run ys env) as [e2|]; try done.
  - f_equal. apply map_eq. intros n. apply (inj Some).
    by rewrite <- (Hx n), <- (Hy n).
  - destruct Hy as [n Hn]. specialize (Hx n). congruence.
  - destruct Hx as [n Hn]. specialize (Hy n). congruence.
Qed.

(** ** The instructions on one entity, before and after optimization *)

Lemma bucket_not_created n cs : n ∉ target <$> cs → bucket n cs = [].
Proof.
  intros Hn. apply bucket_none, Forall_forall. intros c Hc Heq.
  apply Hn. rewrite <- Heq. apply list_elem_of_fmap. eauto.
Qed.

Lemma bucket_interleaved n cs ops :
  once cs ops →
  bucket n (cs ≫= λ c, c :: bucket (target c) ops) =
  bucket n cs ++ (if decide (n ∈ target <$> cs) then bucket n ops else []).
Proof.
  induction cs as [|c cs IH]; intros Hon.
  - rewrite decide_False by apply not_elem_of_nil. done.
  - apply once_cons_inv in Hon as [Hon Hc].
    rewrite bind_cons, bucket_app, (IH Hon), !(bucket_cons _ c), bucket_bucket.
    rewrite fmap_cons.
    destruct (decide (target c = n)) as [Heq|Hne].
    + rewrite (decide_True (P := n = target c)) by done.
      rewrite (decide_True (P := n ∈ _ :: _)) by (rewrite <- Heq; by left).
      destruct (bucket n ops) as [|op l] eqn:Hb.
      { by destruct (decide (n ∈ target <$> cs)). }
      assert (n ∉ target <$> cs) as Hn.
      { assert (op ∈ bucket n ops) as [Hop Hin]%bucket_in by (rewrite Hb; by left).
        rewrite <- Hop. apply (Hc op Hin). congruence. }
      rewrite (bucket_not_created n cs Hn), decide_False by done.
      simpl. by rewrite app_nil_r.
    + rewrite (decide_False (P := n = target c)) by congruence.
      simpl. f_equal. destruct (decide (n ∈ target <$> cs)) as [Hin|Hin].
      * by rewrite decide_True by (by right).
      * rewrite decide_False; [done|]. intros [?|?]%elem_of_cons; [congruence|done].
Qed.

Lemma bucket_orphans n cs ops :
  bucket n (orphans cs ops) =
  if decide (n ∈ target <$> cs) then [] else bucket n ops.
Proof.
  case_decide as Hn.
  - apply bucket_none, Forall_forall. intros op [Ho _]%list_elem_of_filter Heq.
    apply Ho. by rewrite Heq.
  - unfold bucket, orphans. rewrite list_filter_filter.
    apply filter_ext_elem. intros op _. split; [by intros [? _]|].
    intros Heq. split; [done|]. by rewrite Heq.
Qed.

(** After grouping, the instructions on an entity are its creations followed
    by its operations. *)
Lemma bucket_grouped n xs :
  created_once xs →
  bucket n (grouped xs) = bucket n (creations xs) ++ bucket n (operations xs).
Proof.
  intros Hon. unfold grouped.
  rewrite bucket_app, bucket_interleaved, bucket_orphans by done.
  destruct (decide (n ∈ target <$> creations xs)) as [Hn|Hn].
  - by rewrite <- app_assoc, app_nil_r.
  - by rewrite app_nil_r, (bucket_not_created n _ Hn).
Qed.

(** In a sequence whose creations are distinct and precede the operations
    on their entity, the instructions on an entity are its creation followed
    by its operations already. *)
Lemma bucket_original n xs : ∀ seen,
  Forall known_opcode xs → created_before_from seen xs →
  NoDup (target <$> creations xs) → n ∉ seen →
  bucket n xs = bucket n (creations xs) ++ bucket n (operations xs).
Proof.
  unfold creations, operations.
  induction xs as [|x xs IH]; intros seen Hk Hcb Hnd Hn; [done|].
  apply Forall_cons in Hk as [Hkx Hk]. destruct Hcb as [Hop Hcb].
  rewrite !filter_cons in *. rewrite (bucket_cons n x).
  destruct (decide (is_creation x)) as [Hc|Hc].
  - rewrite (decide_False (P := is_operation x)) by (by apply creation_not_operation).
    rewrite fmap_cons in Hnd. apply NoDup_cons in Hnd as [Hx Hnd].
    rewrite (bucket_cons n x). destruct (decide (target x = n)) as [Heq|Hne].
    + subst n. rewrite (bucket_not_created _ _ Hx). simpl. f_equal.
      unfold bucket. rewrite list_filter_filter. apply filter_ext_elem.
      intros y Hy. split; [|by intros [? _]]. intros Ht. split; [done|].
      rewrite Forall_forall in Hk. destruct (Hk y Hy) as [Hyc|Hyo]; [|done].
      exfalso. apply Hx. rewrite <- Ht. apply list_elem_of_fmap. exists y.
      split; [done|]. by apply list_elem_of_filter.
    + apply (IH (target x :: seen)); try done.
      intros [?|?]%elem_of_cons; [congruence|done].
  - destruct Hkx as [?|Ho]; [done|]. rewrite (decide_True (P := is_operation x)) by done.
    rewrite (bucket_cons n x). destruct (decide (target x = n)) as [Heq|Hne].
    + exfalso. apply Hn. rewrite <- Heq. by apply Hop.
    + by apply (IH seen).
Qed.

(** Phase 1 commutes with the selection of the writes of one entity. *)
Lemma last_write_wins_filter (F : instr → Prop) `{∀ x, Decision (F x)} xs :
  (∀ x y, is_set x → is_set y → same_pair x y → F x → F y) →
  filter F (last_write_wins xs) = last_write_wins (filter F xs).
Proof.
  intros HF. induction xs as [|x xs IH]; [done|].
  rewrite filter_cons. simpl. destruct (decide (F x)) as [Hx|Hx].
  - simpl.
    assert (is_set x → overwritten x xs ↔ overwritten x (filter F xs)) as Hov.
    { intros Hs. unfold overwritten. rewrite !Exists_exists. split.
      - intros (y & Hy & Hys & Hp). exists y. split; [|done].
        apply list_elem_of_filter. split; [by apply (HF x y)|done].
      - intros (y & [_ Hy]%list_elem_of_filter & Hys & Hp). eauto. }
    destruct (decide (is_set x ∧ overwritten x xs)) as [[Hs Ho]|Hd].
    + rewrite decide_True by (split; [done|]; by apply Hov). done.
    + rewrite decide_False by (intros [Hs Ho]; apply Hd; split; [done|]; by apply Hov).
      by rewrite filter_cons_True, IH.
  - case_decide; [done|]. by rewrite filter_cons_False.
Qed.

Lemma bucket_operations_last_write_wins n xs :
  bucket n (operations (last_write_wins xs)) =
  last_write_wins (bucket n (operations xs)).
Proof.
  unfold bucket, operations.
  rewrite (last_write_wins_filter is_operation) by (intros x y _ Hy _ _; by left).
  apply last_write_wins_filter.
  intros x y _ _ [H0 _] Hx. unfold target. by rewrite <- H0.
Qed.

Lemma instr_effect_set x o :
  is_set x →
  instr_effect x o =
  match args x, o with
  | [_; clave; tipo; valor], Some (PyDict items) =>
      Some (PyDict (<[clave := format_value valor tipo]> items))
  | _, _ => None
  end.
Proof.
  unfold is_set, instr_effect. intros Hx.
  repeat case_decide; try done; rewrite Hx in *; done.
Qed.

Lemma instr_effect_append x o :
  is_append x →
  instr_effect x o =
  match args x, o with
  | [_; tipo; valor], Some (PyList items) =>
      Some (PyList (items ++ [format_value valor tipo]))
  | _, _ => None
  end.
Proof.
  unfold is_append, instr_effect. intros Hx.
  repeat case_decide; try done; rewrite Hx in *; done.
Qed.

(** A pair that is written again later leaves no trace in the dict. *)
Lemma run1_overwritten k lit ops : ∀ d,
  Forall shaped ops → Forall is_operation ops →
  Exists (λ y, is_set y ∧ args y !! 1%nat = Some k) ops →
  run1 ops (Some (PyDict (<[k := lit]> d))) = run1 ops (Some (PyDict d)).
Proof.
  induction ops as [|y ops IH]; intros d Hs Ho Hex; [by apply Exists_nil in Hex|].
  apply Forall_cons in Hs as [(_ & Hys & Hya) Hs]. apply Forall_cons in Ho as [Hyo Ho].
  simpl. destruct Hyo as [Hy|Hy].
  - rewrite !instr_effect_set by done. specialize (Hys Hy).
    destruct (args y) as [|a [|k' [|t [|v [|]]]]] eqn:Hargs; simplify_eq/=.
    destruct (decide (k' = k)) as [->|Hne].
    + by rewrite insert_insert_eq.
    + rewrite insert_insert_ne by congruence. apply IH; [done..|].
      apply Exists_cons in Hex as [[_ Hk]|Hex]; [|done].
      rewrite Hargs in Hk. by simplify_eq/=.
  - rewrite !instr_effect_append by done.
    specialize (Hya Hy). destruct (args y) as [|a [|t [|v [|]]]]; by simplify_eq/=.
Qed.

(** A SET_PROPERTY on a variable that holds no dict raises, whatever appends
    come before it. *)
Lemma run1_set_fails ops : ∀ o,
  Forall shaped ops → Forall is_operation ops → Exists is_set ops →
  (∀ d, o ≠ Some (PyDict d)) →
  run1 ops o = None.
Proof.
  induction ops as [|y ops IH]; intros o Hs Ho Hex Hno; [by apply Exists_nil in Hex|].
  apply Forall_cons in Hs as [(_ & Hys & Hya) Hs]. apply Forall_cons in Ho as [Hyo Ho].
  simpl. destruct Hyo as [Hy|Hy].
  - rewrite instr_effect_set by done. specialize (Hys Hy).
    destruct (args y) as [|a [|k' [|t [|v [|]]]]]; simplify_eq/=.
    destruct o as [[d|l]|]; try done. by destruct (Hno d).
  - rewrite instr_effect_append by done.
    specialize (Hya Hy). destruct (args y) as [|a [|t [|v [|]]]]; simplify_eq/=.
    destruct o as [[d|l]|]; try done. simpl. apply IH; try done.
    apply Exists_cons in Hex as [Hset|Hex]; [|done].
    unfold is_set, is_append in *. rewrite Hy in Hset. done.
Qed.

(** Dropping the overwritten writes of an entity does not change what its
    operations do to its variable. *)
Lemma run1_last_write_wins ops : ∀ o,
  Forall shaped ops → Forall is_operation ops →
  run1 (last_write_wins ops) o = run1 ops o.
Proof.
  induction ops as [|x ops IH]; intros o Hs Ho; [done|].
  pose proof Hs as Hs'. pose proof Ho as Ho'.
  apply Forall_cons in Hs' as [Hx Hs']. apply Forall_cons in Ho' as [Hxo Ho'].
  simpl. destruct (decide (is_set x ∧ overwritten x ops)) as [[Hset Hov]|Hd].
  - rewrite IH by done.
    destruct (shaped_set_key x Hx Hset) as (a & k & Ha & Hk).
    assert (Exists (λ y, is_set y ∧ args y !! 1%nat = Some k) ops) as Hex.
    { eapply Exists_impl; [exact Hov|]. intros y [Hy [_ H1]]. split; [done|congruence]. }
    assert (Exists is_set ops) as Hex'.
    { eapply Exists_impl; [exact Hov|]. by intros y [Hy _]. }
    destruct Hx as (_ & Hxs & _). specialize (Hxs Hset).
    rewrite instr_effect_set by done.
    destruct (args x) as [|a' [|k' [|t [|v [|]]]]]; simplify_eq/=.
    destruct o as [[d|l]|]; simpl.
    + symmetry. by apply run1_overwritten.
    + by apply run1_set_fails.
    + by apply run1_set_fails.
  - simpl. destruct (instr_effect x o); simpl; [by apply IH | done].
Qed.

(** The optimized sequence runs like the sequence itself. *)
Lemma run_optimized xs :
  Forall shaped xs → Forall known_opcode xs →
  distinct_creations xs → created_before xs →
  run (grouped (last_write_wins xs)) ∅ = run xs ∅.
Proof.
  intros Hs Hk Hnd Hcb.
  pose proof (created_once_last_write_wins xs (distinct_creations_once xs Hnd)) as Hon.
  assert (grouped (last_write_wins xs) ≡ₚ last_write_wins xs) as Hp
    by (apply grouped_Permutation; [by apply last_write_wins_Forall | done]).
  apply run_ext; try done.
  { rewrite Hp. by apply last_write_wins_Forall. }
  { rewrite Hp. by apply last_write_wins_Forall. }
  intros n. rewrite lookup_empty.
  rewrite (bucket_grouped _ _ Hon), last_write_wins_creations.
  rewrite bucket_operations_last_write_wins.
  rewrite (bucket_original (Some n) xs [] Hk Hcb Hnd) by apply not_elem_of_nil.
  rewrite !run1_app.
  destruct (run1 (bucket (Some n) (creations xs)) None) as [o|]; simpl; [|done].
  apply run1_last_write_wins.
  - apply Forall_forall. intros y [_ [_ Hy]%list_elem_of_filter]%bucket_in.
    rewrite Forall_forall in Hs. by apply Hs.
  - apply Forall_forall. by intros y [_ [Hy _]%list_elem_of_filter]%bucket_in.
Qed.

(** * Claims about the optimizer *)

(** Closed decidable facts are settled by evaluation. *)
Ltac by_decide := refine (bool_decide_unpack _ _); vm_compute; exact I.

Lemma filter_not_set_last_write_wins xs :
  filter (λ i, ¬ is_set i) (last_write_wins xs) = filter (λ i, ¬ is_set i) xs.
Proof.
  induction xs as [|x xs IH]; simpl; [done|].
  case_decide as Hd.
  - destruct Hd as [Hs _]. rewrite filter_cons_False by (intros Hn; by apply Hn). done.
  - by rewrite !filter_cons, IH.
Qed.

(** The sequences of [tests/test_optimizer.py]. *)
Example test_identity_empty : optimize_ir [] = Some [].
Proof. reflexivity. Qed.

Example test_identity_no_optimization :
  let ir := [CO "obj1"; SP "obj1" "prop1" "NUMBER" (VInt 1);
             CL "list1"; AL "list1" "STRING" (VStr "val1")] in
  optimize_ir ir = Some ir.
Proof. vm_compute. reflexivity. Qed.

Example test_redundancy_elimination :
  optimize_ir ex_redundancy
  = Some [CO "user"; SP "user" "name" "STRING" (VStr "Pedro")].
Proof. vm_compute. reflexivity. Qed.

(** C2. Phase 1 keeps every instruction that is not a SET_PROPERTY and keeps
    a SET_PROPERTY exactly when no later SET_PROPERTY writes the same
    (objectName, key) pair, everything in its original relative position;
    on [CREATE_OBJECT o, SET_PROPERTY(o,k,_,1), SET_PROPERTY(o,k,_,2)] the
    optimizer returns [CREATE_OBJECT o, SET_PROPERTY(o,k,_,2)]. *)
Theorem C2_last_write_wins (xs : list instr) (t1 t2 : value) :
  Forall shaped xs →
  _remove_redundant_sets xs = Some (last_write_wins xs) ∧
  (∀ pre x post, xs = pre ++ x :: post →
     ∃ pre', pre' `sublist_of` pre ∧
       last_write_wins xs =
       pre' ++ (if decide (is_set x ∧ overwritten x post) then [] else [x])
            ++ last_write_wins post) ∧
  last_write_wins xs `sublist_of` xs ∧
  filter (λ i, ¬ is_set i) (last_write_wins xs) = filter (λ i, ¬ is_set i) xs ∧
  optimize_ir
    [ Instr IR_CREATE_OBJECT [VStr "o"];
      Instr IR_SET_PROPERTY [VStr "o"; VStr "k"; t1; VInt 1];
      Instr IR_SET_PROPERTY [VStr "o"; VStr "k"; t2; VInt 2] ]
  = Some [ Instr IR_CREATE_OBJECT [VStr "o"];
           Instr IR_SET_PROPERTY [VStr "o"; VStr "k"; t2; VInt 2] ].
Proof.
  intros Hs. split; [by apply remove_redundant_sets_spec|].
  split; [intros pre x post ->; apply last_write_wins_at|].
  split; [apply last_write_wins_sublist|].
  split; [apply filter_not_set_last_write_wins|].
  vm_compute. reflexivity.
Qed.

Lemma C2_last_write_wins_witness :
  Forall shaped ex_redundancy ∧
  _remove_redundant_sets ex_redundancy
  = Some [CO "user"; SP "user" "name" "STRING" (VStr "Pedro")].
Proof.
  split.
  - by_decide.
  - exact (proj1 (C2_last_write_wins ex_redundancy VNone VNone ltac:(by_decide))).
Defined.

(** C3. On a sequence of known opcodes the optimizer lists the creations in
    their original order, each immediately followed by all surviving
    operations on its entity in their original relative order (operations on
    entities that are never created come last); on the interleaved
    A/B sequence it returns A, A.x, A.z, B, B.y. *)
Theorem C3_grouping_order (xs : list instr) :
  Forall shaped xs → Forall known_opcode xs →
  optimize_ir xs =
    Some ((creations xs ≫= λ c, c :: bucket (target c) (operations (last_write_wins xs)))
          ++ orphans (creations xs) (operations (last_write_wins xs))) ∧
  optimize_ir ex_interleaved =
    Some [CO "A"; SP "A" "x" "NUMBER" (VInt 1); SP "A" "z" "NUMBER" (VInt 3);
          CO "B"; SP "B" "y" "NUMBER" (VInt 2)].
Proof.
  intros Hs Hk. split; [|vm_compute; reflexivity].
  rewrite optimize_ir_known by done. unfold grouped.
  by rewrite last_write_wins_creations.
Qed.

Lemma C3_grouping_order_witness :
  Forall shaped ex_semantics ∧ Forall known_opcode ex_semantics ∧
  optimize_ir ex_semantics =
    Some [CO "data"; SP "data" "val" "NUMBER" (VInt 20);
          CL "items"; AL "items" "NUMBER" (VInt 1); AL "items" "NUMBER" (VInt 2)].
Proof.
  split; [by_decide|]. split; [by_decide|].
  exact (proj1 (C3_grouping_order ex_semantics ltac:(by_decide) ltac:(by_decide))).
Defined.

(** C4, as stated, fails: optimizing the optimized form of a list that is
    created twice repeats its appends once more. *)
Lemma C4_not_idempotent :
  ∃ ys, optimize_ir ex_twice = Some ys ∧ optimize_ir ys ≠ Some ys.
Proof.
  exists [CL "L"; AL "L" "NUMBER" (VInt 1); CL "L"; AL "L" "NUMBER" (VInt 1)].
  split; [vm_compute; reflexivity|]. vm_compute. intros [=].
Qed.

(** C4, amended. [optimize_ir] is idempotent on every sequence that holds an
    instruction of an unknown opcode, and on every sequence in which no
    entity that an operation targets is created more than once. *)
Theorem C4_idempotent (xs : list instr) :
  Forall shaped xs →
  ¬ Forall known_opcode xs ∨ created_once xs →
  ∃ ys, optimize_ir xs = Some ys ∧ optimize_ir ys = Some ys.
Proof.
  intros Hs Hx.
  destruct (decide (Forall known_opcode xs)) as [Hk|Hk].
  - destruct Hx as [Hx|Hon]; [done|].
    pose proof (created_once_last_write_wins xs Hon) as Hon'.
    assert (Forall known_opcode (last_write_wins xs)) as Hk'
      by (by apply last_write_wins_Forall).
    pose proof (grouped_Permutation _ Hk' Hon') as Hp.
    exists (grouped (last_write_wins xs)). split; [by apply optimize_ir_known|].
    rewrite optimize_ir_known.
    + rewrite last_write_wins_id, grouped_idempotent; [done..|].
      rewrite Hp. apply last_write_wins_NoDup.
    + rewrite Hp. by apply last_write_wins_Forall.
    + by rewrite Hp.
  - exists (last_write_wins xs). split; [by apply optimize_ir_unknown|].
    rewrite optimize_ir_unknown.
    + by rewrite last_write_wins_idempotent.
    + by apply last_write_wins_Forall.
    + by apply last_write_wins_unknown.
Qed.

Lemma C4_idempotent_witness :
  Forall shaped ex_interleaved ∧
  (¬ Forall known_opcode ex_interleaved ∨ created_once ex_interleaved) ∧
  ∃ ys, optimize_ir ex_interleaved = Some ys ∧ optimize_ir ys = Some ys.
Proof.
  assert (created_once ex_interleaved) as Hon by by_decide.
  split; [by_decide|]. split; [by right|].
  apply (C4_idempotent ex_interleaved); [by_decide | by right].
Defined.

(** C7, as stated, fails: with an instruction of an unknown opcode in the
    sequence, phase 1 still drops the overwritten SET_PROPERTY. *)
Lemma C7_unknown_not_identity :
  ¬ Forall known_opcode ex_unknown ∧ optimize_ir ex_unknown ≠ Some ex_unknown.
Proof.
  split.
  - intros [Hk _]%Forall_cons. revert Hk. by_decide.
  - vm_compute. intros [=].
Qed.

(** C7, amended. With an instruction of an unknown opcode in the sequence,
    [optimize_ir] does not fail and skips the grouping phase only: it returns
    the output of phase 1, which is the input itself exactly when no
    (objectName, key) pair is written twice. *)
Theorem C7_unknown_opcode (xs : list instr) :
  Forall shaped xs → ¬ Forall known_opcode xs →
  optimize_ir xs = _remove_redundant_sets xs ∧
  optimize_ir xs = Some (last_write_wins xs) ∧
  (optimize_ir xs = Some xs ↔ NoDup (set_keys xs)).
Proof.
  intros Hs Hk. rewrite optimize_ir_unknown, remove_redundant_sets_spec by done.
  split; [done|]. split; [done|]. split.
  - intros [= Heq]. rewrite <- Heq. apply last_write_wins_NoDup.
  - intros Hnd. by rewrite last_write_wins_id.
Qed.

Lemma C7_unknown_opcode_witness :
  Forall shaped ex_unknown ∧ ¬ Forall known_opcode ex_unknown ∧
  optimize_ir ex_unknown = Some [Instr "IR_NOP" []; SP "o" "k" "NUMBER" (VInt 2)].
Proof.
  assert (¬ Forall known_opcode ex_unknown) as Hk by by_decide.
  split; [by_decide|]. split; [done|].
  exact (proj1 (proj2 (C7_unknown_opcode ex_unknown ltac:(by_decide) Hk))).
Defined.

(** C9, as stated, fails: grouping a sequence that creates a list twice
    emits the list's bucket after each creation, so the result is longer
    than the input. *)
Lemma C9_group_duplicates :
  ∃ ys, _group_instructions ex_twice = Some ys ∧ ¬ ys ≡ₚ ex_twice.
Proof.
  exists [CL "L"; AL "L" "NUMBER" (VInt 1); CL "L"; AL "L" "NUMBER" (VInt 1)].
  split; [vm_compute; reflexivity|].
  intros Hp%Permutation_length. simpl in Hp. lia.
Qed.

(** C9, amended. On every sequence that holds an instruction of an unknown
    opcode, and on every sequence in which no entity that an operation
    targets is created more than once, the grouping phase returns a
    permutation of its input, and [optimize_ir] neither drops nor repeats an
    instruction that is not a SET_PROPERTY. *)
Theorem C9_group_permutation (xs : list instr) :
  Forall shaped xs →
  ¬ Forall known_opcode xs ∨ created_once xs →
  (∃ ys, _group_instructions xs = Some ys ∧ ys ≡ₚ xs) ∧
  (∃ zs, optimize_ir xs = Some zs ∧
         filter (λ i, ¬ is_set i) zs ≡ₚ filter (λ i, ¬ is_set i) xs).
Proof.
  intros Hs Hx.
  destruct (decide (Forall known_opcode xs)) as [Hk|Hk].
  - destruct Hx as [Hx|Hon]; [done|]. split.
    + exists (grouped xs). split; [by apply group_instructions_spec|].
      by apply grouped_Permutation.
    + exists (grouped (last_write_wins xs)). split; [by apply optimize_ir_known|].
      rewrite grouped_Permutation.
      * by rewrite filter_not_set_last_write_wins.
      * by apply last_write_wins_Forall.
      * by apply created_once_last_write_wins.
  - split.
    + exists xs. split; [by apply group_instructions_unknown|done].
    + exists (last_write_wins xs). split; [by apply optimize_ir_unknown|].
      by rewrite filter_not_set_last_write_wins.
Qed.

Lemma C9_group_permutation_witness :
  Forall shaped ex_interleaved ∧
  (¬ Forall known_opcode ex_interleaved ∨ created_once ex_interleaved) ∧
  (∃ ys, _group_instructions ex_interleaved = Some ys ∧ ys ≡ₚ ex_interleaved) ∧
  (∃ zs, optimize_ir ex_interleaved = Some zs ∧
         filter (λ i, ¬ is_set i) zs ≡ₚ filter (λ i, ¬ is_set i) ex_interleaved).
Proof.
  assert (created_once ex_interleaved) as Hon by by_decide.
  split; [by_decide|]. split; [by right|].
  apply (C9_group_permutation ex_interleaved); [by_decide | by right].
Defined.

(** * Replay equivalence *)




(** * The analysis pass *)

Section analysis.
Import Analyzer.

(** While no symbol is current, the body of a command records nothing. *)
Lemma semantic_propiedad_idle p s :
  current_symbol_name s = None → walk_propiedad Semantic.listener p s = s.
Proof.
  intros Hc. unfold walk_propiedad, walk_valor. simpl.
  assert (Semantic.enterPropiedad p s = s) as ->
    by (unfold Semantic.enterPropiedad; by rewrite Hc).
  unfold Semantic.enterValor. by rewrite Hc.
Qed.

Lemma semantic_valor_idle parent v s :
  current_symbol_name s = None → walk_valor Semantic.listener parent v s = s.
Proof.
  intros Hc. unfold walk_valor. simpl. unfold Semantic.enterValor. by rewrite Hc.
Qed.

Lemma semantic_propiedades_idle ps s :
  current_symbol_name s = None →
  foldl (λ s p, walk_propiedad Semantic.listener p s) s ps = s.
Proof.
  induction ps as [|p ps IH]; intros Hc; cbn [foldl]; [done|].
  rewrite semantic_propiedad_idle by done. by apply IH.
Qed.

Lemma semantic_items_idle vs s :
  current_symbol_name s = None →
  foldl (λ s v, walk_valor Semantic.listener Items_listaParent v s) s vs = s.
Proof.
  induction vs as [|v vs IH]; intros Hc; cbn [foldl]; [done|].
  rewrite semantic_valor_idle by done. by apply IH.
Qed.

Lemma set_metadatos_invariant n k l c base s0 s m meta :
  body_invariant n k l c base s0 s → truthy (current_symbol_name s) = Some m →
  body_invariant n k l c base s0 (set_metadatos m meta s).
Proof.
  intros (He & Hr & Hc & e & Hs & Hn & Hk & Hl & Hcol) Hm.
  assert (m = n) as ->.
  { rewrite Hc in Hm. simpl in Hm. destruct n; [done|]. by simplify_eq. }
  repeat split; try done. simpl. rewrite Hs.
  eexists. split; [apply alter_insert_eq|]. done.
Qed.

Lemma semantic_propiedad_invariant n k l c base s0 s p :
  body_invariant n k l c base s0 s →
  body_invariant n k l c base s0 (walk_propiedad Semantic.listener p s).
Proof.
  intros Hinv. unfold walk_propiedad, walk_valor. simpl.
  assert (body_invariant n k l c base s0 (Semantic.enterPropiedad p s)) as Hinv1.
  { unfold Semantic.enterPropiedad.
    destruct (truthy (current_symbol_name s)) as [m|] eqn:Hm; [|done].
    destruct (lookup (symbol_table s) m) as [e|]; [|done].
    case_decide; [|done]. destruct (metadatos e); try done.
    by eapply set_metadatos_invariant. }
  unfold Semantic.enterValor.
  destruct (truthy (current_symbol_name (Semantic.enterPropiedad p s))) as [m|] eqn:Hm; [|done].
  destruct (lookup _ m) as [e|]; [|done].
  case_decide; [|done]. destruct (metadatos e); try done.
  by eapply set_metadatos_invariant.
Qed.

Lemma semantic_valor_invariant n k l c base s0 s parent v :
  body_invariant n k l c base s0 s →
  body_invariant n k l c base s0 (walk_valor Semantic.listener parent v s).
Proof.
  intros Hinv. unfold walk_valor. simpl. unfold Semantic.enterValor.
  destruct (truthy (current_symbol_name s)) as [m|] eqn:Hm; [|done].
  destruct (lookup _ m) as [e|]; [|done].
  case_decide; [|done]. destruct (metadatos e); try done.
  by eapply set_metadatos_invariant.
Qed.

Lemma semantic_propiedades_invariant n k l c base s0 ps : ∀ s,
  body_invariant n k l c base s0 s →
  body_invariant n k l c base s0 (foldl (λ s p, walk_propiedad Semantic.listener p s) s ps).
Proof.
  induction ps as [|p ps IH]; intros s Hinv; cbn [foldl]; [done|].
  by apply IH, semantic_propiedad_invariant.
Qed.

Lemma semantic_items_invariant n k l c base s0 vs : ∀ s,
  body_invariant n k l c base s0 s →
  body_invariant n k l c base s0
    (foldl (λ s v, walk_valor Semantic.listener Items_listaParent v s) s vs).
Proof.
  induction vs as [|v vs IH]; intros s Hinv; cbn [foldl]; [done|].
  by apply IH, semantic_valor_invariant.
Qed.

(** A command whose name is neither reserved nor declared adds one entry and
    no diagnostic. *)
Lemma walk_comando_fresh cmd s :
  is_reserved (symbol_table s) (cmd_name cmd) = false →
  symbols (symbol_table s) !! cmd_name cmd = None →
  let s' := walk_comando Semantic.listener cmd s in
  error_listener s' = error_listener s ∧
  reserved_words (symbol_table s') = reserved_words (symbol_table s) ∧
  current_symbol_name s' = None ∧
  ∃ e, symbols (symbol_table s') = <[cmd_name cmd := e]> (symbols (symbol_table s)) ∧
       nombre e = cmd_name cmd ∧ tipo_entidad e = cmd_kind cmd ∧
       linea e = line (cmd_start cmd) ∧ columna e = (column (cmd_start cmd) + 1)%nat.
Proof.
  intros Hres Hnew. destruct cmd as [ctx|ctx]; simpl in *.
  - set (s1 := Semantic.enterCrear_objeto_cmd ctx s).
    assert (body_invariant (text (nombre_obj ctx)) "objeto" (line (obj_start ctx))
              (column (obj_start ctx) + 1) (symbols (symbol_table s)) s s1) as Hinv.
    { unfold s1, Semantic.enterCrear_objeto_cmd, enter_declaration, declare.
      rewrite Hres, Hnew. simpl. repeat split. eexists. split; [done|]. done. }
    apply (semantic_propiedades_invariant _ _ _ _ _ _ (propiedades ctx)) in Hinv.
    destruct Hinv as (He & Hr & Hc & e & Hs & Hn & Hk & Hl & Hcol).
    unfold Semantic.exitCrear_objeto_cmd. simpl. repeat split; try done.
    exists e. done.
  - set (s1 := Semantic.enterCrear_lista_cmd ctx s).
    assert (body_invariant (text (nombre_lista ctx)) "lista" (line (lista_start ctx))
              (column (lista_start ctx) + 1) (symbols (symbol_table s)) s s1) as Hinv.
    { unfold s1, Semantic.enterCrear_lista_cmd, enter_declaration, declare.
      rewrite Hres, Hnew. simpl. repeat split. eexists. split; [done|]. done. }
    apply (semantic_items_invariant _ _ _ _ _ _ (items_lista ctx)) in Hinv.
    destruct Hinv as (He & Hr & Hc & e & Hs & Hn & Hk & Hl & Hcol).
    unfold Semantic.exitCrear_lista_cmd. simpl. repeat split; try done.
    exists e. done.
Qed.

(** A command whose name is already declared adds one diagnostic and leaves
    the table as it is. *)
Lemma walk_comando_redefinition cmd s :
  is_reserved (symbol_table s) (cmd_name cmd) = false →
  is_Some (symbols (symbol_table s) !! cmd_name cmd) →
  let s' := walk_comando Semantic.listener cmd s in
  symbol_table s' = symbol_table s ∧
  current_symbol_name s' = None ∧
  _semantic_errors (error_listener s') = (_semantic_errors (error_listener s) + 1)%nat ∧
  _lexer_errors (error_listener s') = _lexer_errors (error_listener s) ∧
  _parser_errors (error_listener s') = _parser_errors (error_listener s) ∧
  length (error_messages (error_listener s')) =
    (length (error_messages (error_listener s)) + 1)%nat.
Proof.
  intros Hres [e He]. destruct cmd as [ctx|ctx]; simpl in *.
  - set (s1 := Semantic.enterCrear_objeto_cmd ctx s).
    assert (current_symbol_name s1 = None ∧ symbol_table s1 = symbol_table s ∧
            error_listener s1 =
              add_semantic_error (error_listener s) (line (obj_start ctx))
                (column (obj_start ctx) + 1)
                ("Redefinición del símbolo '" +:+ text (nombre_obj ctx)
                 +:+ "'. Ya fue declarado como '" +:+ tipo_entidad e
                 +:+ "' en la línea " +:+ pretty (linea e) +:+ ".")) as (Hc & Ht & Hel).
    { unfold s1, Semantic.enterCrear_objeto_cmd, enter_declaration, declare, lookup.
      rewrite Hres, He. simpl. by rewrite He. }
    rewrite semantic_propiedades_idle by done.
    unfold Semantic.exitCrear_objeto_cmd. simpl. rewrite Ht, Hel. simpl.
    rewrite length_app. simpl. done.
  - set (s1 := Semantic.enterCrear_lista_cmd ctx s).
    assert (current_symbol_name s1 = None ∧ symbol_table s1 = symbol_table s ∧
            error_listener s1 =
              add_semantic_error (error_listener s) (line (lista_start ctx))
                (column (lista_start ctx) + 1)
                ("Redefinición del símbolo '" +:+ text (nombre_lista ctx)
                 +:+ "'. Ya fue declarado como '" +:+ tipo_entidad e
                 +:+ "' en la línea " +:+ pretty (linea e) +:+ ".")) as (Hc & Ht & Hel).
    { unfold s1, Semantic.enterCrear_lista_cmd, enter_declaration, declare, lookup.
      rewrite Hres, He. simpl. by rewrite He. }
    rewrite semantic_items_idle by done.
    unfold Semantic.exitCrear_lista_cmd. simpl. rewrite Ht, Hel. simpl.
    rewrite length_app. simpl. done.
Qed.

(** A command whose name is a reserved word adds one diagnostic and leaves
    the table as it is. *)
Lemma walk_comando_reserved cmd s :
  is_reserved (symbol_table s) (cmd_name cmd) = true →
  let s' := walk_comando Semantic.listener cmd s in
  symbol_table s' = symbol_table s ∧
  _semantic_errors (error_listener s') = (_semantic_errors (error_listener s) + 1)%nat.
Proof.
  intros Hres. destruct cmd as [ctx|ctx]; simpl in *.
  - set (s1 := Semantic.enterCrear_objeto_cmd ctx s).
    assert (current_symbol_name s1 = None ∧ symbol_table s1 = symbol_table s ∧
            _semantic_errors (error_listener s1)
            = (_semantic_errors (error_listener s) + 1)%nat) as (Hc & Ht & He).
    { unfold s1, Semantic.enterCrear_objeto_cmd, enter_declaration. by rewrite Hres. }
    rewrite semantic_propiedades_idle by done. done.
  - set (s1 := Semantic.enterCrear_lista_cmd ctx s).
    assert (current_symbol_name s1 = None ∧ symbol_table s1 = symbol_table s ∧
            _semantic_errors (error_listener s1)
            = (_semantic_errors (error_listener s) + 1)%nat) as (Hc & Ht & He).
    { unfold s1, Semantic.enterCrear_lista_cmd, enter_declaration. by rewrite Hres. }
    rewrite semantic_items_idle by done. done.
Qed.

(** The three outcomes of a command. *)
Lemma walk_comando_cases cmd s :
  let s' := walk_comando Semantic.listener cmd s in
  reserved_words (symbol_table s') = reserved_words (symbol_table s) ∧
  ((_semantic_errors (error_listener s') = (_semantic_errors (error_listener s) + 1)%nat ∧
    symbols (symbol_table s') = symbols (symbol_table s)) ∨
   (_semantic_errors (error_listener s') = _semantic_errors (error_listener s) ∧
    symbols (symbol_table s) !! cmd_name cmd = None ∧
    ∃ e, symbols (symbol_table s') = <[cmd_name cmd := e]> (symbols (symbol_table s)))).
Proof.
  destruct (is_reserved (symbol_table s) (cmd_name cmd)) eqn:Hres.
  - destruct (walk_comando_reserved cmd s Hres) as [Ht He].
    cbv zeta. rewrite Ht. split; [done|]. by left.
  - destruct (symbols (symbol_table s) !! cmd_name cmd) as [e|] eqn:Hl.
    + destruct (walk_comando_redefinition cmd s Hres) as (Ht & _ & He & _).
      { by rewrite Hl. }
      cbv zeta. rewrite Ht. split; [done|]. by left.
    + destruct (walk_comando_fresh cmd s Hres Hl) as (He & Hr & _ & e & Hs & _).
      cbv zeta. split; [done|]. right. rewrite He. eauto.
Qed.

Lemma walk_errors_monotone tree : ∀ s,
  (_semantic_errors (error_listener s)
   ≤ _semantic_errors (error_listener (walk Semantic.listener tree s)))%nat.
Proof.
  induction tree as [|cmd tree IH]; intros s; [done|].
  unfold walk. cbn [foldl]. etrans; [|apply IH].
  destruct (walk_comando_cases cmd s) as [_ [[He _]|[He _]]]; lia.
Qed.

(** A walk that records no diagnostic has met pairwise distinct names, none
    of them declared before. *)
Lemma walk_no_error_distinct tree : ∀ s,
  _semantic_errors (error_listener (walk Semantic.listener tree s))
  = _semantic_errors (error_listener s) →
  NoDup (cmd_name <$> tree) ∧
  ∀ cmd, cmd ∈ tree → symbols (symbol_table s) !! cmd_name cmd = None.
Proof.
  induction tree as [|cmd tree IH]; intros s Herr.
  - split; [constructor|]. intros cmd Hin. by apply elem_of_nil in Hin.
  - unfold walk in Herr. cbn [foldl] in Herr.
    pose proof (walk_errors_monotone tree (walk_comando Semantic.listener cmd s)) as Hmono.
    unfold walk in Hmono.
    destruct (walk_comando_cases cmd s) as [_ [[He _]|(He & Hnew & e & Hs)]]; [lia|].
    destruct (IH (walk_comando Semantic.listener cmd s)) as [Hnd Hfresh].
    { unfold walk. lia. }
    assert (∀ c, c ∈ tree → cmd_name c ≠ cmd_name cmd ∧
                            symbols (symbol_table s) !! cmd_name c = None) as Hrest.
    { intros c Hc. specialize (Hfresh c Hc). rewrite Hs in Hfresh.
      apply lookup_insert_None in Hfresh as [? ?]. by split. }
    split.
    + rewrite fmap_cons. constructor; [|done].
      intros (c & Heq & Hc)%list_elem_of_fmap. destruct (Hrest c Hc) as [Hne _]. congruence.
    + intros c [->|Hc]%elem_of_cons; [done|]. by apply Hrest.
Qed.

End analysis.

(** * Claims about the analysis pass and the IR builder *)

Section analysis_claims.
Import Analyzer.

Lemma is_reserved_init s :
  reserved_words (symbol_table s) = reserved_words SymbolTable_init →
  ∀ n, is_reserved (symbol_table s) n = is_reserved SymbolTable_init n.
Proof. intros Hr n. unfold is_reserved. by rewrite Hr. Qed.

(** The end-to-end scripts of the specification. *)
Example ir_of_usuario :
  ir <$> (stats <$> analyze_and_transform fresh_listener ex_usuario)
  = Some [ Instr IR_CREATE_OBJECT [VStr "usuario"];
           Instr IR_SET_PROPERTY [VStr "usuario"; VStr "nombre"; VStr "STRING"; VStr "Juan"];
           Instr IR_SET_PROPERTY [VStr "usuario"; VStr "edad"; VStr "NUMBER"; VInt 30] ].
Proof. vm_compute. reflexivity. Qed.

Example json_of_usuario :
  json_output_string <$> analyze_and_transform fresh_listener ex_usuario
  = Some (Some (json_dumps
       [("usuario", JsonObject [("nombre", VStr "Juan"); ("edad", VInt 30)])])).
Proof. vm_compute. reflexivity. Qed.

Example ir_of_numeros :
  ir <$> (stats <$> analyze_and_transform fresh_listener [crear_lista "numeros" 1])
  = Some [ Instr IR_CREATE_LIST [VStr "numeros"];
           Instr IR_APPEND_LIST [VStr "numeros"; VStr "NUMBER"; VInt 1];
           Instr IR_APPEND_LIST [VStr "numeros"; VStr "NUMBER"; VInt 2] ].
Proof. vm_compute. reflexivity. Qed.

(** C5. When the analysis pass records a Semantic diagnostic, the pipeline
    returns no JSON string and an empty IR, whatever the tree holds before
    the erroneous command. *)
Theorem C5_no_output_on_semantic_error (el : CustomErrorListener) (tree : ProgramaContext) :
  (get_total_errors el = 0%nat →
   (0 < _semantic_errors (error_listener (semantic_pass el tree)))%nat →
   ∃ r, analyze_and_transform el tree = Some r ∧
        json_output_string r = None ∧ ir (stats r) = []) ∧
  (∀ r, analyze_and_transform el tree = Some r →
        (0 < errores_semanticos (stats r))%nat →
        json_output_string r = None ∧ ir (stats r) = []).
Proof.
  split.
  - intros Htot Hsem. unfold analyze_and_transform.
    rewrite decide_True by done. cbv zeta.
    destruct (decide (_semantic_errors (error_listener (semantic_pass el tree)) = 0%nat))
      as [Hz|Hz]; [lia|].
    simpl. eauto.
  - intros r Hr Hsem. unfold analyze_and_transform in Hr.
    destruct (decide (get_total_errors el = 0%nat)) as [Htot|Htot].
    + cbv zeta in Hr.
      destruct (decide (_semantic_errors (error_listener (semantic_pass el tree)) = 0%nat))
        as [Hz|Hz].
      * destruct (Optimizer.optimize_ir _); simpl in Hr; simplify_eq.
        simpl in Hsem. lia.
      * simpl in Hr. by simplify_eq.
    + simpl in Hr. by simplify_eq.
Qed.

Lemma C5_no_output_on_semantic_error_witness :
  let tree := [crear_objeto "usuario" 1; crear_lista "numeros" 2; crear_objeto "usuario" 3] in
  get_total_errors fresh_listener = 0%nat ∧
  (0 < _semantic_errors (error_listener (semantic_pass fresh_listener tree)))%nat ∧
  ∃ r, analyze_and_transform fresh_listener tree = Some r ∧
       json_output_string r = None ∧ ir (stats r) = [].
Proof.
  intros tree. split; [reflexivity|]. split; [vm_compute; lia|].
  apply (proj1 (C5_no_output_on_semantic_error fresh_listener tree)); [reflexivity | vm_compute; lia].
Defined.

(** C6. [declare] on a name that is present returns false and leaves the
    table as it is, whatever kind is requested; declaring a name twice, in
    any combination of kinds, yields exactly one Semantic diagnostic and the
    table keeps the single entry of the first declaration, kind, position
    and metadata. *)
Theorem C6_redefinition :
  (∀ (self : SymbolTable) (name tipo : string) (lin col : nat) (meta : option Metadatos),
     is_Some (symbols self !! name) →
     declare self name tipo lin col meta = (false, self)) ∧
  (∀ (el : CustomErrorListener) (c1 c2 : ComandoContext),
     cmd_name c2 = cmd_name c1 →
     is_reserved SymbolTable_init (cmd_name c1) = false →
     let first := semantic_pass el [c1] in
     let both := semantic_pass el [c1; c2] in
     _semantic_errors (error_listener both) = (_semantic_errors el + 1)%nat ∧
     length (error_messages (error_listener both)) = (length (error_messages el) + 1)%nat ∧
     symbol_table both = symbol_table first ∧
     ∃ e, symbols (symbol_table both) = {[ cmd_name c1 := e ]} ∧
          tipo_entidad e = cmd_kind c1 ∧
          linea e = line (cmd_start c1) ∧
          columna e = (column (cmd_start c1) + 1)%nat).
Proof.
  split.
  - intros self name tipo lin col meta [e He]. unfold declare. by rewrite He.
  - intros el c1 c2 Hname Hres. cbv zeta.
    set (s0 := {| error_listener := el; symbol_table := SymbolTable_init;
                  current_symbol_name := None |}).
    change (semantic_pass el [c1; c2])
      with (walk_comando Semantic.listener c2 (walk_comando Semantic.listener c1 s0)).
    change (semantic_pass el [c1]) with (walk_comando Semantic.listener c1 s0).
    destruct (walk_comando_fresh c1 s0 Hres (lookup_empty _))
      as (He1 & Hr1 & Hc1 & e & Hs1 & Hn & Hk & Hl & Hcol).
    set (s1 := walk_comando Semantic.listener c1 s0) in *.
    destruct (walk_comando_redefinition c2 s1) as (Ht & _ & Hse & _ & _ & Hlen).
    { rewrite is_reserved_init by done. by rewrite Hname. }
    { rewrite Hname, Hs1, lookup_insert_eq. done. }
    rewrite Hse, Hlen, Ht, He1. repeat split; try done.
    exists e. rewrite Hs1. done.
Qed.

Lemma C6_redefinition_witness :
  let first := semantic_pass fresh_listener [crear_objeto "datos" 1] in
  let both := semantic_pass fresh_listener [crear_objeto "datos" 1; crear_lista "datos" 2] in
  (is_Some (symbols (symbol_table first) !! "datos") ∧
   declare (symbol_table first) "datos" "lista" 2 1 None = (false, symbol_table first)) ∧
  cmd_name (crear_lista "datos" 2) = cmd_name (crear_objeto "datos" 1) ∧
  is_reserved SymbolTable_init "datos" = false ∧
  _semantic_errors (error_listener both) = 1%nat ∧
  symbol_table both = symbol_table first.
Proof.
  intros first both.
  assert (is_Some (symbols (symbol_table first) !! "datos")) as Hin by (vm_compute; eauto).
  split; [split; [done|]; by apply (proj1 C6_redefinition)|].
  split; [reflexivity|]. split; [reflexivity|].
  destruct (proj2 C6_redefinition fresh_listener (crear_objeto "datos" 1)
              (crear_lista "datos" 2) eq_refl eq_refl) as (Herr & _ & Htab & _).
  split; [exact Herr | exact Htab].
Defined.

Lemma same_letters_upper s : ∀ t, same_letters s t → upper s = upper t.
Proof.
  induction s as [|c s IH]; intros [|d t]; simpl; try done.
  intros [Hc Hs]. by rewrite Hc, (IH t Hs).
Qed.

Lemma reserved_words_upper kw :
  kw ∈ reserved_words SymbolTable_init → upper kw = kw.
Proof.
  simpl. rewrite !elem_of_cons, elem_of_nil.
  intros [->|[->|[->|[->|[->|[->|[->|[]]]]]]]]; reflexivity.
Qed.

(** C10. Every letter-case variant of a keyword is reserved, while the
    symbol table tells names apart by their exact spelling: two declarations
    whose names differ only in letter case and are not keywords both succeed
    and give two entries without a diagnostic. *)
Theorem C10_case_sensitivity :
  (∀ s kw : string,
     kw ∈ reserved_words SymbolTable_init → same_letters s kw →
     is_reserved SymbolTable_init s = true) ∧
  (∀ (el : CustomErrorListener) (c1 c2 : ComandoContext),
     same_letters (cmd_name c1) (cmd_name c2) →
     cmd_name c1 ≠ cmd_name c2 →
     is_reserved SymbolTable_init (cmd_name c1) = false →
     let both := semantic_pass el [c1; c2] in
     error_listener both = el ∧
     (∃ e1 e2, symbols (symbol_table both) = <[cmd_name c2 := e2]> {[ cmd_name c1 := e1 ]} ∧
               nombre e1 = cmd_name c1 ∧ tipo_entidad e1 = cmd_kind c1 ∧
               nombre e2 = cmd_name c2 ∧ tipo_entidad e2 = cmd_kind c2) ∧
     size (symbols (symbol_table both)) = 2%nat ∧
     (∀ k1 k2 l1 l2 p1 p2 m1 m2,
        let '(ok1, table) := declare SymbolTable_init (cmd_name c1) k1 l1 p1 m1 in
        ok1 = true ∧ (declare table (cmd_name c2) k2 l2 p2 m2).1 = true)).
Proof.
  split.
  - intros s kw Hkw Hs. unfold is_reserved. rewrite bool_decide_eq_true.
    apply same_letters_upper in Hs. by rewrite Hs, (reserved_words_upper kw Hkw).
  - intros el c1 c2 Hsame Hne Hres. cbv zeta.
    set (s0 := {| error_listener := el; symbol_table := SymbolTable_init;
                  current_symbol_name := None |}).
    change (semantic_pass el [c1; c2])
      with (walk_comando Semantic.listener c2 (walk_comando Semantic.listener c1 s0)).
    destruct (walk_comando_fresh c1 s0 Hres (lookup_empty _))
      as (He1 & Hr1 & Hc1 & e1 & Hs1 & Hn1 & Hk1 & _).
    set (s1 := walk_comando Semantic.listener c1 s0) in *.
    assert (is_reserved SymbolTable_init (cmd_name c2) = false) as Hres2.
    { unfold is_reserved in *. by rewrite <- (same_letters_upper _ _ Hsame). }
    destruct (walk_comando_fresh c2 s1) as (He2 & Hr2 & Hc2 & e2 & Hs2 & Hn2 & Hk2 & _).
    { by rewrite is_reserved_init. }
    { rewrite Hs1, lookup_insert_ne by done. apply lookup_empty. }
    split; [by rewrite He2, He1|]. split; [|split].
    + exists e1, e2. rewrite Hs2, Hs1. done.
    + rewrite Hs2, Hs1. simpl.
      rewrite map_size_insert_None by (rewrite lookup_insert_ne by done; apply lookup_empty).
      by rewrite map_size_insert_None.
    + intros k1 k2 l1 l2 p1 p2 m1 m2. unfold declare. simpl.
      rewrite lookup_empty. simpl. split; [done|].
      by rewrite lookup_insert_ne.
Qed.

Lemma C10_case_sensitivity_witness :
  let both := semantic_pass fresh_listener [crear_objeto "usuario" 1; crear_objeto "Usuario" 2] in
  is_reserved SymbolTable_init "Crear" = true ∧
  same_letters "usuario" "Usuario" ∧ "usuario" ≠ "Usuario" ∧
  is_reserved SymbolTable_init "usuario" = false ∧
  error_listener both = fresh_listener ∧
  size (symbols (symbol_table both)) = 2%nat.
Proof.
  intros both.
  split.
  { apply (proj1 C10_case_sensitivity "Crear" "CREAR"); [by_decide | by vm_compute]. }
  assert (same_letters "usuario" "Usuario") as Hsame by (by vm_compute).
  assert ("usuario" ≠ "Usuario") as Hne by done.
  split; [done|]. split; [done|]. split; [reflexivity|].
  destruct (proj2 C10_case_sensitivity fresh_listener (crear_objeto "usuario" 1)
              (crear_objeto "Usuario" 2) Hsame Hne eq_refl) as (Hel & _ & Hsize & _).
  split; [exact Hel | exact Hsize].
Defined.




End analysis_claims.

(** * The IR the pipeline builds *)

Lemma created_before_from_snoc x l : ∀ seen,
  created_before_from seen l →
  (is_operation x → target x ∈ target <$> creations l ∨ target x ∈ seen) →
  created_before_from seen (l ++ [x]).
Proof.
  induction l as [|y l IH]; intros seen Hl Hx; simpl.
  - split; [|done]. intros Ho. destruct (Hx Ho) as [Hin|Hin]; [|done].
    by apply elem_of_nil in Hin.
  - destruct Hl as [Hy Hl]. split; [done|]. apply IH; [done|].
    intros Ho. unfold creations in *. rewrite filter_cons in Hx.
    destruct (decide (is_creation y)).
    + destruct (Hx Ho) as [[->|Hin]%elem_of_cons|Hin].
      * right. by left.
      * by left.
      * right. by right.
    + by apply Hx.
Qed.

Lemma creations_snoc_operation l x :
  is_operation x → creations (l ++ [x]) = creations l.
Proof.
  intros Ho. unfold creations. rewrite filter_app, filter_cons_False; [by rewrite app_nil_r|].
  intros Hc. by apply (creation_not_operation x).
Qed.

(** Appending operations on an entity that is created already. *)
Lemma created_before_from_operations n ops : ∀ l seen,
  created_before_from seen l → Some (VStr n) ∈ target <$> creations l →
  Forall (body_operation n) ops →
  created_before_from seen (l ++ ops) ∧ creations (l ++ ops) = creations l.
Proof.
  induction ops as [|x ops IH]; intros l seen Hl Hn Hops.
  - by rewrite app_nil_r.
  - apply Forall_cons in Hops as [(Ho & _ & _ & Ht) Hops].
    replace (l ++ x :: ops) with ((l ++ [x]) ++ ops) by (by rewrite <- app_assoc).
    destruct (IH (l ++ [x]) seen) as [Hcb Hcs]; try done.
    + apply created_before_from_snoc; [done|]. intros _. left. by rewrite Ht.
    + by rewrite creations_snoc_operation.
    + split; [done|]. by rewrite Hcs, creations_snoc_operation.
Qed.

Lemma creation_of_creation cmd : is_creation (creation_of cmd).
Proof. destruct cmd; [by left | by right]. Qed.

Lemma creation_of_facts cmd :
  shaped (creation_of cmd) ∧ known_opcode (creation_of cmd) ∧
  typed (creation_of cmd) ∧ target (creation_of cmd) = Some (VStr (cmd_name cmd)).
Proof.
  destruct cmd; (split; [|split; [|split]]);
    [ by repeat split; intros H; try done
    | by left; left
    | by unfold typed; rewrite !decide_False
    | done
    | by repeat split; intros H; try done
    | by left; right
    | by unfold typed; rewrite !decide_False
    | done ].
Qed.

(** What one command adds to the IR keeps the invariants of the IR. *)
Lemma segment_invariant cmd ops l seen :
  Forall (body_operation (cmd_name cmd)) ops →
  Forall shaped l → Forall known_opcode l → Forall typed l →
  created_before_from seen l →
  let l' := l ++ creation_of cmd :: ops in
  Forall shaped l' ∧ Forall known_opcode l' ∧ Forall typed l' ∧
  created_before_from seen l' ∧
  target <$> creations l' = (target <$> creations l) ++ [Some (VStr (cmd_name cmd))].
Proof.
  intros Hops Hs Hk Hl Hcb. cbv zeta.
  destruct (creation_of_facts cmd) as (Hcs & Hck & Hcl & Hct).
  pose proof (creation_of_creation cmd) as Hcc.
  assert (creations (l ++ [creation_of cmd]) = creations l ++ [creation_of cmd]) as Hcre.
  { unfold creations. by rewrite filter_app, filter_cons_True. }
  destruct (created_before_from_operations (cmd_name cmd) ops (l ++ [creation_of cmd]) seen)
    as [Hcb' Hcre']; try done.
  { apply created_before_from_snoc; [done|]. intros Ho.
    by destruct (creation_not_operation _ Hcc). }
  { rewrite Hcre, fmap_app, elem_of_app. right. rewrite <- Hct. by left. }
  replace (l ++ creation_of cmd :: ops)
    with ((l ++ [creation_of cmd]) ++ ops) by (by rewrite <- app_assoc).
  repeat split; try done.
  - rewrite !Forall_app. repeat split; [done|by constructor|].
    eapply Forall_impl; [exact Hops|]. by intros x (_ & ? & _).
  - rewrite !Forall_app. repeat split; [done|by constructor|].
    eapply Forall_impl; [exact Hops|]. intros x (? & _). by right.
  - rewrite !Forall_app. repeat split; [done|by constructor|].
    eapply Forall_impl; [exact Hops|]. by intros x (_ & _ & ? & _).
  - rewrite Hcre', Hcre, fmap_app. by rewrite <- Hct.
Qed.

Lemma shaped_set a b c d : shaped (Instr IR_SET_PROPERTY [a; b; c; d]).
Proof. split; [|split]; [intros [?|?]; done | done | intros ?; done]. Qed.

Lemma shaped_append a b c : shaped (Instr IR_APPEND_LIST [a; b; c]).
Proof. split; [|split]; [intros [?|?]; done | intros ?; done | done]. Qed.

Section builder.
Import Analyzer.

Lemma valor_nativo_typed v : get_value_type v = type_of_value (valor_nativo v).
Proof. by destruct v. Qed.

Lemma builder_propiedad p s :
  let s' := walk_propiedad IRBuilder.listener p s in
  current_obj_name s' = current_obj_name s ∧
  current_list_name s' = current_list_name s ∧
  ∃ ops, ir_instructions s' = ir_instructions s ++ ops ∧
         Forall (λ x, ∃ n, truthy (current_obj_name s) = Some n ∧ body_operation n x) ops.
Proof.
  cbv zeta. unfold walk_propiedad, walk_valor. simpl.
  assert (IRBuilder.exitValor PropiedadParent (valor p) s = s) as ->.
  { unfold IRBuilder.exitValor. by destruct (truthy (current_list_name s)). }
  unfold IRBuilder.exitPropiedad.
  destruct (truthy (current_obj_name s)) as [n|] eqn:Hn; simpl.
  - repeat split. eexists. split; [done|]. constructor; [|done].
    exists n. split; [done|]. split; [by left|]. split; [|split; [|done]].
    + apply shaped_set.
    + unfold typed. rewrite decide_True by done. simpl.
      by rewrite valor_nativo_typed.
  - repeat split. exists []. by rewrite app_nil_r.
Qed.

Lemma builder_item v s :
  let s' := walk_valor IRBuilder.listener Items_listaParent v s in
  current_obj_name s' = current_obj_name s ∧
  current_list_name s' = current_list_name s ∧
  ∃ ops, ir_instructions s' = ir_instructions s ++ ops ∧
         Forall (λ x, ∃ n, truthy (current_list_name s) = Some n ∧ body_operation n x) ops.
Proof.
  cbv zeta. unfold walk_valor. simpl. unfold IRBuilder.exitValor.
  destruct (truthy (current_list_name s)) as [n|] eqn:Hn; simpl.
  - repeat split. eexists. split; [done|]. constructor; [|done].
    exists n. split; [done|]. split; [by right|]. split; [|split; [|done]].
    + apply shaped_append.
    + unfold typed. rewrite decide_False by done.
      rewrite decide_True by done. simpl. by rewrite valor_nativo_typed.
  - repeat split. exists []. by rewrite app_nil_r.
Qed.

Lemma builder_propiedades ps : ∀ s,
  let s' := foldl (λ s p, walk_propiedad IRBuilder.listener p s) s ps in
  ∃ ops, ir_instructions s' = ir_instructions s ++ ops ∧
         Forall (λ x, ∃ n, truthy (current_obj_name s) = Some n ∧ body_operation n x) ops.
Proof.
  induction ps as [|p ps IH]; intros s; cbn [foldl].
  - exists []. by rewrite app_nil_r.
  - destruct (builder_propiedad p s) as (Ho & _ & ops1 & H1 & Hops1).
    destruct (IH (walk_propiedad IRBuilder.listener p s)) as (ops2 & H2 & Hops2).
    exists (ops1 ++ ops2). cbv zeta. rewrite H2, H1, <- app_assoc. split; [done|].
    apply Forall_app. split; [done|]. by rewrite Ho in Hops2.
Qed.

Lemma builder_items vs : ∀ s,
  let s' := foldl (λ s v, walk_valor IRBuilder.listener Items_listaParent v s) s vs in
  ∃ ops, ir_instructions s' = ir_instructions s ++ ops ∧
         Forall (λ x, ∃ n, truthy (current_list_name s) = Some n ∧ body_operation n x) ops.
Proof.
  induction vs as [|v vs IH]; intros s; cbn [foldl].
  - exists []. by rewrite app_nil_r.
  - destruct (builder_item v s) as (_ & Hl & ops1 & H1 & Hops1).
    destruct (IH (walk_valor IRBuilder.listener Items_listaParent v s)) as (ops2 & H2 & Hops2).
    exists (ops1 ++ ops2). cbv zeta. rewrite H2, H1, <- app_assoc. split; [done|].
    apply Forall_app. split; [done|]. by rewrite Hl in Hops2.
Qed.

Lemma truthy_Some name n : truthy (Some name) = Some n → n = name.
Proof. destruct name; simpl; congruence. Qed.

(** A command adds its creation and then operations on its own entity. *)
Lemma builder_comando cmd s :
  ∃ ops, ir_instructions (walk_comando IRBuilder.listener cmd s)
         = ir_instructions s ++ creation_of cmd :: ops ∧
         Forall (body_operation (cmd_name cmd)) ops.
Proof.
  destruct cmd as [ctx|ctx].
  - destruct (builder_propiedades (propiedades ctx) (IRBuilder.enterCrear_objeto_cmd ctx s))
      as (ops & Hir & Hops).
    exists ops. cbv zeta in Hir. split.
    + etrans; [|etrans; [exact Hir|]]; [reflexivity|].
      simpl. by rewrite <- app_assoc.
    + eapply Forall_impl; [exact Hops|]. intros x (n & Hn & Hx). simpl in Hn.
      apply truthy_Some in Hn. subst n. exact Hx.
  - destruct (builder_items (items_lista ctx) (IRBuilder.enterCrear_lista_cmd ctx s))
      as (ops & Hir & Hops).
    exists ops. cbv zeta in Hir. split.
    + etrans; [|etrans; [exact Hir|]]; [reflexivity|].
      simpl. by rewrite <- app_assoc.
    + eapply Forall_impl; [exact Hops|]. intros x (n & Hn & Hx). simpl in Hn.
      apply truthy_Some in Hn. subst n. exact Hx.
Qed.

Lemma builder_walk tree : ∀ s seen,
  let l := ir_instructions s in
  let l' := ir_instructions (walk IRBuilder.listener tree s) in
  Forall shaped l → Forall known_opcode l → Forall typed l →
  created_before_from seen l →
  Forall shaped l' ∧ Forall known_opcode l' ∧ Forall typed l' ∧
  created_before_from seen l' ∧
  target <$> creations l' =
    (target <$> creations l) ++ ((λ cmd, Some (VStr (cmd_name cmd))) <$> tree).
Proof.
  induction tree as [|cmd tree IH]; intros s seen l l' Hs Hk Hl Hcb.
  - subst l l'. simpl. by rewrite app_nil_r.
  - subst l l'. unfold walk. cbn [foldl].
    destruct (builder_comando cmd s) as (ops & Hir & Hops).
    destruct (segment_invariant cmd ops (ir_instructions s) seen Hops Hs Hk Hl Hcb)
      as (Hs1 & Hk1 & Hl1 & Hcb1 & Hn1).
    rewrite <- Hir in Hs1, Hk1, Hl1, Hcb1, Hn1.
    destruct (IH (walk_comando IRBuilder.listener cmd s) seen Hs1 Hk1 Hl1 Hcb1)
      as (Hs2 & Hk2 & Hl2 & Hcb2 & Hn2).
    repeat split; try done.
    unfold walk in Hn2. rewrite Hn2, Hn1, <- app_assoc. done.
Qed.

(** The IR of any tree is well-shaped, of known opcodes, with the type tag
    of every native value, and writes to an entity only after creating it;
    its creations name the commands in order. *)
Lemma builder_ir tree :
  let l := IRBuilder.get_instructions (walk IRBuilder.listener tree IRBuilder.init) in
  Forall shaped l ∧ Forall known_opcode l ∧ Forall typed l ∧
  created_before l ∧
  target <$> creations l = (λ cmd, Some (VStr (cmd_name cmd))) <$> tree.
Proof.
  destruct (builder_walk tree IRBuilder.init [])
    as (Hs & Hk & Hl & Hcb & Hn); try done.
Qed.

End builder.

(** * Further properties of the optimizer *)

Lemma indexable_set_key x :
  set_indexable x → is_set x → ∃ o k, args x !! 0%nat = Some o ∧ args x !! 1%nat = Some k.
Proof.
  intros Hs Hx. specialize (Hs Hx).
  destruct (args x) as [|o [|k ?]]; simpl in *; [lia..|]. eauto.
Qed.

Lemma scan_last_writes_indexable xs : ∀ i m,
  Forall set_indexable xs →
  ∃ m', scan_last_writes i xs m = Some m' ∧
    ∀ k, m' !! k = match last_write k xs with
                   | Some p => Some (i + p)%nat
                   | None => m !! k
                   end.
Proof.
  induction xs as [|x xs IH]; intros i m Hs; simpl.
  - eauto.
  - apply Forall_cons in Hs as [Hx Hs]. case_decide as Hset.
    + destruct (indexable_set_key x Hx Hset) as (o & k & Ho & Hk).
      rewrite Ho, Hk. simpl.
      destruct (IH (S i) (<[(o, k) := i]> m) Hs) as (m' & -> & Hm').
      eexists; split; [done|]. intros k'. rewrite Hm'.
      destruct (last_write k' xs) as [p|]; [f_equal; lia|].
      unfold write_key. rewrite Ho, Hk. simpl.
      case_decide as Hd.
      * destruct Hd as [_ Hd]. simplify_eq. rewrite lookup_insert_eq. f_equal; lia.
      * rewrite lookup_insert_ne; [done|]. intros <-. by apply Hd.
    + destruct (IH (S i) m Hs) as (m' & -> & Hm').
      eexists; split; [done|]. intros k'. rewrite Hm'.
      destruct (last_write k' xs) as [p|]; [f_equal; lia|].
      case_decide as Hd; [by destruct Hd|done].
Qed.

Lemma rebuild_last_writes_indexable lw xs : ∀ i acc,
  Forall set_indexable xs →
  (∀ k, match last_write k xs with
        | Some p => lw !! k = Some (i + p)%nat
        | None => ∀ j, lw !! k = Some j → (j < i)%nat
        end) →
  rebuild_last_writes lw i xs acc = Some (acc ++ last_write_wins xs).
Proof.
  induction xs as [|x xs IH]; intros i acc Hs Hlw; simpl.
  - by rewrite app_nil_r.
  - apply Forall_cons in Hs as [Hx Hs].
    assert (∀ k, match last_write k xs with
                 | Some p => lw !! k = Some (S i + p)%nat
                 | None => ∀ j, lw !! k = Some j → (j < S i)%nat
                 end) as Hlw'.
    { intros k. specialize (Hlw k). simpl in Hlw.
      destruct (last_write k xs) as [p|].
      - rewrite Hlw. f_equal; lia.
      - case_decide.
        + intros j Hj. rewrite Hlw in Hj. simplify_eq. lia.
        + intros j Hj. specialize (Hlw j Hj). lia. }
    case_decide as Hset.
    + destruct (indexable_set_key x Hx Hset) as (o & k & Ho & Hk).
      rewrite Ho, Hk. simpl.
      specialize (Hlw (o, k)) as Hok. simpl in Hok.
      pose proof (overwritten_last_write x o k xs Ho Hk) as Hov.
      destruct (last_write (o, k) xs) as [p|] eqn:Hl.
      * rewrite decide_False by (rewrite Hok; intros [=]; lia).
        rewrite decide_True by (split; [done|]; by apply Hov).
        by apply IH.
      * rewrite decide_True in Hok
          by (split; [done|]; unfold write_key; by rewrite Ho, Hk).
        rewrite decide_True by (rewrite Hok; f_equal; lia).
        rewrite decide_False by (intros [_ H%Hov]; done).
        rewrite IH by done. by rewrite <- app_assoc.
    + rewrite decide_False by (by intros [? _]).
      rewrite IH by done. by rewrite <- app_assoc.
Qed.

Lemma scan_last_writes_fails xs : ∀ i m,
  ¬ Forall set_indexable xs → scan_last_writes i xs m = None.
Proof.
  induction xs as [|x xs IH]; intros i m Hn; [by destruct Hn|].
  simpl. destruct (decide (set_indexable x)) as [Hx|Hx].
  - assert (¬ Forall set_indexable xs) as Hxs by (intros H; apply Hn; by constructor).
    case_decide as Hset; [|by apply IH].
    destruct (indexable_set_key x Hx Hset) as (o & k & -> & ->). simpl. by apply IH.
  - assert (is_set x ∧ (length (args x) < 2)%nat) as [Hset Hlen].
    { unfold set_indexable in Hx. destruct (decide (is_set x)); [|tauto].
      split; [done|]. destruct (decide (2 ≤ length (args x))%nat); [tauto|lia]. }
    rewrite decide_True by done.
    destruct (args x) as [|o [|k ?]]; simpl in *; [done|done|lia].
Qed.

Lemma remove_redundant_sets_cases (xs : list instr) :
  _remove_redundant_sets xs =
  if decide (Forall set_indexable xs) then Some (last_write_wins xs) else None.
Proof.
  unfold _remove_redundant_sets. case_decide as Hs.
  - destruct (scan_last_writes_indexable xs 0 ∅ Hs) as (lw & -> & Hlw). simpl.
    rewrite (rebuild_last_writes_indexable lw xs 0 []); [done..|].
    intros k. rewrite Hlw. destruct (last_write k xs); [done|].
    intros j. by rewrite lookup_empty.
  - by rewrite scan_last_writes_fails.
Qed.

(** Phase 1 raises exactly when a SET_PROPERTY has fewer than two arguments;
    otherwise it returns the last writes, whatever else the instructions
    hold. *)
Theorem remove_redundant_sets_total (xs : list instr) :
  _remove_redundant_sets xs =
  if decide (Forall set_indexable xs) then Some (last_write_wins xs) else None.
Proof. apply remove_redundant_sets_cases. Qed.

Lemma named_target x : named x → known_opcode x → is_Some (target x).
Proof.
  intros Hn Hk. specialize (Hn Hk). unfold target.
  apply lookup_lt_is_Some. lia.
Qed.

Lemma group_instructions_named xs :
  Forall known_opcode xs → Forall named xs →
  _group_instructions xs = Some (grouped xs).
Proof.
  intros Hk Hs. unfold _group_instructions.
  rewrite split_instructions_spec. simpl.
  rewrite (filter_none (λ i, ¬ known_opcode i))
    by (eapply Forall_impl; [exact Hk|]; intros x Hx Hn; done).
  rewrite Forall_forall in Hs, Hk.
  assert (Forall (λ op, is_Some (target op)) (operations xs)) as Hops.
  { apply Forall_forall. intros op [Hop Hin]%list_elem_of_filter.
    apply named_target; [by apply Hs|by apply Hk]. }
  assert (Forall (λ c, is_Some (target c)) (creations xs)) as Hcs.
  { apply Forall_forall. intros c [Hc Hin]%list_elem_of_filter.
    apply named_target; [by apply Hs|by apply Hk]. }
  destruct (bucket_operations_spec (operations xs) ∅ Hops) as (m & -> & Hm). simpl.
  destruct (emit_creations_spec m (creations xs) [] ∅ Hcs) as (P & -> & HP). simpl.
  rewrite emit_orphans_spec by done. f_equal. unfold grouped.
  assert (∀ n, default [] (m !! n) = bucket (Some n) (operations xs)) as Hb.
  { intros n. rewrite Hm, lookup_empty. by destruct (bucket (Some n) (operations xs)). }
  f_equal.
  - apply Forall_bind_ext. eapply Forall_impl; [exact Hcs|].
    intros c [n Hn]. rewrite Hn. simpl. by rewrite Hb.
  - unfold orphans. apply filter_ext_elem. intros op Hop.
    rewrite Forall_forall in Hops. destruct (Hops op Hop) as [n Hn].
    unfold unprocessed. rewrite Hn, HP, elem_of_empty.
    assert (is_Some (m !! n)) as Hsome.
    { rewrite Hm. assert (op ∈ bucket (Some n) (operations xs)) as Hin
        by (by apply list_elem_of_filter).
      destruct (bucket (Some n) (operations xs)); [by apply elem_of_nil in Hin|done]. }
    tauto.
Qed.

Lemma bucket_operations_fails ops : ∀ m,
  ¬ Forall (λ op, is_Some (target op)) ops → bucket_operations ops m = None.
Proof.
  induction ops as [|op ops IH]; intros m Hn; [by destruct Hn|].
  simpl. destruct (args op !! 0%nat) as [e|] eqn:He; simpl; [|done].
  apply IH. intros H. apply Hn. constructor; [|done]. unfold target. by rewrite He.
Qed.

Lemma emit_creations_fails m cs : ∀ acc P,
  ¬ Forall (λ c, is_Some (target c)) cs → emit_creations m cs acc P = None.
Proof.
  induction cs as [|c cs IH]; intros acc P Hn; [by destruct Hn|].
  simpl. destruct (args c !! 0%nat) as [e|] eqn:He; simpl; [|done].
  assert (¬ Forall (λ c, is_Some (target c)) cs) as Hcs.
  { intros H. apply Hn. constructor; [|done]. unfold target. by rewrite He. }
  destruct (m !! e); by apply IH.
Qed.

Lemma target_is_Some x : is_Some (target x) ↔ (1 ≤ length (args x))%nat.
Proof.
  unfold target. rewrite lookup_lt_is_Some. lia.
Qed.

Lemma group_instructions_cases (xs : list instr) :
  _group_instructions xs =
  if decide (Forall known_opcode xs)
  then if decide (Forall named xs) then Some (grouped xs) else None
  else Some xs.
Proof.
  destruct (decide (Forall known_opcode xs)) as [Hk|Hk];
    [|by apply group_instructions_unknown].
  destruct (decide (Forall named xs)) as [Hn|Hn];
    [by apply group_instructions_named|].
  unfold _group_instructions. rewrite split_instructions_spec. simpl.
  rewrite (filter_none (λ i, ¬ known_opcode i))
    by (eapply Forall_impl; [exact Hk|]; intros x Hx Hx'; done).
  destruct (decide (Forall (λ op, is_Some (target op)) (operations xs))) as [Hops|Hops].
  - destruct (bucket_operations_spec (operations xs) ∅ Hops) as (m & -> & _). simpl.
    rewrite emit_creations_fails; [done|]. intros Hcs. apply Hn.
    rewrite Forall_forall in Hk, Hops, Hcs. apply Forall_forall. intros x Hx _.
    apply target_is_Some. destruct (Hk x Hx) as [Hc|Ho].
    + apply Hcs. by apply list_elem_of_filter.
    + apply Hops. by apply list_elem_of_filter.
  - by rewrite bucket_operations_fails.
Qed.

(** Phase 2 returns its argument when an opcode is unknown, raises when all
    opcodes are known and an instruction has no argument, and groups
    otherwise. *)
Theorem group_instructions_total (xs : list instr) :
  _group_instructions xs =
  if decide (Forall known_opcode xs)
  then if decide (Forall named xs) then Some (grouped xs) else None
  else Some xs.
Proof. apply group_instructions_cases. Qed.

Lemma last_write_wins_named xs :
  Forall set_indexable xs → Forall named (last_write_wins xs) ↔ Forall named xs.
Proof.
  intros Hs. split; [|apply last_write_wins_Forall].
  rewrite !Forall_forall. intros Hn x Hx. rewrite Forall_forall in Hs.
  destruct (decide (is_set x)) as [Hset|Hset].
  - intros _. specialize (Hs x Hx Hset). lia.
  - apply Hn. by apply last_write_wins_keeps.
Qed.

Lemma optimize_ir_cases (xs : list instr) :
  optimize_ir xs =
  if decide (Forall set_indexable xs) then
    if decide (Forall known_opcode xs) then
      if decide (Forall named xs) then Some (grouped (last_write_wins xs)) else None
    else Some (last_write_wins xs)
  else None.
Proof.
  unfold optimize_ir. destruct xs as [|x xs].
  { rewrite !decide_True by constructor. done. }
  rewrite remove_redundant_sets_cases.
  destruct (decide (Forall set_indexable (x :: xs))) as [Hs|Hs]; [|done].
  change (mbind _ (Some ?l)) with (_group_instructions l).
  rewrite group_instructions_cases.
  destruct (decide (Forall known_opcode (x :: xs))) as [Hk|Hk].
  - rewrite decide_True by (by apply last_write_wins_Forall).
    destruct (decide (Forall named (x :: xs))) as [Hn|Hn].
    + by rewrite decide_True by (by apply last_write_wins_named).
    + by rewrite decide_False by (by rewrite last_write_wins_named).
  - by rewrite decide_False by (by apply last_write_wins_unknown).
Qed.

(** [optimize_ir] in full: it raises on a SET_PROPERTY with fewer than two
    arguments, and on a sequence of known opcodes with an instruction without
    arguments; with an unknown opcode it returns the output of phase 1; in
    the remaining case it returns the grouped output of phase 1. *)
Theorem optimize_ir_total (xs : list instr) :
  optimize_ir xs =
  if decide (Forall set_indexable xs) then
    if decide (Forall known_opcode xs) then
      if decide (Forall named xs) then Some (grouped (last_write_wins xs)) else None
    else Some (last_write_wins xs)
  else None.
Proof. apply optimize_ir_cases. Qed.

Lemma elem_of_grouped x xs :
  x ∈ grouped xs ↔ x ∈ creations xs ∨ x ∈ operations xs.
Proof.
  unfold grouped, orphans. rewrite elem_of_app, list_elem_of_bind, list_elem_of_filter.
  split.
  - intros [(c & [->|Hx]%elem_of_cons & Hc)|[_ Hx]]; [by left| |by right].
    apply bucket_in in Hx as [_ Hx]. by right.
  - intros [Hx|Hx].
    + left. exists x. split; [by left|done].
    + destruct (decide (target x ∈ target <$> creations xs)) as [Hin|Hin]; [|by right].
      left. apply list_elem_of_fmap in Hin as (c & Heq & Hc). exists c.
      split; [|done]. right. by apply bucket_in.
Qed.

Lemma elem_of_known_grouped x xs :
  Forall known_opcode xs → x ∈ grouped xs ↔ x ∈ xs.
Proof.
  intros Hk. rewrite elem_of_grouped. unfold creations, operations.
  rewrite !list_elem_of_filter. rewrite Forall_forall in Hk. split.
  - by intros [[_ ?]|[_ ?]].
  - intros Hx. destruct (Hk x Hx); [by left|by right].
Qed.

(** Every overwritten write has a surviving write to the same pair. *)
Lemma last_write_wins_covers x xs :
  x ∈ xs → is_set x →
  ∃ y, y ∈ last_write_wins xs ∧ is_set y ∧ same_pair x y.
Proof.
  revert x. induction xs as [|z xs IH]; intros x Hin Hx; [by apply elem_of_nil in Hin|].
  assert (∀ y, y ∈ last_write_wins xs → y ∈ last_write_wins (z :: xs)) as Hmono.
  { intros y Hy. simpl. case_decide; [done|by right]. }
  apply elem_of_cons in Hin as [->|Hin].
  - simpl. destruct (decide (is_set z ∧ overwritten z xs)) as [[_ Hov]|Hd].
    + apply Exists_exists in Hov as (y & Hy & Hys & Hp).
      destruct (IH y Hy Hys) as (y' & Hy' & Hys' & Hp'). exists y'.
      split; [done|]. split; [done|].
      destruct Hp as [H0 H1], Hp' as [H0' H1']. split; congruence.
    + exists z. split; [by left|]. by split.
  - destruct (IH x Hin Hx) as (y & Hy & Hys & Hp). exists y. split; [by apply Hmono|done].
Qed.

(** Whenever [optimize_ir] returns, it has invented nothing and lost no
    effect: every instruction of the output is an instruction of the input,
    every input instruction that is not a SET_PROPERTY is in the output, and
    every pair written in the input is written in the output. *)
Theorem optimize_ir_members (xs ys : list instr) :
  optimize_ir xs = Some ys →
  (∀ y, y ∈ ys → y ∈ xs) ∧
  (∀ x, x ∈ xs → ¬ is_set x → x ∈ ys) ∧
  (∀ x, x ∈ xs → is_set x → ∃ y, y ∈ ys ∧ is_set y ∧ same_pair x y).
Proof.
  rewrite optimize_ir_cases. intros Hopt.
  assert (∀ y, y ∈ ys ↔ y ∈ last_write_wins xs) as Hys.
  { repeat case_decide; simplify_eq; [|done].
    intros y. apply elem_of_known_grouped. by apply last_write_wins_Forall. }
  split; [|split].
  - intros y Hy%Hys. eapply elem_of_sublist; [done|apply last_write_wins_sublist].
  - intros x Hx Hset. apply Hys. by apply last_write_wins_keeps.
  - intros x Hx Hset. destruct (last_write_wins_covers x xs Hx Hset) as (y & Hy & ?).
    exists y. split; [by apply Hys|done].
Qed.

Lemma optimize_ir_members_witness :
  optimize_ir ex_twice
  = Some [CL "L"; AL "L" "NUMBER" (VInt 1); CL "L"; AL "L" "NUMBER" (VInt 1)] ∧
  (∀ y, y ∈ [CL "L"; AL "L" "NUMBER" (VInt 1); CL "L"; AL "L" "NUMBER" (VInt 1)]
        → y ∈ ex_twice).
Proof.
  assert (optimize_ir ex_twice
          = Some [CL "L"; AL "L" "NUMBER" (VInt 1); CL "L"; AL "L" "NUMBER" (VInt 1)])
    as H by (vm_compute; reflexivity).
  split; [exact H|]. exact (proj1 (optimize_ir_members _ _ H)).
Defined.

(** Whenever phase 1 returns, no pair is written twice in its output, and
    running it again changes nothing. *)
Theorem remove_redundant_sets_settled (xs ys : list instr) :
  _remove_redundant_sets xs = Some ys →
  NoDup (set_keys ys) ∧ _remove_redundant_sets ys = Some ys.
Proof.
  rewrite remove_redundant_sets_cases. case_decide as Hs; [|done].
  intros [= <-]. split; [apply last_write_wins_NoDup|].
  rewrite remove_redundant_sets_cases, decide_True by (by apply last_write_wins_Forall).
  by rewrite last_write_wins_idempotent.
Qed.

Lemma remove_redundant_sets_settled_witness :
  _remove_redundant_sets ex_redundancy
  = Some [CO "user"; SP "user" "name" "STRING" (VStr "Pedro")] ∧
  NoDup (set_keys [CO "user"; SP "user" "name" "STRING" (VStr "Pedro")]).
Proof.
  assert (_remove_redundant_sets ex_redundancy
          = Some [CO "user"; SP "user" "name" "STRING" (VStr "Pedro")])
    as H by (vm_compute; reflexivity).
  split; [exact H|]. exact (proj1 (remove_redundant_sets_settled _ _ H)).
Defined.

(** Phase 2 has nothing to move in a sequence of operations without any
    creation, nor in a sequence of creations without any operation: it
    returns them in their order. *)
Theorem group_instructions_one_kind (xs : list instr) :
  Forall named xs →
  Forall is_operation xs ∨ Forall is_creation xs →
  _group_instructions xs = Some xs.
Proof.
  intros Hn Hkind.
  assert (Forall known_opcode xs) as Hk.
  { destruct Hkind as [H|H]; (eapply Forall_impl; [exact H|]); intros x ?;
      [by right|by left]. }
  rewrite group_instructions_cases, !decide_True by done. f_equal.
  unfold grouped, orphans. destruct Hkind as [Ho|Hc].
  - assert (creations xs = []) as ->.
    { apply filter_none. eapply Forall_impl; [exact Ho|].
      intros x Hx Hc. by apply (creation_not_operation x). }
    simpl. unfold operations. rewrite (filter_all is_operation) by done.
    apply filter_all, Forall_forall. intros x _. apply not_elem_of_nil.
  - assert (operations xs = []) as ->.
    { apply filter_none. eapply Forall_impl; [exact Hc|].
      intros x Hx Ho. by apply (creation_not_operation x). }
    unfold creations. rewrite (filter_all is_creation) by done. simpl.
    rewrite app_nil_r. clear. induction xs as [|x xs IH]; [done|].
    rewrite bind_cons, IH. done.
Qed.

Lemma group_instructions_one_kind_witness :
  Forall named ex_orphans ∧
  (Forall is_operation ex_orphans ∨ Forall is_creation ex_orphans) ∧
  _group_instructions ex_orphans = Some ex_orphans.
Proof.
  assert (Forall is_operation ex_orphans) as Ho by by_decide.
  split; [by_decide|]. split; [by left|].
  apply (group_instructions_one_kind ex_orphans); [by_decide | by left].
Defined.

(** * Further properties of the emitter *)

Lemma emit_instr_Some x :
  emittable x →
  ∃ lines, emit_instr x = Some lines ∧
           length lines = (if decide (known_opcode x) then 1 else 0)%nat.
Proof.
  destruct x as [op a]. unfold emittable, is_creation, is_set, is_append, emit_instr.
  simpl. intros (Hc & Hs & Ha).
  destruct (decide (known_opcode (Instr op a))) as [Hk|Hk].
  - repeat case_decide.
    + destruct a as [|a0 l]; simpl in *; [specialize (Hc ltac:(by left)); lia|]. eauto.
    + specialize (Hs ltac:(done)).
      destruct a as [|a0 [|a1 [|a2 [|a3 [|a4 l]]]]]; simplify_eq/=. eauto.
    + destruct a as [|a0 l]; simpl in *; [specialize (Hc ltac:(by right)); lia|]. eauto.
    + specialize (Ha ltac:(done)).
      destruct a as [|a0 [|a1 [|a2 [|a3 l]]]]; simplify_eq/=. eauto.
    + exfalso. destruct Hk as [[?|?]|[?|?]]; done.
  - repeat case_decide; try (by exists []); exfalso; apply Hk.
    + left. by left.
    + right. by left.
    + left. by right.
    + right. by right.
Qed.

Lemma emit_instr_None x : ¬ emittable x → emit_instr x = None.
Proof.
  destruct x as [op a]. unfold emittable, is_creation, is_set, is_append, emit_instr.
  simpl. intros He.
  repeat case_decide.
  - destruct a as [|a0 l]; [done|]. exfalso. apply He.
    repeat split; intros Hx; simpl; try lia; subst op; done.
  - destruct a as [|a0 [|a1 [|a2 [|a3 [|a4 l]]]]]; try done. exfalso. apply He.
    repeat split; intros Hx; simpl; try lia; try (destruct Hx as [Hx|Hx]); subst op; done.
  - destruct a as [|a0 l]; [done|]. exfalso. apply He.
    repeat split; intros Hx; simpl; try lia; subst op; done.
  - destruct a as [|a0 [|a1 [|a2 [|a3 l]]]]; try done. exfalso. apply He.
    repeat split; intros Hx; simpl; try lia; try (destruct Hx as [Hx|Hx]); subst op; done.
  - exfalso. apply He. repeat split; intros Hx; try (destruct Hx as [Hx|Hx]); done.
Qed.

Lemma emit_instr_emittable x :
  if decide (emittable x)
  then ∃ lines, emit_instr x = Some lines ∧
                length lines = (if decide (known_opcode x) then 1 else 0)%nat
  else emit_instr x = None.
Proof.
  case_decide; [by apply emit_instr_Some | by apply emit_instr_None].
Qed.

Lemma emit_loop_acc xs : ∀ code,
  emit_loop xs code = (code ++.) <$> emit_loop xs [].
Proof.
  induction xs as [|x xs IH]; intros code; simpl.
  - by rewrite app_nil_r.
  - destruct (emit_instr x) as [lines|]; simpl; [|done].
    rewrite (IH (code ++ lines)), (IH lines).
    destruct (emit_loop xs []) as [rest|]; simpl; [|done].
    by rewrite app_assoc.
Qed.

Lemma emit_loop_app xs ys :
  emit_loop (xs ++ ys) [] =
  cx ← emit_loop xs []; cy ← emit_loop ys []; Some (cx ++ cy).
Proof.
  induction xs as [|x xs IH]; simpl.
  - by destruct (emit_loop ys []).
  - destruct (emit_instr x) as [lines|]; simpl; [|done].
    rewrite (emit_loop_acc (xs ++ ys) lines), (emit_loop_acc xs lines), IH.
    destruct (emit_loop xs []) as [cx|]; simpl; [|done].
    destruct (emit_loop ys []) as [cy|]; simpl; [|done].
    by rewrite app_assoc.
Qed.

Lemma emit_loop_emittable xs :
  if decide (Forall emittable xs)
  then ∃ code, emit_loop xs [] = Some code ∧
               length code = length (filter known_opcode xs)
  else emit_loop xs [] = None.
Proof.
  induction xs as [|x xs IH].
  - rewrite decide_True by constructor. by exists [].
  - simpl. pose proof (emit_instr_emittable x) as Hx.
    destruct (decide (emittable x)) as [He|He].
    + destruct Hx as (lines & -> & Hlen). simpl. rewrite emit_loop_acc.
      destruct (decide (Forall emittable xs)) as [Hs|Hs].
      * destruct IH as (code & -> & Hc). rewrite decide_True by (by constructor).
        eexists. split; [done|]. rewrite length_app, Hlen, Hc, filter_cons.
        by case_decide.
      * rewrite IH, decide_False; [done|]. by intros [_ ?]%Forall_cons.
    + rewrite Hx, decide_False; [done|]. by intros [? _]%Forall_cons.
Qed.

(** [generate_python_from_ir] raises exactly when some instruction does not
    have the arguments its opcode unpacks; otherwise the program is the
    header comment followed by one line for every instruction of the four
    opcodes. *)
Theorem generate_python_from_ir_total (xs : list instr) :
  if decide (Forall emittable xs)
  then ∃ code, generate_python_from_ir xs = Some (Comment "# --- Codigo Generado ---" :: code)
               ∧ length code = length (filter known_opcode xs)
  else generate_python_from_ir xs = None.
Proof.
  unfold generate_python_from_ir. rewrite emit_loop_acc.
  pose proof (emit_loop_emittable xs) as H. case_decide.
  - destruct H as (code & -> & Hlen). by exists code.
  - by rewrite H.
Qed.

(** Instructions of other opcodes leave no trace in the program: with or
    without them the emitter gives the same result. *)
Theorem generate_python_ignores_unknown (xs : list instr) :
  generate_python_from_ir (filter known_opcode xs) = generate_python_from_ir xs.
Proof.
  unfold generate_python_from_ir.
  rewrite (emit_loop_acc (filter _ _)), (emit_loop_acc xs). f_equal.
  induction xs as [|x xs IH]; [done|]. rewrite filter_cons. simpl.
  case_decide as Hk.
  - simpl. destruct (emit_instr x) as [lines|]; simpl; [|done].
    by rewrite (emit_loop_acc (filter _ _)), (emit_loop_acc xs), IH.
  - assert (emit_instr x = Some []) as ->.
    { unfold emit_instr. repeat case_decide; try done; exfalso; apply Hk.
      - left. by left.
      - right. by left.
      - left. by right.
      - right. by right. }
    done.
Qed.

(** The program of a concatenation is the program of the first part
    followed by the program of the second part without its header. *)
Theorem generate_python_app (xs ys : list instr) :
  generate_python_from_ir (xs ++ ys) =
  cx ← generate_python_from_ir xs;
  cy ← generate_python_from_ir ys;
  Some (cx ++ tail cy).
Proof.
  unfold generate_python_from_ir.
  rewrite (emit_loop_acc (xs ++ ys)), (emit_loop_acc xs), (emit_loop_acc ys), emit_loop_app.
  destruct (emit_loop xs []) as [cx|]; simpl; [|done].
  destruct (emit_loop ys []) as [cy|]; simpl; done.
Qed.

(** ** Running the emitted program *)

Lemma emit_loop_run_any xs : ∀ code env,
  emit_loop xs code ≫= (λ code', exec code' env) = exec code env ≫= run xs.
Proof.
  induction xs as [|x xs IH]; intros code env; simpl.
  - by destruct (exec code env).
  - unfold run_instr. destruct (emit_instr x) as [lines|]; simpl.
    + rewrite IH, exec_app. by destruct (exec code env).
    + by destruct (exec code env).
Qed.

Lemma replay_run_any xs : replay xs = run xs ∅.
Proof. unfold replay, generate_python_from_ir. by rewrite (emit_loop_run_any xs _ ∅). Qed.










(** * Further properties of the symbol table and of the analysis pass *)

Section analysis_extra.
Import Analyzer.

(** Looking a name up after a [declare] finds the entry that was there
    before, or else the one just declared; no other name is affected and the
    reserved words stay. *)
Theorem declare_lookup (self : SymbolTable) (name tipo : string) (lin col : nat)
    (meta : option Metadatos) (other : string) :
  let self' := (declare self name tipo lin col meta).2 in
  reserved_words self' = reserved_words self ∧
  lookup self' other =
    if decide (other = name) then
      Some (default {| nombre := name; tipo_entidad := tipo; linea := lin;
                       columna := col; metadatos := default MetaVacio meta |}
              (lookup self name))
    else lookup self other.
Proof.
  unfold declare, lookup. destruct (symbols self !! name) as [e|] eqn:He; simpl.
  - split; [done|]. case_decide; by subst.
  - split; [done|]. case_decide.
    + subst. by rewrite lookup_insert_eq.
    + by rewrite lookup_insert_ne.
Qed.

(** The body of a command never reports. *)
Lemma semantic_valor_listener parent v s :
  error_listener (walk_valor Semantic.listener parent v s) = error_listener s.
Proof.
  unfold walk_valor. simpl. unfold Semantic.enterValor.
  destruct (truthy (current_symbol_name s)) as [m|]; [|done].
  destruct (lookup (symbol_table s) m) as [e|]; [|done].
  case_decide; [|done]. by destruct (metadatos e).
Qed.

Lemma semantic_propiedad_listener p s :
  error_listener (walk_propiedad Semantic.listener p s) = error_listener s.
Proof.
  unfold walk_propiedad. simpl. rewrite semantic_valor_listener.
  unfold Semantic.enterPropiedad.
  destruct (truthy (current_symbol_name s)) as [m|]; [|done].
  destruct (lookup (symbol_table s) m) as [e|]; [|done].
  case_decide; [|done]. by destruct (metadatos e).
Qed.

Lemma semantic_propiedades_listener ps : ∀ s,
  error_listener (foldl (λ s p, walk_propiedad Semantic.listener p s) s ps)
  = error_listener s.
Proof.
  induction ps as [|p ps IH]; intros s; cbn [foldl]; [done|].
  by rewrite IH, semantic_propiedad_listener.
Qed.

Lemma semantic_items_listener vs : ∀ s,
  error_listener (foldl (λ s v, walk_valor Semantic.listener Items_listaParent v s) s vs)
  = error_listener s.
Proof.
  induction vs as [|v vs IH]; intros s; cbn [foldl]; [done|].
  by rewrite IH, semantic_valor_listener.
Qed.

Lemma enter_declaration_listener name tipo lin col meta s :
  error_listener (enter_declaration name tipo lin col meta s) = error_listener s ∨
  ∃ message, error_listener (enter_declaration name tipo lin col meta s)
             = add_semantic_error (error_listener s) lin col message.
Proof.
  unfold enter_declaration, declare, lookup.
  destruct (is_reserved (symbol_table s) name); [right; by eexists|].
  destruct (symbols (symbol_table s) !! name) as [e|] eqn:He; simpl.
  - rewrite He. right. by eexists.
  - by left.
Qed.

(** A command reports at most once, at the position of its first token. *)
Lemma walk_comando_listener cmd s :
  let s' := walk_comando Semantic.listener cmd s in
  error_listener s' = error_listener s ∨
  ∃ message, error_listener s'
             = add_semantic_error (error_listener s) (line (cmd_start cmd))
                 (column (cmd_start cmd) + 1) message.
Proof.
  destruct cmd as [ctx|ctx]; simpl.
  - rewrite semantic_propiedades_listener. apply enter_declaration_listener.
  - rewrite semantic_items_listener. apply enter_declaration_listener.
Qed.

Lemma walk_messages (tree : ProgramaContext) (s : SemanticAnalyzer) :
  let el := error_listener s in
  let el' := error_listener (walk Semantic.listener tree s) in
  source_name el' = source_name el ∧
  _lexer_errors el' = _lexer_errors el ∧
  _parser_errors el' = _parser_errors el ∧
  ∃ added, error_messages el' = error_messages el ++ added ∧
           _semantic_errors el' = (_semantic_errors el + length added)%nat ∧
           (length added ≤ length tree)%nat.
Proof.
  revert s. induction tree as [|cmd tree IH]; intros s; cbv zeta.
  - repeat split. exists []. simpl. rewrite app_nil_r. repeat split; lia.
  - unfold walk. cbn [foldl].
    destruct (IH (walk_comando Semantic.listener cmd s))
      as (Hn & Hl & Hp & added & Hm & He & Hlen).
    unfold walk in Hn, Hl, Hp, Hm, He. rewrite Hn, Hl, Hp, Hm, He.
    destruct (walk_comando_listener cmd s) as [->|[message ->]].
    + repeat split. exists added. repeat split; try done; simpl; lia.
    + simpl. repeat split. eexists (_ :: added).
      rewrite <- app_assoc. simpl. repeat split; try done; lia.
Qed.

(** The analysis pass only adds to the error listener: the lexer and parser
    counts and the source name stay, the messages heard before stay in
    front, and every Semantic diagnostic counted comes with one message. *)
Theorem semantic_walk_messages (tree : ProgramaContext) (s : SemanticAnalyzer) :
  let el := error_listener s in
  let el' := error_listener (walk Semantic.listener tree s) in
  source_name el' = source_name el ∧
  _lexer_errors el' = _lexer_errors el ∧
  _parser_errors el' = _parser_errors el ∧
  ∃ added, error_messages el' = error_messages el ++ added ∧
           _semantic_errors el' = (_semantic_errors el + length added)%nat ∧
           (length added ≤ length tree)%nat.
Proof. apply walk_messages. Qed.

(** Later commands never change or remove an entry: the table only grows. *)
Theorem semantic_walk_keeps (tree : ProgramaContext) (s : SemanticAnalyzer) :
  symbols (symbol_table s) ⊆ symbols (symbol_table (walk Semantic.listener tree s)).
Proof.
  revert s. induction tree as [|cmd tree IH]; intros s; [done|].
  unfold walk. cbn [foldl]. etrans; [|apply IH].
  destruct (walk_comando_cases cmd s) as [_ [[_ ->]|(_ & Hnew & e & ->)]]; [done|].
  by apply insert_subseteq.
Qed.

Lemma walk_accounting (tree : ProgramaContext) (s : SemanticAnalyzer) :
  let s' := walk Semantic.listener tree s in
  (_semantic_errors (error_listener s') + size (symbols (symbol_table s')) =
   _semantic_errors (error_listener s) + size (symbols (symbol_table s)) + length tree)%nat.
Proof.
  revert s. induction tree as [|cmd tree IH]; intros s; cbv zeta; [simpl; lia|].
  unfold walk. cbn [foldl]. specialize (IH (walk_comando Semantic.listener cmd s)).
  cbv zeta in IH. unfold walk in IH. rewrite IH. simpl.
  destruct (walk_comando_cases cmd s) as [_ [[-> ->]|(-> & Hnew & e & ->)]]; [lia|].
  rewrite map_size_insert_None by done. lia.
Qed.

(** Every command leaves either one diagnostic or one new entry, never
    both and never none. *)
Theorem semantic_walk_accounting (tree : ProgramaContext) (s : SemanticAnalyzer) :
  let s' := walk Semantic.listener tree s in
  (_semantic_errors (error_listener s') + size (symbols (symbol_table s')) =
   _semantic_errors (error_listener s) + size (symbols (symbol_table s)) + length tree)%nat.
Proof. apply walk_accounting. Qed.

End analysis_extra.

(** * The symbol table of a program *)

Section table_extra.
Import Analyzer.

Lemma truthy_given n : n ≠ EmptyString → truthy (Some n) = Some n.
Proof. by destruct n. Qed.

Local Opaque truthy.

Lemma body_propiedad el rw base e m p :
  nombre e ≠ EmptyString → tipo_entidad e = "objeto" → metadatos e = MetaPropiedades m →
  walk_propiedad Semantic.listener p (in_body el rw base e)
  = in_body el rw base
      (with_metadatos e (MetaPropiedades (<[text (clave p) := get_value_type (valor p)]> m))).
Proof.
  intros Hn Hk Hm. unfold walk_propiedad, walk_valor. simpl.
  assert (Semantic.enterPropiedad p (in_body el rw base e)
          = in_body el rw base
              (with_metadatos e
                 (MetaPropiedades (<[text (clave p) := get_value_type (valor p)]> m)))) as ->.
  { unfold Semantic.enterPropiedad, lookup, set_metadatos, in_body. simpl.
    rewrite truthy_given, lookup_insert_eq, decide_True, Hm by done. simpl.
    by rewrite alter_insert_eq. }
  unfold Semantic.enterValor, lookup, in_body. simpl.
  rewrite truthy_given, lookup_insert_eq by done. simpl.
  rewrite decide_False; [done|]. by rewrite Hk.
Qed.

Lemma body_item el rw base e tipos v :
  nombre e ≠ EmptyString → tipo_entidad e = "lista" → metadatos e = MetaTiposElementos tipos →
  walk_valor Semantic.listener Items_listaParent v (in_body el rw base e)
  = in_body el rw base (with_metadatos e (MetaTiposElementos (tipos ++ [get_value_type v]))).
Proof.
  intros Hn Hk Hm. unfold walk_valor. simpl.
  unfold Semantic.enterValor, lookup, set_metadatos, in_body. simpl.
  rewrite truthy_given, lookup_insert_eq, decide_True, Hm by done. simpl.
  by rewrite alter_insert_eq.
Qed.

Lemma body_propiedades el rw base ps : ∀ e m,
  nombre e ≠ EmptyString → tipo_entidad e = "objeto" → metadatos e = MetaPropiedades m →
  foldl (λ s p, walk_propiedad Semantic.listener p s) (in_body el rw base e) ps
  = in_body el rw base
      (with_metadatos e
         (MetaPropiedades
            (foldl (λ m p, <[text (clave p) := get_value_type (valor p)]> m) m ps))).
Proof.
  induction ps as [|p ps IH]; intros e m Hn Hk Hm; cbn [foldl].
  - destruct e; simpl in *. by subst.
  - rewrite (body_propiedad _ _ _ _ m) by done.
    by rewrite (IH (with_metadatos e _) _ Hn Hk eq_refl).
Qed.

Lemma body_items el rw base vs : ∀ e tipos,
  nombre e ≠ EmptyString → tipo_entidad e = "lista" → metadatos e = MetaTiposElementos tipos →
  foldl (λ s v, walk_valor Semantic.listener Items_listaParent v s) (in_body el rw base e) vs
  = in_body el rw base
      (with_metadatos e (MetaTiposElementos (tipos ++ (get_value_type <$> vs)))).
Proof.
  induction vs as [|v vs IH]; intros e tipos Hn Hk Hm; cbn [foldl].
  - rewrite app_nil_r. destruct e; simpl in *. by subst.
  - rewrite (body_item _ _ _ _ tipos) by done.
    rewrite (IH (with_metadatos e _) _ Hn Hk eq_refl).
    by rewrite fmap_cons, <- app_assoc.
Qed.

(** A command with a fresh name stores exactly its entry. *)
Lemma walk_comando_entry cmd s :
  cmd_name cmd ≠ EmptyString →
  is_reserved (symbol_table s) (cmd_name cmd) = false →
  symbols (symbol_table s) !! cmd_name cmd = None →
  symbols (symbol_table (walk_comando Semantic.listener cmd s))
  = <[cmd_name cmd := cmd_entry cmd]> (symbols (symbol_table s)).
Proof.
  intros Hn Hres Hnew. destruct cmd as [ctx|ctx]; simpl in *.
  - unfold Semantic.enterCrear_objeto_cmd, enter_declaration, declare.
    rewrite Hres, Hnew. simpl.
    change {| error_listener := error_listener s; symbol_table := _;
              current_symbol_name := _ |}
      with (in_body (error_listener s) (reserved_words (symbol_table s))
              (symbols (symbol_table s))
              {| nombre := text (nombre_obj ctx); tipo_entidad := "objeto";
                 linea := line (obj_start ctx); columna := column (obj_start ctx) + 1;
                 metadatos := MetaPropiedades ∅ |}).
    by rewrite (body_propiedades _ _ _ _ _ ∅).
  - unfold Semantic.enterCrear_lista_cmd, enter_declaration, declare.
    rewrite Hres, Hnew. simpl.
    change {| error_listener := error_listener s; symbol_table := _;
              current_symbol_name := _ |}
      with (in_body (error_listener s) (reserved_words (symbol_table s))
              (symbols (symbol_table s))
              {| nombre := text (nombre_lista ctx); tipo_entidad := "lista";
                 linea := line (lista_start ctx); columna := column (lista_start ctx) + 1;
                 metadatos := MetaTiposElementos [] |}).
    by rewrite (body_items _ _ _ _ _ []).
Qed.

Lemma walk_comando_reserved_words cmd s :
  reserved_words (symbol_table (walk_comando Semantic.listener cmd s))
  = reserved_words (symbol_table s).
Proof. by destruct (walk_comando_cases cmd s) as [? _]. Qed.

Lemma walk_table tree : ∀ s n,
  names_given tree →
  symbols (symbol_table (walk Semantic.listener tree s)) !! n =
  match symbols (symbol_table s) !! n with
  | Some e => Some e
  | None => if is_reserved (symbol_table s) n then None else cmd_entry <$> first_named n tree
  end.
Proof.
  induction tree as [|cmd tree IH]; intros s n Hg.
  - simpl. destruct (symbols (symbol_table s) !! n); [done|]. by destruct (is_reserved _ _).
  - apply Forall_cons in Hg as [Hn Hg].
    change (walk Semantic.listener (cmd :: tree) s)
      with (walk Semantic.listener tree (walk_comando Semantic.listener cmd s)).
    rewrite (IH (walk_comando Semantic.listener cmd s) n Hg).
    assert (is_reserved (symbol_table (walk_comando Semantic.listener cmd s)) n
            = is_reserved (symbol_table s) n) as ->
      by (unfold is_reserved; by rewrite walk_comando_reserved_words).
    unfold first_named. rewrite (filter_cons (λ c, cmd_name c = n)).
    destruct (is_reserved (symbol_table s) (cmd_name cmd)) eqn:Hres.
    { destruct (walk_comando_reserved cmd s Hres) as [-> _].
      destruct (symbols (symbol_table s) !! n); [done|].
      case_decide as Hc; [|done]. subst n. by rewrite Hres. }
    destruct (symbols (symbol_table s) !! cmd_name cmd) as [e|] eqn:Hl.
    { destruct (walk_comando_redefinition cmd s Hres) as (-> & _); [by rewrite Hl|].
      destruct (symbols (symbol_table s) !! n) eqn:Hl'; [done|].
      case_decide as Hc; [|done]. subst n. congruence. }
    rewrite (walk_comando_entry cmd s Hn Hres Hl).
    case_decide as Hc.
    + subst n. by rewrite lookup_insert_eq, Hl, Hres.
    + by rewrite lookup_insert_ne.
Qed.

(** The table the analysis pass builds: a name is bound exactly when it is
    not a reserved word and some command declares it, and then to the entry
    of the first command that does — its kind, its position with the column
    counted from one, and the types of its properties or of its items. *)
Theorem semantic_pass_table (el : CustomErrorListener) (tree : ProgramaContext)
    (n : string) :
  names_given tree →
  symbols (symbol_table (semantic_pass el tree)) !! n =
  if is_reserved SymbolTable_init n then None else cmd_entry <$> first_named n tree.
Proof.
  intros Hg. unfold semantic_pass. by rewrite walk_table.
Qed.

Lemma semantic_pass_table_witness :
  names_given ex_redeclared ∧
  symbols (symbol_table (semantic_pass fresh_listener ex_redeclared)) !! "a"
  = Some (cmd_entry (crear_objeto "a" 1)).
Proof.
  split; [by_decide|].
  exact (semantic_pass_table fresh_listener ex_redeclared "a" ltac:(by_decide)).
Defined.

End table_extra.

(** * The two builders *)

Section builders_extra.
Import Analyzer.

Lemma ir_propiedades n ps : ∀ l cl,
  foldl (λ s p, walk_propiedad IRBuilder.listener p s)
    {| ir_instructions := l; current_obj_name := Some n; current_list_name := cl |} ps
  = {| ir_instructions :=
         l ++ (if decide (n = EmptyString) then []
               else (λ p, Instr IR_SET_PROPERTY
                            [VStr n; VStr (text (clave p)); VStr (get_value_type (valor p));
                             valor_nativo (valor p)]) <$> ps);
       current_obj_name := Some n; current_list_name := cl |}.
Proof.
  induction ps as [|p ps IH]; intros l cl; cbn [foldl].
  - case_decide; by rewrite app_nil_r.
  - unfold walk_propiedad at 2. unfold walk_valor. simpl.
    assert (∀ s, IRBuilder.exitValor PropiedadParent (valor p) s = s) as ->.
    { intros s. unfold IRBuilder.exitValor. by destruct (truthy (current_list_name s)). }
    unfold IRBuilder.exitPropiedad. simpl.
    destruct (decide (n = EmptyString)) as [->|Hn].
    + simpl. rewrite IH. by repeat case_decide.
    + destruct n as [|a n]; [done|]. simpl. rewrite IH.
      repeat case_decide; try done. by rewrite <- app_assoc.
Qed.

Lemma ir_items n vs : ∀ l co,
  foldl (λ s v, walk_valor IRBuilder.listener Items_listaParent v s)
    {| ir_instructions := l; current_obj_name := co; current_list_name := Some n |} vs
  = {| ir_instructions :=
         l ++ (if decide (n = EmptyString) then []
               else (λ v, Instr IR_APPEND_LIST
                            [VStr n; VStr (get_value_type v); valor_nativo v]) <$> vs);
       current_obj_name := co; current_list_name := Some n |}.
Proof.
  induction vs as [|v vs IH]; intros l co; cbn [foldl].
  - case_decide; by rewrite app_nil_r.
  - unfold walk_valor at 2. simpl. unfold IRBuilder.exitValor. simpl.
    destruct (decide (n = EmptyString)) as [->|Hn].
    + simpl. rewrite IH. by repeat case_decide.
    + destruct n as [|a n]; [done|]. simpl. rewrite IH.
      repeat case_decide; try done. by rewrite <- app_assoc.
Qed.

(** What a command adds does not depend on the state the builder is in. *)
Lemma ir_comando cmd s :
  ir_instructions (walk_comando IRBuilder.listener cmd s)
  = ir_instructions s ++
    creation_of cmd :: (if decide (cmd_name cmd = EmptyString) then [] else body_of cmd).
Proof.
  destruct cmd as [ctx|ctx]; simpl.
  - unfold IRBuilder.enterCrear_objeto_cmd. rewrite ir_propiedades. simpl.
    rewrite <- app_assoc. done.
  - unfold IRBuilder.enterCrear_lista_cmd. rewrite ir_items. simpl.
    rewrite <- app_assoc. done.
Qed.

Lemma ir_walk tree : ∀ s,
  ir_instructions (walk IRBuilder.listener tree s)
  = ir_instructions s ++
    (tree ≫= λ cmd, creation_of cmd ::
                     (if decide (cmd_name cmd = EmptyString) then [] else body_of cmd)).
Proof.
  induction tree as [|cmd tree IH]; intros s.
  - simpl. by rewrite app_nil_r.
  - change (walk IRBuilder.listener (cmd :: tree) s)
      with (walk IRBuilder.listener tree (walk_comando IRBuilder.listener cmd s)).
    rewrite IH, ir_comando, bind_cons, <- !app_assoc. done.
Qed.

(** The IR of a program is the IR of its commands, one after the other:
    the builder carries nothing over from one command to the next. *)
Theorem ir_of_app (tree1 tree2 : ProgramaContext) :
  ir_of (tree1 ++ tree2) = ir_of tree1 ++ ir_of tree2.
Proof.
  unfold ir_of, IRBuilder.get_instructions. rewrite !ir_walk. simpl.
  by rewrite bind_app.
Qed.

Lemma ir_of_commands (tree : ProgramaContext) :
  names_given tree →
  ir_of tree = tree ≫= λ cmd, creation_of cmd :: body_of cmd.
Proof.
  intros Hg. unfold ir_of, IRBuilder.get_instructions. rewrite ir_walk. simpl.
  induction Hg as [|cmd tree Hn Hg IH]; [done|].
  rewrite !bind_cons, IH. by rewrite decide_False.
Qed.

(** The IR of a program: for every command its creation, then one
    SET_PROPERTY per property or one APPEND_LIST per item, in the order of
    the source, each with the type tag and the native value of its literal. *)
Theorem ir_of_exact (tree : ProgramaContext) :
  names_given tree →
  ir_of tree = tree ≫= λ cmd, creation_of cmd :: body_of cmd.
Proof. apply ir_of_commands. Qed.

Lemma ir_of_exact_witness :
  names_given ex_mixed ∧
  ir_of ex_mixed = ex_mixed ≫= λ cmd, creation_of cmd :: body_of cmd.
Proof.
  split; [by_decide|]. apply (ir_of_exact ex_mixed). by_decide.
Defined.

Lemma valor_nativo_literal v :
  valor_finite v → is_literal (format_value (valor_nativo v) (VStr (get_value_type v))).
Proof. by destruct v. Qed.

Lemma body_of_literal_valued cmd : cmd_finite cmd → Forall literal_valued (body_of cmd).
Proof.
  destruct cmd as [ctx|ctx]; simpl; intros Hf; apply Forall_fmap;
    (eapply Forall_impl; [exact Hf|]); intros x Hx; unfold literal_valued; simpl.
  - by apply valor_nativo_literal.
  - by apply valor_nativo_literal.
Qed.

(** When the decimals of the script are finite, every right-hand side the
    emitter prints for its IR is a literal. *)
Lemma ir_of_literal_valued tree : finite_values tree → Forall literal_valued (ir_of tree).
Proof.
  unfold ir_of, IRBuilder.get_instructions. rewrite ir_walk. simpl.
  induction 1 as [|cmd tree Hc Hf IH]; [constructor|].
  rewrite bind_cons. constructor; [|apply Forall_app; split; [|done]].
  - destruct cmd; unfold literal_valued; by rewrite !decide_False.
  - case_decide; [constructor | by apply body_of_literal_valued].
Qed.

(** ** The JSON builder *)

Lemma json_propiedad p s :
  let s' := walk_propiedad JsonBuilder.listener p s in
  result_data s' = result_data s ∧
  current_object_name s' = current_object_name s ∧
  current_object_props s' =
    (if decide (text (clave p) = EmptyString) then current_object_props s
     else dict_set (text (clave p)) (valor_nativo (valor p)) (current_object_props s)).
Proof.
  cbv zeta. unfold walk_propiedad, walk_valor. simpl. repeat split.
  destruct (text (clave p)) as [|a k]; simpl; by repeat case_decide.
Qed.

Lemma json_propiedades ps : ∀ s,
  let s' := foldl (λ s p, walk_propiedad JsonBuilder.listener p s) s ps in
  result_data s' = result_data s ∧
  current_object_name s' = current_object_name s ∧
  (Forall (λ p, text (clave p) ≠ EmptyString) ps →
   current_object_props s' =
     foldl (λ d p, dict_set (text (clave p)) (valor_nativo (valor p)) d)
       (current_object_props s) ps).
Proof.
  induction ps as [|p ps IH]; intros s; cbn [foldl]; [done|].
  destruct (json_propiedad p s) as (Hr & Hn & Hp).
  destruct (IH (walk_propiedad JsonBuilder.listener p s)) as (Hr' & Hn' & Hp').
  cbv zeta. rewrite Hr', Hn', Hr, Hn. repeat split.
  intros [Hk Hks]%Forall_cons. rewrite (Hp' Hks), Hp. by rewrite decide_False.
Qed.

Lemma json_items vs : ∀ s,
  let s' := foldl (λ s v, walk_valor JsonBuilder.listener Items_listaParent v s) s vs in
  result_data s' = result_data s ∧
  json_current_list_name s' = json_current_list_name s ∧
  current_list_items s' = current_list_items s ++ (valor_nativo <$> vs).
Proof.
  induction vs as [|v vs IH]; intros s; cbn [foldl].
  - by rewrite app_nil_r.
  - destruct (IH (walk_valor JsonBuilder.listener Items_listaParent v s)) as (Hr & Hn & Hi).
    cbv zeta. rewrite Hr, Hn, Hi. unfold walk_valor. simpl.
    by rewrite <- app_assoc.
Qed.

(** A command binds its name in the document, whatever the builder holds
    from earlier commands. *)
Lemma json_comando cmd s :
  cmd_name cmd ≠ EmptyString →
  ∃ j, result_data (walk_comando JsonBuilder.listener cmd s)
       = dict_set (cmd_name cmd) j (result_data s) ∧
       (cmd_keys_given cmd → j = json_of_cmd cmd).
Proof.
  intros Hname. destruct cmd as [ctx|ctx]; simpl in Hname; unfold walk_comando.
  - pose proof (json_propiedades (propiedades ctx) (JsonBuilder.enterCrear_objeto_cmd ctx s))
      as (Hr & Hn & Hp).
    cbv zeta in Hr, Hn, Hp.
    change (enterCrear_objeto_cmd JsonBuilder.listener ctx s)
      with (JsonBuilder.enterCrear_objeto_cmd ctx s).
    change (exitCrear_objeto_cmd JsonBuilder.listener)
      with JsonBuilder.exitCrear_objeto_cmd.
    set (s1 := foldl _ _ _) in *.
    unfold JsonBuilder.exitCrear_objeto_cmd. cbn [result_data]. rewrite Hn, Hr.
    simpl in *. destruct (text (nombre_obj ctx)) as [|a n] eqn:Ht; [done|].
    eexists. split; [done|]. intros Hk. by rewrite (Hp Hk).
  - pose proof (json_items (items_lista ctx) (JsonBuilder.enterCrear_lista_cmd ctx s))
      as (Hr & Hn & Hi).
    cbv zeta in Hr, Hn, Hi.
    change (enterCrear_lista_cmd JsonBuilder.listener ctx s)
      with (JsonBuilder.enterCrear_lista_cmd ctx s).
    change (exitCrear_lista_cmd JsonBuilder.listener)
      with JsonBuilder.exitCrear_lista_cmd.
    set (s1 := foldl _ _ _) in *.
    unfold JsonBuilder.exitCrear_lista_cmd. cbn [result_data]. rewrite Hn, Hr, Hi.
    simpl in *. destruct (text (nombre_lista ctx)) as [|a n] eqn:Ht; [done|].
    eexists. split; [done|]. done.
Qed.

Lemma json_walk tree : ∀ s,
  names_given tree → keys_given tree →
  result_data (walk JsonBuilder.listener tree s)
  = foldl (λ d cmd, dict_set (cmd_name cmd) (json_of_cmd cmd) d) (result_data s) tree.
Proof.
  induction tree as [|cmd tree IH]; intros s Hn Hk; [done|].
  apply Forall_cons in Hn as [Hn Hns]. apply Forall_cons in Hk as [Hk Hks].
  change (walk JsonBuilder.listener (cmd :: tree) s)
    with (walk JsonBuilder.listener tree (walk_comando JsonBuilder.listener cmd s)).
  rewrite (IH _ Hns Hks). cbn [foldl].
  destruct (json_comando cmd s Hn) as (j & -> & Hj). by rewrite (Hj Hk).
Qed.

Lemma json_of_commands (tree : ProgramaContext) :
  names_given tree → keys_given tree →
  json_of tree = foldl (λ d cmd, dict_set (cmd_name cmd) (json_of_cmd cmd) d) [] tree.
Proof. intros Hn Hk. unfold json_of. by rewrite json_walk. Qed.

(** The document of a program binds the name of every command to its
    value, a later command of the same name replacing the value in place;
    within an object a repeated key keeps its first position and its last
    value. *)
Theorem json_of_exact (tree : ProgramaContext) :
  names_given tree → keys_given tree →
  json_of tree = foldl (λ d cmd, dict_set (cmd_name cmd) (json_of_cmd cmd) d) [] tree.
Proof. apply json_of_commands. Qed.

Lemma json_of_exact_witness :
  names_given ex_mixed ∧ keys_given ex_mixed ∧
  json_of ex_mixed
  = [("o", JsonObject [("a", VBool true); ("b", VStr "x")]);
     ("l", JsonArray [VInt 1; VFloat "2.5"])].
Proof.
  split; [by_decide|]. split; [by_decide|].
  exact (json_of_exact ex_mixed ltac:(by_decide) ltac:(by_decide)).
Defined.

End builders_extra.

(** * The two back ends agree *)

Section agreement.
Import Analyzer.

Lemma list_to_map_dict_set {V W} (g : V → W) (k : string) (v : V) (d : list (string * V)) :
  list_to_map ((λ kv, (VStr kv.1, g kv.2)) <$> dict_set k v d)
  =@{gmap value W} <[VStr k := g v]> (list_to_map ((λ kv, (VStr kv.1, g kv.2)) <$> d)).
Proof.
  induction d as [|[k' v'] d IH]; [done|].
  cbn [dict_set]. case_decide as Hk; rewrite !fmap_cons; cbn beta; cbn [fst snd];
    rewrite !list_to_map_cons.
  - subst k'. by rewrite insert_insert_eq.
  - rewrite IH. apply insert_insert_ne. congruence.
Qed.

Lemma run_app xs ys env : run (xs ++ ys) env = run xs env ≫= run ys.
Proof.
  revert env. induction xs as [|x xs IH]; intros env; simpl; [done|].
  destruct (run_instr x env) as [env1|]; simpl; [apply IH | done].
Qed.

Lemma format_value_nativo v :
  format_value (valor_nativo v) (VStr (get_value_type v)) = literal_of (valor_nativo v).
Proof. by destruct v. Qed.

Lemma run_sets n ps : ∀ env m,
  env !! VStr n = Some (PyDict m) →
  run ((λ p, Instr IR_SET_PROPERTY
               [VStr n; VStr (text (clave p)); VStr (get_value_type (valor p));
                valor_nativo (valor p)]) <$> ps) env
  = Some (<[VStr n :=
             PyDict (foldl (λ m p, <[VStr (text (clave p)) :=
                                       literal_of (valor_nativo (valor p))]> m) m ps)]> env).
Proof.
  induction ps as [|p ps IH]; intros env m Hm; cbn [foldl fmap list_fmap run].
  - by rewrite insert_id.
  - unfold run_instr at 1. unfold emit_instr. simpl. rewrite Hm. simpl.
    rewrite (IH _ _ (lookup_insert_eq _ _ _)), insert_insert_eq.
    by rewrite format_value_nativo.
Qed.

Lemma run_appends n vs : ∀ env items,
  env !! VStr n = Some (PyList items) →
  run ((λ v, Instr IR_APPEND_LIST [VStr n; VStr (get_value_type v); valor_nativo v]) <$> vs)
    env
  = Some (<[VStr n := PyList (items ++ (literal_of <$> (valor_nativo <$> vs)))]> env).
Proof.
  induction vs as [|v vs IH]; intros env items Hm; cbn [fmap list_fmap run].
  - by rewrite app_nil_r, insert_id.
  - unfold run_instr at 1. unfold emit_instr. simpl. rewrite Hm. simpl.
    rewrite (IH _ _ (lookup_insert_eq _ _ _)), insert_insert_eq.
    by rewrite format_value_nativo, <- app_assoc.
Qed.

Lemma foldl_dict_set_to_map ps : ∀ d,
  list_to_map ((λ kv, (VStr kv.1, literal_of kv.2)) <$>
     foldl (λ d p, dict_set (text (clave p)) (valor_nativo (valor p)) d) d ps)
  =@{gmap value literal}
  foldl (λ m p, <[VStr (text (clave p)) := literal_of (valor_nativo (valor p))]> m)
    (list_to_map ((λ kv, (VStr kv.1, literal_of kv.2)) <$> d)) ps.
Proof.
  induction ps as [|p ps IH]; intros d; cbn [foldl]; [done|].
  by rewrite IH, (list_to_map_dict_set literal_of).
Qed.

(** The lines of one command leave in its variable what the document binds
    its name to. *)
Lemma run_cmd cmd env :
  run (creation_of cmd :: body_of cmd) env
  = Some (<[VStr (cmd_name cmd) := py_of_json (json_of_cmd cmd)]> env).
Proof.
  destruct cmd as [ctx|ctx]; cbn [run creation_of body_of json_of_cmd py_of_json].
  - unfold run_instr at 1. unfold emit_instr. simpl.
    rewrite (run_sets _ _ _ ∅) by apply lookup_insert_eq.
    by rewrite insert_insert_eq, foldl_dict_set_to_map.
  - unfold run_instr at 1. unfold emit_instr. simpl.
    rewrite (run_appends _ _ _ []) by apply lookup_insert_eq.
    by rewrite insert_insert_eq.
Qed.

Lemma run_tree tree : ∀ d,
  run (tree ≫= λ cmd, creation_of cmd :: body_of cmd) (env_of_json d)
  = Some (env_of_json (foldl (λ d cmd, dict_set (cmd_name cmd) (json_of_cmd cmd) d) d tree)).
Proof.
  induction tree as [|cmd tree IH]; intros d; [done|].
  rewrite bind_cons, run_app, run_cmd. cbn [foldl]. simpl.
  rewrite <- IH. unfold env_of_json. by rewrite (list_to_map_dict_set py_of_json).
Qed.

Lemma python_names_given tree : python_names tree → names_given tree.
Proof.
  intros H. eapply Forall_impl; [exact H|].
  intros cmd [Hid _] Hn. rewrite Hn in Hid. done.
Qed.

Lemma plain_keys_given tree : plain_keys tree → keys_given tree.
Proof.
  intros H. eapply Forall_impl; [exact H|].
  intros [ctx|ctx]; simpl; [|done].
  intros Hp. eapply Forall_impl; [exact Hp|]. by intros p [? _].
Qed.

(** For a script whose names Python can assign to, whose keys stand for
    themselves between double quotes and whose decimals are finite, running
    the program emitted from the IR leaves in the variables exactly the data
    of the JSON document built from the same script: the two paths from the
    parse tree agree. *)
Theorem replay_agrees_with_json (tree : ProgramaContext) :
  python_names tree → plain_keys tree → finite_values tree →
  Forall literal_valued (ir_of tree) ∧
  replay (ir_of tree) = Some (env_of_json (json_of tree)).
Proof.
  intros Hn Hk Hf. split; [by apply ir_of_literal_valued|].
  apply python_names_given in Hn. apply plain_keys_given in Hk.
  rewrite replay_run_any, ir_of_commands, json_of_commands by done.
  apply (run_tree tree []).
Qed.

Lemma replay_agrees_with_json_witness :
  python_names ex_mixed ∧ plain_keys ex_mixed ∧ finite_values ex_mixed ∧
  replay (ir_of ex_mixed) = Some (env_of_json (json_of ex_mixed)).
Proof.
  split; [by_decide|]. split; [by_decide|]. split; [by_decide|].
  exact (proj2 (replay_agrees_with_json ex_mixed
                  ltac:(by_decide) ltac:(by_decide) ltac:(by_decide))).
Defined.

End agreement.

(** * Sequences the grouping phase leaves alone *)

Lemma follows_last_write_wins xs : ∀ cur,
  follows cur xs → follows cur (last_write_wins xs).
Proof.
  induction xs as [|x xs IH]; intros cur; simpl; [done|].
  destruct (decide (is_creation x)) as [Hc|Hc].
  - intros Hf. rewrite decide_False.
    + simpl. rewrite decide_True by done. by apply IH.
    + intros [Hs _]. apply (creation_not_operation x Hc). by left.
  - intros [Hx Hf]. case_decide; [by apply IH|].
    simpl. rewrite decide_False by done. split; [done|by apply IH].
Qed.

Lemma follows_known cur xs : follows cur xs → Forall known_opcode xs.
Proof.
  revert cur. induction xs as [|x xs IH]; intros cur; simpl; [constructor|].
  case_decide as Hc.
  - intros Hf. constructor; [by left|by eapply IH].
  - intros [[Hx _] Hf]. constructor; [by right|by eapply IH].
Qed.

(** Behind the creation of [n] a sequence is the operations on [n] followed
    by the groups of the entities created later. *)
Lemma follows_split xs : ∀ n,
  follows (Some n) xs → NoDup (n :: (target <$> creations xs)) →
  xs = bucket n (operations xs)
       ++ (creations xs ≫= λ c, c :: bucket (target c) (operations xs)) ∧
  Forall (λ op, target op ∈ n :: (target <$> creations xs)) (operations xs).
Proof.
  induction xs as [|x xs IH]; intros n; simpl; [done|].
  unfold creations, operations. rewrite !filter_cons.
  destruct (decide (is_creation x)) as [Hc|Hc].
  - rewrite decide_False by (by apply creation_not_operation).
    fold (creations xs) (operations xs). rewrite fmap_cons, bind_cons.
    intros Hf [Hn Hnd]%NoDup_cons.
    destruct (IH (target x) Hf Hnd) as [Heq Hall]. split.
    + rewrite bucket_none; [simpl; by rewrite <- Heq|].
      eapply Forall_impl; [exact Hall|]. intros op Hop Heq'. simpl in Hop.
      apply Hn. by rewrite <- Heq'.
    + eapply Forall_impl; [exact Hall|]. intros op Hop. by right.
  - intros [[Hx [= Hcur]] Hf]. subst n. rewrite decide_True by done.
    fold (creations xs) (operations xs). intros Hnd.
    destruct (IH (target x) Hf Hnd) as [Heq Hall]. split.
    + rewrite bucket_cons, decide_True by done. simpl. f_equal.
      rewrite Heq at 1. f_equal.
      apply Forall_bind_ext, Forall_forall. intros c Hcin. f_equal.
      rewrite bucket_cons, decide_False; [done|].
      apply NoDup_cons in Hnd as [Hn _]. intros Heq'. apply Hn.
      rewrite Heq'. apply list_elem_of_fmap. by exists c.
    + constructor; [by left|done].
Qed.

Lemma follows_grouped xs :
  follows None xs → distinct_creations xs → grouped xs = xs.
Proof.
  destruct xs as [|x xs]; [done|]. simpl.
  destruct (decide (is_creation x)) as [Hc|Hc]; [|by intros [[_ ?] _]].
  unfold distinct_creations, grouped, orphans, creations, operations.
  rewrite !filter_cons, decide_True, decide_False
    by (done || by apply creation_not_operation).
  fold (creations xs) (operations xs). rewrite fmap_cons, bind_cons.
  intros Hf Hnd. destruct (follows_split xs (target x) Hf Hnd) as [Heq Hall].
  rewrite filter_none; [|eapply Forall_impl; [exact Hall|]; by intros op Hop Hn].
  rewrite app_nil_r. simpl. f_equal. by rewrite <- Heq.
Qed.

(** Phase 2 returns a sequence as it is when every operation already writes
    to the entity created last before it and no entity is created twice. *)
Theorem group_instructions_settled (xs : list instr) :
  follows None xs → distinct_creations xs → Forall named xs →
  _group_instructions xs = Some xs.
Proof.
  intros Hf Hnd Hn.
  rewrite group_instructions_cases, !decide_True by (done || by eapply follows_known).
  by rewrite follows_grouped.
Qed.

Lemma group_instructions_settled_witness :
  follows None (CO "a" :: ex_redundancy) ∧ distinct_creations (CO "a" :: ex_redundancy) ∧
  Forall named (CO "a" :: ex_redundancy) ∧
  _group_instructions (CO "a" :: ex_redundancy) = Some (CO "a" :: ex_redundancy).
Proof.
  split; [by_decide|]. split; [by_decide|]. split; [by_decide|].
  apply (group_instructions_settled (CO "a" :: ex_redundancy)); by_decide.
Defined.

(** * The pipeline *)

Section pipeline_extra.
Import Analyzer.

Lemma follows_operations n ops rest :
  Forall (λ x, is_operation x ∧ target x = n) ops →
  follows (Some n) rest → follows (Some n) (ops ++ rest).
Proof.
  induction 1 as [|x ops [Hx Ht] _ IH]; intros Hf; [done|]. simpl.
  rewrite decide_False by (intros Hc; by apply (creation_not_operation x)).
  rewrite Ht. by split; [|apply IH].
Qed.

Lemma body_of_operations cmd :
  Forall (λ x, is_operation x ∧ target x = Some (VStr (cmd_name cmd)))
    (if decide (cmd_name cmd = EmptyString) then [] else body_of cmd).
Proof.
  case_decide; [constructor|].
  destruct cmd as [ctx|ctx]; simpl; apply Forall_fmap, Forall_forall; intros x _;
    (split; [|done]); [by left | by right].
Qed.

(** The IR of a program is grouped as the builder emits it. *)
Lemma follows_ir tree : ∀ cur, follows cur (ir_of tree).
Proof.
  unfold ir_of, IRBuilder.get_instructions. setoid_rewrite ir_walk. simpl.
  induction tree as [|cmd tree IH]; intros cur; [done|].
  rewrite bind_cons. simpl. rewrite decide_True by apply creation_of_creation.
  destruct (creation_of_facts cmd) as (_ & _ & _ & ->).
  apply follows_operations; [apply body_of_operations | apply IH].
Qed.

Lemma clean_pass_distinct el tree :
  _semantic_errors (error_listener (semantic_pass el tree)) = _semantic_errors el →
  NoDup (cmd_name <$> tree).
Proof.
  intros Hsem.
  by destruct (walk_no_error_distinct tree
                 {| error_listener := el; symbol_table := SymbolTable_init;
                    current_symbol_name := None |} Hsem) as [Hnd _].
Qed.

Lemma distinct_names_creations tree :
  NoDup (cmd_name <$> tree) → distinct_creations (ir_of tree).
Proof.
  intros Hnd. destruct (builder_ir tree) as (_ & _ & _ & _ & Hn).
  unfold distinct_creations, ir_of. cbv zeta in Hn. rewrite Hn.
  assert (Inj (=) (=) (λ n : string, Some (VStr n))) as Hinj
    by (intros ? ? [=]; done).
  apply (NoDup_fmap_2 (λ n, Some (VStr n))) in Hnd.
  by rewrite <- list_fmap_compose in Hnd.
Qed.

(** On a script without any diagnostic the optimizer has nothing to
    reorder: the IR the pipeline returns is the IR of the builder without
    the properties a later property of the same object overwrites. *)
Theorem pipeline_ir (el : CustomErrorListener) (tree : ProgramaContext) :
  get_total_errors el = 0%nat →
  _semantic_errors (error_listener (semantic_pass el tree)) = 0%nat →
  ∃ r, analyze_and_transform el tree = Some r ∧
       ir (stats r) = last_write_wins (ir_of tree).
Proof.
  intros Htot Hsem.
  destruct (builder_ir tree) as (Hs & Hk & _).
  assert (distinct_creations (ir_of tree)) as Hnd.
  { apply distinct_names_creations, (clean_pass_distinct el).
    unfold get_total_errors in Htot. lia. }
  unfold analyze_and_transform. rewrite decide_True by done. cbv zeta.
  destruct (decide (_semantic_errors (error_listener (semantic_pass el tree)) = 0%nat))
    as [_|Hz]; [|done].
  fold (ir_of tree). rewrite (optimize_ir_known (ir_of tree) Hs Hk). simpl.
  eexists. split; [done|]. simpl.
  apply follows_grouped.
  - apply follows_last_write_wins, follows_ir.
  - unfold distinct_creations. by rewrite last_write_wins_creations.
Qed.

Lemma pipeline_ir_witness :
  get_total_errors fresh_listener = 0%nat ∧
  _semantic_errors (error_listener (semantic_pass fresh_listener ex_mixed)) = 0%nat ∧
  ∃ r, analyze_and_transform fresh_listener ex_mixed = Some r ∧
       ir (stats r) = last_write_wins (ir_of ex_mixed).
Proof.
  split; [reflexivity|]. split; [vm_compute; reflexivity|].
  apply (pipeline_ir fresh_listener ex_mixed); [reflexivity | vm_compute; reflexivity].
Defined.

(** [analyze_and_transform] always returns.  It never changes what the lexer
    and the parser have counted, it returns the JSON text exactly when the
    three counts it reports are zero, and without the JSON text it reports an
    empty IR and no command. *)
Theorem analyze_and_transform_total (el : CustomErrorListener) (tree : ProgramaContext) :
  ∃ r, analyze_and_transform el tree = Some r ∧
       errores_lexicos (stats r) = _lexer_errors el ∧
       errores_sintacticos (stats r) = _parser_errors el ∧
       (is_Some (json_output_string r) ↔
        (errores_lexicos (stats r) + errores_sintacticos (stats r)
         + errores_semanticos (stats r) = 0)%nat) ∧
       (json_output_string r = None →
        ir (stats r) = [] ∧ comandos_procesados (stats r) = 0%nat).
Proof.
  destruct (builder_ir tree) as (Hs & Hk & _).
  destruct (walk_messages tree
              {| error_listener := el; symbol_table := SymbolTable_init;
                 current_symbol_name := None |}) as (_ & Hl & Hp & _).
  fold (semantic_pass el tree) in Hl, Hp. simpl in Hl, Hp.
  unfold analyze_and_transform.
  destruct (decide (get_total_errors el = 0%nat)) as [Htot|Htot].
  - cbv zeta.
    destruct (decide (_semantic_errors (error_listener (semantic_pass el tree)) = 0%nat))
      as [Hz|Hz].
    + fold (ir_of tree). rewrite (optimize_ir_known (ir_of tree) Hs Hk). simpl.
      eexists. split; [done|]. simpl. rewrite Hl, Hp.
      unfold get_total_errors in Htot. repeat split; try done; intros ?; lia.
    + simpl. eexists. split; [done|]. simpl. rewrite Hl, Hp.
      repeat split; try done; intros ?; lia.
  - simpl. eexists. split; [done|]. simpl.
    unfold get_total_errors in Htot. repeat split; try done; intros ?; lia.
Qed.

Lemma dict_set_keys {V} (k : string) (v : V) (d : list (string * V)) :
  (dict_set k v d).*1 = if decide (k ∈ d.*1) then d.*1 else d.*1 ++ [k].
Proof.
  induction d as [|[k' v'] d IH]; [done|].
  cbn [dict_set]. destruct (decide (k' = k)) as [->|Hk].
  - rewrite decide_True; [done|]. rewrite fmap_cons. by left.
  - rewrite !fmap_cons, IH. simpl. destruct (decide (k ∈ d.*1)) as [Hin|Hin].
    + rewrite decide_True; [done|]. by right.
    + rewrite decide_False; [done|]. intros [?|?]%elem_of_cons; [congruence|done].
Qed.

Lemma json_walk_names tree : ∀ s,
  names_given tree → NoDup ((result_data s).*1 ++ (cmd_name <$> tree)) →
  (result_data (walk JsonBuilder.listener tree s)).*1
  = (result_data s).*1 ++ (cmd_name <$> tree).
Proof.
  induction tree as [|cmd tree IH]; intros s Hg Hnd.
  - simpl. by rewrite app_nil_r.
  - apply Forall_cons in Hg as [Hn Hg].
    change (walk JsonBuilder.listener (cmd :: tree) s)
      with (walk JsonBuilder.listener tree (walk_comando JsonBuilder.listener cmd s)).
    destruct (json_comando cmd s Hn) as (j & Hj & _).
    assert ((result_data (walk_comando JsonBuilder.listener cmd s)).*1
            = (result_data s).*1 ++ [cmd_name cmd]) as Hk.
    { rewrite Hj, dict_set_keys, decide_False; [done|].
      intros Hin. apply NoDup_app in Hnd as (_ & Hd & _).
      apply (Hd _ Hin). rewrite fmap_cons. by left. }
    rewrite IH; [|done|].
    + rewrite Hk, <- app_assoc. done.
    + rewrite Hk, <- app_assoc. done.
Qed.

Lemma json_of_keys (tree : ProgramaContext) :
  names_given tree → NoDup (cmd_name <$> tree) →
  (json_of tree).*1 = cmd_name <$> tree.
Proof.
  intros Hg Hnd. unfold json_of. by rewrite json_walk_names.
Qed.

(** When the commands have pairwise distinct names, the document lists
    them in the order of the script, one member per command. *)
Theorem json_of_names (tree : ProgramaContext) :
  names_given tree → NoDup (cmd_name <$> tree) →
  (json_of tree).*1 = cmd_name <$> tree.
Proof. apply json_of_keys. Qed.

Lemma json_of_names_witness :
  names_given ex_mixed ∧ NoDup (cmd_name <$> ex_mixed) ∧
  (json_of ex_mixed).*1 = cmd_name <$> ex_mixed.
Proof.
  split; [by_decide|]. split; [by_decide|].
  apply (json_of_names ex_mixed); by_decide.
Defined.

(** On a script without any diagnostic the statistics count every command
    once: as a command processed and as a symbol of the table. *)
Theorem pipeline_counts (el : CustomErrorListener) (tree : ProgramaContext) :
  get_total_errors el = 0%nat →
  _semantic_errors (error_listener (semantic_pass el tree)) = 0%nat →
  names_given tree →
  ∃ r, analyze_and_transform el tree = Some r ∧
       comandos_procesados (stats r) = length tree ∧
       size (symbols_debug (stats r)) = length tree.
Proof.
  intros Htot Hsem Hg.
  destruct (builder_ir tree) as (Hs & Hk & _).
  assert (NoDup (cmd_name <$> tree)) as Hnd.
  { apply (clean_pass_distinct el). unfold get_total_errors in Htot. lia. }
  pose proof (walk_accounting tree
                {| error_listener := el; symbol_table := SymbolTable_init;
                   current_symbol_name := None |}) as Hacc.
  cbv zeta in Hacc. fold (semantic_pass el tree) in Hacc. simpl in Hacc.
  rewrite Hsem, map_size_empty in Hacc.
  unfold analyze_and_transform. rewrite decide_True by done. cbv zeta.
  destruct (decide (_semantic_errors (error_listener (semantic_pass el tree)) = 0%nat))
    as [_|Hz]; [|done].
  fold (ir_of tree). rewrite (optimize_ir_known (ir_of tree) Hs Hk). simpl.
  eexists. split; [done|]. simpl. split.
  - fold (json_of tree).
    rewrite <- (length_fmap fst (json_of tree)), json_of_keys by done.
    by rewrite length_fmap.
  - unfold get_debug_info. rewrite map_size_fmap.
    unfold get_total_errors in Htot. lia.
Qed.

Lemma pipeline_counts_witness :
  get_total_errors fresh_listener = 0%nat ∧
  _semantic_errors (error_listener (semantic_pass fresh_listener ex_mixed)) = 0%nat ∧
  names_given ex_mixed ∧
  ∃ r, analyze_and_transform fresh_listener ex_mixed = Some r ∧
       comandos_procesados (stats r) = length ex_mixed ∧
       size (symbols_debug (stats r)) = length ex_mixed.
Proof.
  split; [reflexivity|]. split; [vm_compute; reflexivity|]. split; [by_decide|].
  apply (pipeline_counts fresh_listener ex_mixed);
    [reflexivity | vm_compute; reflexivity | by_decide].
Defined.

(** Whatever the script, the IR the builder emits keeps the data model:
    every instruction has one of the four opcodes and the arguments of its
    opcode, every operation carries the type tag of its native value
    (STRING for a [str], NUMBER for an [int] or a [float], BOOLEAN for a
    [bool]), and an entity is written to only after its creation. *)
Theorem ir_of_well_formed (tree : ProgramaContext) :
  Forall shaped (ir_of tree) ∧ Forall known_opcode (ir_of tree) ∧
  Forall typed (ir_of tree) ∧ created_before (ir_of tree).
Proof.
  destruct (builder_ir tree) as (Hs & Hk & Hl & Hcb & _). done.
Qed.

(** On a script without any diagnostic whose decimals are finite, the
    pipeline returns the JSON text; the IR of the builder and the optimized
    IR both print literals only, and the optimized IR replays through the
    emitter exactly as the IR of the builder does. *)
Theorem pipeline_replay (el : CustomErrorListener) (tree : ProgramaContext) :
  get_total_errors el = 0%nat →
  _semantic_errors (error_listener (semantic_pass el tree)) = 0%nat →
  finite_values tree →
  ∃ r, analyze_and_transform el tree = Some r ∧
       is_Some (json_output_string r) ∧
       Forall literal_valued (ir_of tree) ∧
       Forall literal_valued (ir (stats r)) ∧
       replay (ir (stats r)) = replay (ir_of tree).
Proof.
  intros Htot Hsem Hfin.
  destruct (builder_ir tree) as (Hs & Hk & _ & Hcb & _).
  fold (ir_of tree) in Hs, Hk, Hcb.
  pose proof (ir_of_literal_valued tree Hfin) as Hlit.
  assert (distinct_creations (ir_of tree)) as Hnd.
  { apply distinct_names_creations, (clean_pass_distinct el).
    unfold get_total_errors in Htot. lia. }
  assert (grouped (last_write_wins (ir_of tree)) = last_write_wins (ir_of tree)) as Hg.
  { apply follows_grouped.
    - apply follows_last_write_wins, follows_ir.
    - unfold distinct_creations. by rewrite last_write_wins_creations. }
  unfold analyze_and_transform. rewrite decide_True by done. cbv zeta.
  destruct (decide (_semantic_errors (error_listener (semantic_pass el tree)) = 0%nat))
    as [_|Hz]; [|done].
  fold (ir_of tree). rewrite (optimize_ir_known (ir_of tree) Hs Hk). simpl.
  eexists. split; [done|]. simpl. split; [done|]. split; [done|].
  rewrite Hg. split; [by apply last_write_wins_Forall|].
  rewrite <- Hg, !replay_run; [by apply run_optimized | done |].
  rewrite Hg. by apply last_write_wins_Forall.
Qed.

Lemma pipeline_replay_witness :
  get_total_errors fresh_listener = 0%nat ∧
  _semantic_errors (error_listener (semantic_pass fresh_listener ex_mixed)) = 0%nat ∧
  finite_values ex_mixed ∧
  ∃ r, analyze_and_transform fresh_listener ex_mixed = Some r ∧
       is_Some (json_output_string r) ∧
       Forall literal_valued (ir_of ex_mixed) ∧
       Forall literal_valued (ir (stats r)) ∧
       replay (ir (stats r)) = replay (ir_of ex_mixed).
Proof.
  split; [reflexivity|]. split; [vm_compute; reflexivity|]. split; [by_decide|].
  apply (pipeline_replay fresh_listener ex_mixed);
    [reflexivity | vm_compute; reflexivity | by_decide].
Defined.

(** A decimal beyond the range of [float] is not finite, and the line the
    emitter prints for it is not a literal. *)
Example overflow_not_literal :
  ¬ finite_values ex_overflow ∧ ¬ Forall literal_valued (ir_of ex_overflow).
Proof. split; by_decide. Qed.

Lemma is_reserved_walk_comando cmd s n :
  is_reserved (symbol_table (walk_comando Semantic.listener cmd s)) n
  = is_reserved (symbol_table s) n.
Proof. unfold is_reserved. by rewrite walk_comando_reserved_words. Qed.

Lemma walk_no_error_unreserved tree : ∀ s,
  _semantic_errors (error_listener (walk Semantic.listener tree s))
  = _semantic_errors (error_listener s) →
  Forall (λ cmd, is_reserved (symbol_table s) (cmd_name cmd) = false) tree.
Proof.
  induction tree as [|cmd tree IH]; intros s Herr; [constructor|].
  change (walk Semantic.listener (cmd :: tree) s)
    with (walk Semantic.listener tree (walk_comando Semantic.listener cmd s)) in Herr.
  pose proof (walk_errors_monotone tree (walk_comando Semantic.listener cmd s)) as Hmono.
  destruct (walk_comando_cases cmd s) as [_ [[He _]|(He & _)]]; [lia|].
  constructor.
  - destruct (is_reserved (symbol_table s) (cmd_name cmd)) eqn:Hres; [|done].
    destruct (walk_comando_reserved cmd s Hres) as [_ He']. lia.
  - eapply Forall_impl; [apply (IH (walk_comando Semantic.listener cmd s)); lia|].
    intros c Hc. simpl in Hc. by rewrite is_reserved_walk_comando in Hc.
Qed.

Lemma walk_fresh_clean tree : ∀ s,
  NoDup (cmd_name <$> tree) →
  Forall (λ cmd, is_reserved (symbol_table s) (cmd_name cmd) = false ∧
                 symbols (symbol_table s) !! cmd_name cmd = None) tree →
  _semantic_errors (error_listener (walk Semantic.listener tree s))
  = _semantic_errors (error_listener s).
Proof.
  induction tree as [|cmd tree IH]; intros s Hnd Hall; [done|].
  rewrite fmap_cons in Hnd. apply NoDup_cons in Hnd as [Hn Hnd].
  apply Forall_cons in Hall as [[Hres Hnew] Hall].
  change (walk Semantic.listener (cmd :: tree) s)
    with (walk Semantic.listener tree (walk_comando Semantic.listener cmd s)).
  destruct (walk_comando_fresh cmd s Hres Hnew) as (He & _ & _ & e & Hs & _).
  rewrite IH; [by rewrite He|done|].
  apply Forall_forall. intros c Hc. rewrite Forall_forall in Hall.
  destruct (Hall c Hc) as [Hr Hl]. rewrite is_reserved_walk_comando, Hs.
  split; [done|]. rewrite lookup_insert_ne; [done|].
  intros Heq. apply Hn. rewrite Heq. apply list_elem_of_fmap. by exists c.
Qed.

(** The analysis pass records no Semantic diagnostic exactly when the names
    of the commands are pairwise distinct, letter case counting, and none of
    them is a reserved word. *)
Theorem semantic_pass_clean (el : CustomErrorListener) (tree : ProgramaContext) :
  _semantic_errors (error_listener (semantic_pass el tree)) = _semantic_errors el
  ↔ NoDup (cmd_name <$> tree) ∧ names_free tree.
Proof.
  unfold semantic_pass, names_free. split.
  - intros Herr. split.
    + by apply (clean_pass_distinct el).
    + by apply (walk_no_error_unreserved tree
                  {| error_listener := el; symbol_table := SymbolTable_init;
                     current_symbol_name := None |}).
  - intros [Hnd Hfree]. rewrite walk_fresh_clean; [done|done|].
    eapply Forall_impl; [exact Hfree|]. intros c Hc. simpl. split; [done|].
    apply lookup_empty.
Qed.

End pipeline_extra.
